(** * ColorLUT.c: 3D colour lookup table with trilinear interpolation (SSE4 version)

    A shallow embedding of [src/libImaging/ColorLUT.c].  The file follows the
    C source top to bottom: the fixed-point constants, the scalar helpers
    [clip8], [interpolate3], [interpolate4] and [table_index3D], the SSE
    intrinsics the transform is written with, and then
    [ImagingColorLUT3D_linear] itself, with its two loops.

    Conventions.
    - A C [int] is a [Z]; a 32-bit SIMD lane is a [Z] kept in [0, 2^32), its
      wrap-around written with [u32]; signed readings are [s32], [s16].
    - An [__m128i] is a record of its four 32-bit lanes, lane 0 being the low
      one; the 16-bit and 8-bit views are computed from the lanes
      (little endian, as on x86).
    - A buffer behind a C pointer (an image row, the table) is the list of the
      elements that can be read through that pointer.  A load or a store that
      leaves the list is undefined behaviour in C and is [None] here.
    - The double arithmetic that computes the scale is done with the IEEE
      binary64 primitive floats. *)

From Stdlib Require Import ZArith Lia List Bool.
From Stdlib Require Import Floats.PrimFloat Floats.SpecFloat Floats.FloatOps.
From Stdlib Require Import Numbers.Cyclic.Int63.Uint63.
From coqutil Require Import Z.bitblast.
Import ListNotations.
Local Open Scope Z_scope.

(** ** Fixed-point constants (ColorLUT.c, lines 12-24) *)

Definition PRECISION_BITS : Z := 16 - 8 - 2.
Definition PRECISION_ROUNDING : Z := Z.shiftl 1 (PRECISION_BITS - 1).
Definition SCALE_BITS : Z := 32 - 8 - 6.
Definition SCALE_MASK : Z := Z.shiftl 1 SCALE_BITS - 1.
Definition SHIFT_BITS : Z := 16 - 1.

(** ** Machine integers *)

Definition u8 (z : Z) : Z := z mod 2 ^ 8.
Definition u16 (z : Z) : Z := z mod 2 ^ 16.
Definition u32 (z : Z) : Z := z mod 2 ^ 32.

(** Two's complement reading of the low 16 (32) bits. *)
Definition s16 (z : Z) : Z :=
  let w := z mod 2 ^ 16 in if w <? 2 ^ 15 then w else w - 2 ^ 16.
Definition s32 (z : Z) : Z :=
  let w := z mod 2 ^ 32 in if w <? 2 ^ 31 then w else w - 2 ^ 32.

(** Signed and unsigned saturation, as done by the pack instructions. *)
Definition sat_s16 (z : Z) : Z := Z.max (- 2 ^ 15) (Z.min (2 ^ 15 - 1) z).
Definition sat_u8 (z : Z) : Z := Z.max 0 (Z.min 255 z).

(** ** The option monad of memory accesses *)

Definition bind {A B : Type} (m : option A) (k : A -> option B) : option B :=
  match m with
  | Some a => k a
  | None => None
  end.

Notation "x <- m ;; k" := (bind m (fun x => k))
  (at level 61, m at next level, right associativity).

(** ** SSE registers and intrinsics *)

Module Simd.

Record m128i : Type := mk128 { e0 : Z; e1 : Z; e2 : Z; e3 : Z }.

Definition lanes (v : m128i) : list Z := [e0 v; e1 v; e2 v; e3 v].

Definition lanemap (f : Z -> Z) (a : m128i) : m128i :=
  mk128 (f (e0 a)) (f (e1 a)) (f (e2 a)) (f (e3 a)).

Definition lanemap2 (f : Z -> Z -> Z) (a b : m128i) : m128i :=
  mk128 (f (e0 a) (e0 b)) (f (e1 a) (e1 b)) (f (e2 a) (e2 b)) (f (e3 a) (e3 b)).

(** Little-endian views of one 32-bit lane. *)
Definition lane_words (x : Z) : list Z := [u16 x; u16 (Z.shiftr x 16)].
Definition lane_bytes (x : Z) : list Z :=
  [u8 x; u8 (Z.shiftr x 8); u8 (Z.shiftr x 16); u8 (Z.shiftr x 24)].

Definition word_lane (lo hi : Z) : Z := u16 lo + 2 ^ 16 * u16 hi.
Definition byte_lane (b0 b1 b2 b3 : Z) : Z :=
  u8 b0 + 2 ^ 8 * u8 b1 + 2 ^ 16 * u8 b2 + 2 ^ 24 * u8 b3.

Definition words (v : m128i) : list Z := flat_map lane_words (lanes v).
Definition bytes (v : m128i) : list Z := flat_map lane_bytes (lanes v).

Definition nthz (l : list Z) (i : nat) : Z := nth i l 0.

Definition of_words (l : list Z) : m128i :=
  mk128 (word_lane (nthz l 0) (nthz l 1)) (word_lane (nthz l 2) (nthz l 3))
        (word_lane (nthz l 4) (nthz l 5)) (word_lane (nthz l 6) (nthz l 7)).

Definition of_bytes (l : list Z) : m128i :=
  mk128 (byte_lane (nthz l 0) (nthz l 1) (nthz l 2) (nthz l 3))
        (byte_lane (nthz l 4) (nthz l 5) (nthz l 6) (nthz l 7))
        (byte_lane (nthz l 8) (nthz l 9) (nthz l 10) (nthz l 11))
        (byte_lane (nthz l 12) (nthz l 13) (nthz l 14) (nthz l 15)).

(** Constructors.  As in the Intel headers, [_mm_set_*] list the highest
    element first. *)
Definition _mm_set_epi32 (i3 i2 i1 i0 : Z) : m128i :=
  mk128 (u32 i0) (u32 i1) (u32 i2) (u32 i3).

Definition _mm_set1_epi32 (a : Z) : m128i := _mm_set_epi32 a a a a.

Definition _mm_setzero_si128 : m128i := mk128 0 0 0 0.

Definition _mm_set_epi8 (b15 b14 b13 b12 b11 b10 b9 b8 b7 b6 b5 b4 b3 b2 b1 b0 : Z)
  : m128i :=
  of_bytes [b0; b1; b2; b3; b4; b5; b6; b7; b8; b9; b10; b11; b12; b13; b14; b15].

(** 32-bit lane arithmetic. *)
Definition _mm_mullo_epi32 : m128i -> m128i -> m128i :=
  lanemap2 (fun x y => u32 (x * y)).
Definition _mm_add_epi32 : m128i -> m128i -> m128i :=
  lanemap2 (fun x y => u32 (x + y)).
Definition _mm_sub_epi32 : m128i -> m128i -> m128i :=
  lanemap2 (fun x y => u32 (x - y)).

Definition _mm_and_si128 : m128i -> m128i -> m128i := lanemap2 Z.land.
Definition _mm_or_si128 : m128i -> m128i -> m128i := lanemap2 Z.lor.

Definition _mm_srli_epi32 (a : m128i) (imm : Z) : m128i :=
  lanemap (fun x => Z.shiftr x imm) a.
Definition _mm_srai_epi32 (a : m128i) (imm : Z) : m128i :=
  lanemap (fun x => u32 (Z.shiftr (s32 x) imm)) a.
Definition _mm_slli_epi32 (a : m128i) (imm : Z) : m128i :=
  lanemap (fun x => u32 (Z.shiftl x imm)) a.

(** Multiply the signed 16-bit halves and add each pair into its lane. *)
Definition _mm_madd_epi16 : m128i -> m128i -> m128i :=
  lanemap2 (fun x y =>
    u32 (s16 x * s16 y + s16 (Z.shiftr x 16) * s16 (Z.shiftr y 16))).

Definition _mm_hadd_epi32 (a b : m128i) : m128i :=
  mk128 (u32 (e0 a + e1 a)) (u32 (e2 a + e3 a))
        (u32 (e0 b + e1 b)) (u32 (e2 b + e3 b)).

(** Zero-extend the four low bytes. *)
Definition _mm_cvtepu8_epi32 (a : m128i) : m128i :=
  mk128 (nthz (bytes a) 0) (nthz (bytes a) 1) (nthz (bytes a) 2) (nthz (bytes a) 3).

Definition _mm_extract_epi32 (a : m128i) (imm : Z) : Z :=
  s32 (nthz (lanes a) (Z.to_nat (Z.land imm 3))).

Definition _mm_cvtsi128_si32 (a : m128i) : Z := s32 (e0 a).

(** Shuffles. *)
Definition _mm_shuffle_epi32 (a : m128i) (imm : Z) : m128i :=
  let sel k := nthz (lanes a) (Z.to_nat (Z.land (Z.shiftr imm (2 * k)) 3)) in
  mk128 (sel 0) (sel 1) (sel 2) (sel 3).

Definition _mm_shuffle_epi8 (a mask : m128i) : m128i :=
  of_bytes (map (fun m => if Z.testbit m 7 then 0
                          else nthz (bytes a) (Z.to_nat (Z.land m 15)))
                (bytes mask)).

(** Packs with saturation. *)
Definition _mm_packs_epi32 (a b : m128i) : m128i :=
  of_words (map (fun x => sat_s16 (s32 x)) (lanes a ++ lanes b)).

Definition _mm_packus_epi16 (a b : m128i) : m128i :=
  of_bytes (map (fun w => sat_u8 (s16 w)) (words a ++ words b)).

End Simd.
Import Simd.

(** ** Memory

    [slice buf off n] is the [n] elements of [buf] from [off] on, when they
    all exist. *)

Definition slice (buf : list Z) (off : Z) (n : nat) : option (list Z) :=
  if (0 <=? off) && (off + Z.of_nat n <=? Z.of_nat (length buf))
  then Some (firstn n (skipn (Z.to_nat off) buf))
  else None.

(** A 16-byte load from a byte buffer: [*(__m128i * ) &buf[off]]. *)
Definition load_si128 (buf : list Z) (off : Z) : option m128i :=
  bs <- slice buf off 16 ;; Some (of_bytes bs).

(** [_mm_loadu_si128((__m128i * ) &table[i])] on the INT16 table: eight
    consecutive elements. *)
Definition _mm_loadu_si128 (table : list Z) (i : Z) : option m128i :=
  ws <- slice table i 8 ;; Some (of_words ws).

(** [rowOut[x] = v] on a UINT32 row: four bytes, low byte first. *)
Definition store_u32 (buf : list Z) (x : Z) (v : Z) : option (list Z) :=
  _ <- slice buf (4 * x) 4 ;;
  Some (firstn (Z.to_nat (4 * x)) buf ++ lane_bytes (u32 v)
          ++ skipn (Z.to_nat (4 * x) + 4) buf).

(** ** Scalar helpers (ColorLUT.c, lines 27-54) *)

(** Modelled from the spec: the table [clip8_lookups] is declared outside
    ColorLUT.c.  The spec gives it as the saturating clip: indices below 0
    map to 0, indices above 255 map to 255, the others to themselves. *)
Definition clip8_lookups (i : Z) : Z := sat_u8 i.

Definition clip8 (i : Z) : Z :=
  clip8_lookups (Z.shiftr (i + PRECISION_ROUNDING) PRECISION_BITS).

(** One component of [interpolate3] / [interpolate4]; the result is stored
    into an INT16. *)
Definition interpolate1 (a b shift : Z) : Z :=
  s16 (Z.shiftr (a * (Z.shiftl 1 SHIFT_BITS - shift) + b * shift) SHIFT_BITS).

Definition interpolate3 (a b : list Z) (shift : Z) : list Z :=
  [ interpolate1 (nthz a 0) (nthz b 0) shift;
    interpolate1 (nthz a 1) (nthz b 1) shift;
    interpolate1 (nthz a 2) (nthz b 2) shift ].

Definition interpolate4 (a b : list Z) (shift : Z) : list Z :=
  [ interpolate1 (nthz a 0) (nthz b 0) shift;
    interpolate1 (nthz a 1) (nthz b 1) shift;
    interpolate1 (nthz a 2) (nthz b 2) shift;
    interpolate1 (nthz a 3) (nthz b 3) shift ].

(** Line 53, on integers without wrap-around: the value of the C expression
    whenever its products and sums fit an [int], as they do up to the largest
    size that lines 18-20 name, 65. *)
Definition table_index3D (index1D index2D index3D size1D size1D_2D : Z) : Z :=
  index1D + index2D * size1D + index3D * size1D_2D.

(** ** The double arithmetic of the scale (lines 88-91)

    [(size - 1) / 255.0 * (1 << SCALE_BITS)] is computed in binary64 and
    converted to [int] by truncation when passed to [_mm_set_epi32]. *)

Definition double_of_int (z : Z) : float :=
  if z <? 0 then PrimFloat.opp (PrimFloat.of_uint63 (Uint63.of_Z (- z)))
  else PrimFloat.of_uint63 (Uint63.of_Z z).

Definition int_of_double (f : float) : Z :=
  match Prim2SF f with
  | S754_finite s m e =>
      let mag := if 0 <=? e then Z.pos m * 2 ^ e else Z.pos m / 2 ^ (- e) in
      if s then - mag else mag
  | _ => 0
  end.

Definition scale_of (size : Z) : Z :=
  int_of_double
    (PrimFloat.mul (PrimFloat.div (double_of_int (size - 1)) 255%float)
                   (double_of_int (Z.shiftl 1 SCALE_BITS))).

(** ** Images *)

(** Modelled from the spec: [Imaging.h], which declares the pixel types and
    [struct ImagingMemoryInstance], is not among the sources.  The spec
    speaks of a per-pixel storage type that must be 8-bit-unsigned for this
    transform; the other constructors stand for the storage types that the
    transform rejects. *)
Inductive pixel_type : Type :=
  | IMAGING_TYPE_UINT8 | IMAGING_TYPE_INT32 | IMAGING_TYPE_FLOAT32
  | IMAGING_TYPE_SPECIAL.

Definition pixel_type_eqb (a b : pixel_type) : bool :=
  match a, b with
  | IMAGING_TYPE_UINT8, IMAGING_TYPE_UINT8
  | IMAGING_TYPE_INT32, IMAGING_TYPE_INT32
  | IMAGING_TYPE_FLOAT32, IMAGING_TYPE_FLOAT32
  | IMAGING_TYPE_SPECIAL, IMAGING_TYPE_SPECIAL => true
  | _, _ => false
  end.

(** Modelled from the spec: an image exposes its width, height, band count,
    pixel storage type and row-addressable interleaved 8-bit channel storage.
    These are the fields that the transform reads.  [image] holds, for each
    row pointer [image[y]], the bytes readable through it: the pixels of the
    row, four bytes each as the code addresses them, and whatever allocated
    memory follows them. *)
Record Imaging : Type := mkImaging {
  type : pixel_type;
  bands : Z;
  xsize : Z;
  ysize : Z;
  image : list (list Z)
}.

Definition set_image (im : Imaging) (rows : list (list Z)) : Imaging :=
  mkImaging (type im) (bands im) (xsize im) (ysize im) rows.

(** The [imIn] argument: the same object as [imOut], or another image. *)
Inductive input_image : Type :=
  | SameAsOut
  | Other (im : Imaging).

Definition the_input (imOut : Imaging) (imIn : input_image) : Imaging :=
  match imIn with
  | SameAsOut => imOut
  | Other im => im
  end.

(** What the function hands back: [NULL] with a Python error set, or the
    pointer [imOut]. *)
Inductive error : Type :=
  | ValueError   (* "table_channels could be 3 or 4" *)
  | ModeError.   (* ImagingError_ModeError() *)

Inductive retval : Type :=
  | RetNull (e : error)
  | RetImOut.

(** ** ImagingColorLUT3D_linear (ColorLUT.c, lines 72-211) *)

(** The [__m128i] locals of the three-channel block (lines 149-186), as they
    are when the block reaches its store.  [blend3] is [result] after its
    first assignment (line 178), [rounded] after the second (lines 180-182)
    and [result] after the third (line 184). *)
Record locals : Type := mkLocals {
  shift1D : m128i; shift2D : m128i; shift3D : m128i;
  leftleft : m128i; leftright : m128i;
  rightleft : m128i; rightright : m128i;
  left : m128i; right : m128i;
  blend3 : m128i; rounded : m128i; result : m128i
}.

Section Transform.

Variables (table_channels size1D size2D size3D : Z) (table : list Z).

(** Lines 87-96: the per-call constants. *)
Definition size1D_2D : Z := size1D * size2D.

Definition scale : m128i :=
  _mm_set_epi32 0 (scale_of size3D) (scale_of size2D) (scale_of size1D).
Definition scale_mask : m128i := _mm_set1_epi32 SCALE_MASK.
Definition index_mul : m128i := _mm_set_epi32 0 size1D_2D size1D 1.
Definition shuffle_source : m128i :=
  _mm_set_epi8 (-1) (-1) (-1) (-1) 11 10 5 4 9 8 3 2 7 6 1 0.
Definition left_mask : m128i := _mm_set1_epi32 0x0000ffff.
Definition right_mask : m128i := _mm_set1_epi32 0xffff0000.

(** Lines 122-123 and 129-130: the scaled coordinates of the pixel whose
    bytes start the loaded vector. *)
Definition scaled (pixels : m128i) : m128i :=
  _mm_mullo_epi32 scale (_mm_cvtepu8_epi32 pixels).

(** Lines 124-127 and 131-134: the offset of the base node in the table. *)
Definition table_offset (index : m128i) : Z :=
  table_channels *
  _mm_extract_epi32
    (_mm_hadd_epi32
       (_mm_hadd_epi32
          (_mm_madd_epi16 index_mul (_mm_srli_epi32 index SCALE_BITS))
          _mm_setzero_si128)
       _mm_setzero_si128) 0.

(** Lines 135-147: the weights.  Each 32-bit lane of [shift] holds the
    weight of the lower node in its low half and the weight of the upper
    node in its high half. *)
Definition weights (index : m128i) : m128i :=
  let shift := _mm_srli_epi32 (_mm_and_si128 scale_mask index)
                              (SCALE_BITS - SHIFT_BITS) in
  _mm_or_si128
    (_mm_sub_epi32 (_mm_set1_epi32 (Z.shiftl 1 SHIFT_BITS - 1)) shift)
    (_mm_slli_epi32 shift 16).

(** Lines 149-184: the block under [if (table_channels == 3)]. *)
Definition lut3 (idx : Z) (index : m128i) : option locals :=
  let shift := weights index in
  let shift1D := _mm_shuffle_epi32 shift 0x00 in
  let shift2D := _mm_shuffle_epi32 shift 0x55 in
  let shift3D := _mm_shuffle_epi32 shift 0xaa in
  v <- _mm_loadu_si128 table (idx + 0) ;;
  let source := _mm_shuffle_epi8 v shuffle_source in
  let leftleft := _mm_and_si128 (_mm_srai_epi32 (_mm_madd_epi16
                    source shift1D) SHIFT_BITS) left_mask in
  v <- _mm_loadu_si128 table (idx + size1D * 3) ;;
  let source := _mm_shuffle_epi8 v shuffle_source in
  let leftright := _mm_and_si128 (_mm_slli_epi32 (_mm_madd_epi16
                     source shift1D) (16 - SHIFT_BITS)) right_mask in
  v <- _mm_loadu_si128 table (idx + size1D_2D * 3) ;;
  let source := _mm_shuffle_epi8 v shuffle_source in
  let rightleft := _mm_and_si128 (_mm_srai_epi32 (_mm_madd_epi16
                     source shift1D) SHIFT_BITS) left_mask in
  v <- _mm_loadu_si128 table (idx + size1D_2D * 3 + size1D * 3) ;;
  let source := _mm_shuffle_epi8 v shuffle_source in
  let rightright := _mm_and_si128 (_mm_slli_epi32 (_mm_madd_epi16
                      source shift1D) (16 - SHIFT_BITS)) right_mask in
  let left := _mm_and_si128 (_mm_srai_epi32 (_mm_madd_epi16
                (_mm_or_si128 leftleft leftright) shift2D)
                SHIFT_BITS) left_mask in
  let right := _mm_and_si128 (_mm_slli_epi32 (_mm_madd_epi16
                 (_mm_or_si128 rightleft rightright) shift2D)
                 (16 - SHIFT_BITS)) right_mask in
  let blend3 := _mm_madd_epi16 (_mm_or_si128 left right) shift3D in
  let rounded := _mm_srai_epi32 (_mm_add_epi32
                   (_mm_set1_epi32 (Z.shiftl PRECISION_ROUNDING SHIFT_BITS))
                   blend3)
                   (PRECISION_BITS + SHIFT_BITS) in
  let result := _mm_packs_epi32 rounded rounded in
  Some (mkLocals shift1D shift2D shift3D leftleft leftright
          rightleft rightright left right blend3 rounded result).

(** Lines 129-205: one turn of the loop over [x].  [rowIn] is [None] when
    the input row is the output row itself.  [idx] and [index] come from
    outside the loop, and the body does not assign them: [next_index] and
    [next_idx] are computed and dropped.  The four-channel block
    (lines 188-205) is commented out in the source, so nothing is stored
    when [table_channels] is 4. *)
Definition pixel (rowIn : option (list Z)) (idx : Z) (index : m128i)
    (x : Z) (rowOut : list Z) : option (list Z) :=
  let rowIn := match rowIn with Some r => r | None => rowOut end in
  v <- load_si128 rowIn (x * 4 + 4) ;;
  let next_index := scaled v in
  let next_idx := table_offset next_index in
  if table_channels =? 3 then
    r <- lut3 idx index ;;
    store_u32 rowOut x
      (_mm_cvtsi128_si32 (_mm_packus_epi16 (result r) (result r)))
  else Some rowOut.

(** [for (x = x0; x < x0 + n; x++)], threading the output row. *)
Fixpoint for_x (rowIn : option (list Z)) (idx : Z) (index : m128i)
    (n : nat) (x : Z) (rowOut : list Z) : option (list Z) :=
  match n with
  | O => Some rowOut
  | S n' =>
      rowOut' <- pixel rowIn idx index x rowOut ;;
      for_x rowIn idx index n' (x + 1) rowOut'
  end.

(** Lines 120-206: the body of the loop over [y], for one row. *)
Definition row (rowIn : option (list Z)) (width : Z) (rowOut : list Z)
  : option (list Z) :=
  v <- load_si128 (match rowIn with Some r => r | None => rowOut end) 0 ;;
  let index := scaled v in
  let idx := table_offset index in
  for_x rowIn idx index (Z.to_nat width) 0 rowOut.

(** [imIn->image[y]], or [None] for the row of [imOut] itself. *)
Definition input_row (imIn : input_image) (y : nat) : option (option (list Z)) :=
  match imIn with
  | SameAsOut => Some None
  | Other im => r <- nth_error (image im) y ;; Some (Some r)
  end.

Definition set_row (rows : list (list Z)) (y : nat) (r : list Z) : list (list Z) :=
  firstn y rows ++ r :: skipn (S y) rows.

(** [for (y = y0; y < y0 + n; y++)], threading the rows of [imOut]. *)
Fixpoint for_y (imIn : input_image) (width : Z) (n : nat) (y : nat)
    (rows : list (list Z)) : option (list (list Z)) :=
  match n with
  | O => Some rows
  | S n' =>
      rowIn <- input_row imIn y ;;
      rowOut <- nth_error rows y ;;
      rowOut' <- row rowIn width rowOut ;;
      for_y imIn width n' (S y) (set_row rows y rowOut')
  end.

(** The function.  The result pairs what is returned with the output
    image as the call leaves it; [None] is a load or a store outside its
    buffer.  [ImagingSectionEnter] and [ImagingSectionLeave] (lines 118 and
    208) release and take back the interpreter lock; they do not touch the
    data and have no counterpart here. *)
Definition ImagingColorLUT3D_linear (imOut : Imaging) (imIn : input_image)
  : option (retval * Imaging) :=
  let im := the_input imOut imIn in
  if (table_channels <? 3) || (table_channels >? 4) then
    Some (RetNull ValueError, imOut)
  else if negb (pixel_type_eqb (type im) IMAGING_TYPE_UINT8)
       || negb (pixel_type_eqb (type imOut) IMAGING_TYPE_UINT8)
       || (bands im <? 3)
       || (bands imOut <? table_channels) then
    Some (RetNull ModeError, imOut)
  else if (bands imOut >? table_channels) && (bands imOut >? bands im) then
    Some (RetNull ModeError, imOut)
  else
    rows <- for_y imIn (xsize imOut) (Z.to_nat (ysize imOut)) 0 (image imOut) ;;
    Some (RetImOut, set_image imOut rows).

End Transform.

(** ** Reference formulas

    What the registers of the three-channel block hold, lane by lane, in
    plain integer arithmetic. *)

Definition int16 (a : Z) : Prop := - 2 ^ 15 <= a < 2 ^ 15.

(** The weight of the upper node along one axis (lines 135-136). *)
Definition frac (x : Z) : Z :=
  Z.shiftr (Z.land SCALE_MASK x) (SCALE_BITS - SHIFT_BITS).

(** The two-input blend that one multiply-add and shift computes: the lower
    node weighs [(1 << SHIFT_BITS) - 1 - f], the upper one [f]. *)
Definition lerp (a b f : Z) : Z :=
  Z.shiftr (a * (Z.shiftl 1 SHIFT_BITS - 1 - f) + b * f) SHIFT_BITS.

(** A weight lane and registers given lane by lane. *)
Definition wlane (f : Z) : Z := word_lane (2 ^ 15 - 1 - f) f.

Definition splat (x : Z) : m128i := mk128 x x x x.

Definition pairs (a b : nat -> Z) : m128i :=
  mk128 (word_lane (a 0%nat) (b 0%nat)) (word_lane (a 1%nat) (b 1%nat))
        (word_lane (a 2%nat) (b 2%nat)) (word_lane (a 3%nat) (b 3%nat)).

Definition lows (a : nat -> Z) : m128i :=
  mk128 (u16 (a 0%nat)) (u16 (a 1%nat)) (u16 (a 2%nat)) (u16 (a 3%nat)).

Definition highs (a : nat -> Z) : m128i :=
  mk128 (2 ^ 16 * u16 (a 0%nat)) (2 ^ 16 * u16 (a 1%nat))
        (2 ^ 16 * u16 (a 2%nat)) (2 ^ 16 * u16 (a 3%nat)).

Definition dwords (a : nat -> Z) : m128i :=
  mk128 (u32 (a 0%nat)) (u32 (a 1%nat)) (u32 (a 2%nat)) (u32 (a 3%nat)).

(** Colour channels live in lanes 0 to 2; lane 3 of a shuffled source is
    zero. *)
Definition chan3 (g : nat -> Z) (c : nat) : Z := if (c <? 3)%nat then g c else 0.

Section Reference.

Variables (table : list Z) (size1D size2D idx : Z) (index : m128i).

(** The INT16 element [table[o + c]] for a colour channel [c]; lane 3 of
    the shuffled source is zero. *)
Definition elem (o : Z) : nat -> Z :=
  chan3 (fun c => s16 (nthz table (Z.to_nat o + c))).

Definition f1 : Z := frac (e0 index).
Definition f2 : Z := frac (e1 index).
Definition f3 : Z := frac (e2 index).

Definition ref_leftleft (c : nat) : Z :=
  lerp (elem (idx + 0) c) (elem (idx + 0 + 3) c) f1.
Definition ref_leftright (c : nat) : Z :=
  lerp (elem (idx + size1D * 3) c) (elem (idx + size1D * 3 + 3) c) f1.
Definition ref_rightleft (c : nat) : Z :=
  lerp (elem (idx + size1D * size2D * 3) c)
       (elem (idx + size1D * size2D * 3 + 3) c) f1.
Definition ref_rightright (c : nat) : Z :=
  lerp (elem (idx + size1D * size2D * 3 + size1D * 3) c)
       (elem (idx + size1D * size2D * 3 + size1D * 3 + 3) c) f1.
Definition ref_left (c : nat) : Z := lerp (ref_leftleft c) (ref_leftright c) f2.
Definition ref_right (c : nat) : Z := lerp (ref_rightleft c) (ref_rightright c) f2.

(** The 32-bit sum of the last blend, before any shift. *)
Definition ref_blend3 (c : nat) : Z :=
  ref_left c * (2 ^ 15 - 1 - f3) + ref_right c * f3.

Definition ref_rounded (c : nat) : Z :=
  Z.shiftr (Z.shiftl PRECISION_ROUNDING SHIFT_BITS + ref_blend3 c)
           (PRECISION_BITS + SHIFT_BITS).

Definition ref_locals : locals :=
  mkLocals (splat (wlane f1)) (splat (wlane f2)) (splat (wlane f3))
    (lows ref_leftleft) (highs ref_leftright)
    (lows ref_rightleft) (highs ref_rightright)
    (lows ref_left) (highs ref_right)
    (dwords ref_blend3) (dwords ref_rounded)
    (pairs (fun c => ref_rounded (2 * (c mod 2))%nat)
           (fun c => ref_rounded (2 * (c mod 2) + 1)%nat)).

(** The four bytes that the block stores for the pixel. *)
Definition ref_pixel : list Z :=
  [ sat_u8 (ref_rounded 0%nat); sat_u8 (ref_rounded 1%nat);
    sat_u8 (ref_rounded 2%nat); sat_u8 (ref_rounded 3%nat) ].

End Reference.

(** ** Rows after the loop over [x] *)

(** The row in which the four bytes of pixel [x] are [px]. *)
Definition put (r : list Z) (x : Z) (px : list Z) : list Z :=
  firstn (Z.to_nat (4 * x)) r ++ px ++ skipn (Z.to_nat (4 * x) + 4) r.

(** The row in which the [n] pixels from [x] on are all [px]. *)
Fixpoint fill (px : list Z) (n : nat) (x : Z) (r : list Z) : list Z :=
  match n with
  | O => r
  | S n' => fill px n' (x + 1) (put r x px)
  end.

(** Byte [c] of the pixel at column [x] of a row, and of an image. *)
Definition row_byte (r : list Z) (x : Z) (c : nat) : Z :=
  nthz r (Z.to_nat (4 * x) + c).

Definition image_byte (im : Imaging) (x : Z) (y : nat) (c : nat) : Z :=
  row_byte (nth y (image im) []) x c.

(** ** Grid coordinates

    The fixed-point coordinate of a channel value [p] along an axis of
    [size] nodes, and the index of the cell it falls in. *)

Definition coord (size p : Z) : Z := scale_of size * p.
Definition cell (size p : Z) : Z := Z.shiftr (coord size p) SCALE_BITS.

Definition valid_size (size : Z) : Prop := 2 <= size <= 65.

Definition sizes_2_65 : list Z := map Z.of_nat (seq 2 64).

(** ** Rows and images after the call *)

(** The register loaded from [&rowIn[0]] and what lines 122-127 derive from
    it. *)
Definition row_index (size1D size2D size3D : Z) (rowIn : list Z) : m128i :=
  scaled size1D size2D size3D (of_bytes (firstn 16 rowIn)).

Definition row_idx (table_channels size1D size2D size3D : Z) (rowIn : list Z) : Z :=
  table_offset table_channels size1D size2D (row_index size1D size2D size3D rowIn).

(** The four bytes stored for every pixel of a row when [table_channels]
    is 3. *)
Definition row_pixel (size1D size2D size3D : Z) (table rowIn : list Z) : list Z :=
  ref_pixel table size1D size2D (row_idx 3 size1D size2D size3D rowIn)
            (row_index size1D size2D size3D rowIn).

(** The output row once the loop over [x] is done. *)
Definition row_after (table_channels size1D size2D size3D : Z) (table : list Z)
    (rowIn : list Z) (width : Z) (rowOut : list Z) : list Z :=
  if table_channels =? 3
  then fill (row_pixel size1D size2D size3D table rowIn) (Z.to_nat width) 0 rowOut
  else rowOut.

(** The bytes behind [imIn->image[y]], given the row [rowOut] of [imOut]. *)
Definition in_row (imIn : input_image) (y : nat) (rowOut : list Z) : list Z :=
  match imIn with
  | SameAsOut => rowOut
  | Other im => nth y (image im) []
  end.

(** Conditions under which no load or store leaves its buffer: the rows
    exist, an output row holds its [xsize] pixels, an input row can be read
    16 bytes past its pixels, and the table can be read two elements past
    its last node. *)
Definition rows_ok (slack width : Z) (height : nat) (rows : list (list Z)) : bool :=
  (height <=? length rows)%nat
  && forallb (fun r => 4 * Z.max 0 width + slack <=? Z.of_nat (length r))
             (firstn height rows).

Definition buffers_ok (imOut : Imaging) (imIn : input_image) : bool :=
  rows_ok 0 (xsize imOut) (Z.to_nat (ysize imOut)) (image imOut)
  && rows_ok 16 (xsize imOut) (Z.to_nat (ysize imOut))
             (image (the_input imOut imIn)).

Definition valid_sizeb (size : Z) : bool := (2 <=? size) && (size <=? 65).

Definition table_ok (table_channels size1D size2D size3D : Z) (table : list Z)
  : bool :=
  valid_sizeb size1D && valid_sizeb size2D && valid_sizeb size3D
  && (table_channels * size1D * size2D * size3D + 2 <=? Z.of_nat (length table)).

(** ** The error conditions, in the words of the specification *)

Definition invalid_argument (table_channels : Z) : Prop :=
  table_channels < 3 \/ 4 < table_channels.

Definition mode_mismatch (table_channels : Z) (imOut : Imaging)
    (imIn : input_image) : Prop :=
  let im := the_input imOut imIn in
  type im <> IMAGING_TYPE_UINT8 \/ type imOut <> IMAGING_TYPE_UINT8
  \/ bands im < 3 \/ bands imOut < table_channels
  \/ (bands imOut > table_channels /\ bands imOut > bands im).

(** A call that passes both checks. *)
Definition valid_call (table_channels : Z) (imOut : Imaging)
    (imIn : input_image) : bool :=
  let im := the_input imOut imIn in
  (3 <=? table_channels) && (table_channels <=? 4)
  && pixel_type_eqb (type im) IMAGING_TYPE_UINT8
  && pixel_type_eqb (type imOut) IMAGING_TYPE_UINT8
  && (3 <=? bands im) && (table_channels <=? bands imOut)
  && ((bands imOut <=? table_channels) || (bands imOut <=? bands im)).

(** ** The scalar formulas

    [table_at table i] is [table[i]] read through the [INT16 *]. *)

Definition table_at (table : list Z) (i : Z) : Z := s16 (nthz table (Z.to_nat i)).

Definition vec (n : nat) (table : list Z) (i : Z) : list Z :=
  map (fun c => table_at table (i + Z.of_nat c)) (seq 0 n).

(** [interpolate3] with the weights the vector code uses: the lower node
    weighs [(1 << SHIFT_BITS) - 1 - shift]. *)
Definition interpolate1_biased (a b shift : Z) : Z :=
  s16 (Z.shiftr (a * (Z.shiftl 1 SHIFT_BITS - 1 - shift) + b * shift) SHIFT_BITS).

Definition interpolate3_biased (a b : list Z) (shift : Z) : list Z :=
  [ interpolate1_biased (nthz a 0) (nthz b 0) shift;
    interpolate1_biased (nthz a 1) (nthz b 1) shift;
    interpolate1_biased (nthz a 2) (nthz b 2) shift ].

(** The nested two-input blends of the specification, along axis 0, then
    axis 1, then axis 2, followed by the rounding clip.  [interp] is the
    blend of two vectors of [n] channels; the layout is the one of the block
    that the source keeps commented out (lines 188-205). *)
Definition nested_lerp (n : nat) (interp : list Z -> list Z -> Z -> list Z)
    (table : list Z) (idx size1D size1D_2D : Z) (shift1D shift2D shift3D : Z)
  : list Z :=
  let k := Z.of_nat n in
  let leftleft := interp (vec n table (idx + 0)) (vec n table (idx + k)) shift1D in
  let leftright := interp (vec n table (idx + size1D * k))
                          (vec n table (idx + size1D * k + k)) shift1D in
  let left := interp leftleft leftright shift2D in
  let rightleft := interp (vec n table (idx + size1D_2D * k))
                          (vec n table (idx + size1D_2D * k + k)) shift1D in
  let rightright := interp (vec n table (idx + size1D_2D * k + size1D * k))
                           (vec n table (idx + size1D_2D * k + size1D * k + k))
                           shift1D in
  let right := interp rightleft rightright shift2D in
  let result := interp left right shift3D in
  map clip8 result.

(** The scalar reference of the specification for three channels, and the
    same with the weights of the vector code. *)
Definition scalar_lut3 := nested_lerp 3 interpolate3.
Definition scalar_lut3_biased := nested_lerp 3 interpolate3_biased.

(** The four-channel block of lines 188-205. *)
Definition scalar_lut4 := nested_lerp 4 interpolate4.

(** The bytes that the three-channel block stores for a pixel. *)
Definition lut3_bytes (size1D size2D : Z) (table : list Z) (idx : Z)
    (index : m128i) : option (list Z) :=
  r <- lut3 size1D size2D table idx index ;;
  Some (lane_bytes (u32 (_mm_cvtsi128_si32
                           (_mm_packus_epi16 (result r) (result r))))).

(** The pixel at column [x] of row [y]. *)
Definition image_pixel (im : Imaging) (x : Z) (y : nat) : list Z :=
  map (image_byte im x y) (seq 0 4).

(** ** Tables within the documented range *)

Definition in_range (z : Z) : Prop := 0 <= z <= Z.shiftl 255 PRECISION_BITS.

(** The first [n] elements of the table lie in [0, 255 << PRECISION_BITS]. *)
Definition stored_in_range (n : Z) (table : list Z) : bool :=
  forallb (fun t => (0 <=? t) && (t <=? Z.shiftl 255 PRECISION_BITS))
          (firstn (Z.to_nat n) table).

(** ** Concrete tables and images used in the examples *)

(** A 2x2x2 table of three channels whose 24 elements are all [v], followed
    by the two elements that the last 16-byte load of a pixel reaches
    beyond them. *)
Definition flat_table (v : Z) : list Z := repeat v 24 ++ [0; 0].

(** The 2x2x2 identity table: node [(i, j, k)] holds
    [(255 i, 255 j, 255 k)], scaled by [2^PRECISION_BITS]. *)
Definition identity_table : list Z :=
  flat_map (fun k => flat_map (fun j => flat_map (fun i =>
    [16320 * i; 16320 * j; 16320 * k]) [0; 1]) [0; 1]) [0; 1] ++ [0; 0].

(** A 2x2x2 table of four channels, all elements [255 << PRECISION_BITS]. *)
Definition white_table4 : list Z := repeat 16320 32 ++ [0; 0].

(** An 8-bit image of the given rows; each row pointer can be read 16 bytes
    past the pixels of its row. *)
Definition image_of (bands width : Z) (rows : list (list Z)) : Imaging :=
  mkImaging IMAGING_TYPE_UINT8 bands width (Z.of_nat (length rows))
            (map (fun r => r ++ repeat 0 16) rows).

(** The register loaded from a row that starts with the pixel (0, 0, 0). *)
Definition black : m128i := of_bytes [0; 0; 0; 0].

(** Images of one row, with 3 and with 4 bands. *)
Definition one_black_pixel : Imaging := image_of 3 1 [[0; 0; 0; 255]].
Definition out_1x1 : Imaging := image_of 3 1 [[9; 9; 9; 9]].
Definition rgba_in_1x1 : Imaging := image_of 4 1 [[10; 20; 30; 40]].
Definition rgba_out_1x1 : Imaging := image_of 4 1 [[1; 2; 3; 77]].

Definition black_then_white : Imaging :=
  image_of 3 2 [[0; 0; 0; 255; 255; 255; 255; 255]].
Definition white_then_white : Imaging :=
  image_of 3 2 [[255; 255; 255; 255; 255; 255; 255; 255]].
Definition out_2x1 : Imaging := image_of 3 2 [[9; 9; 9; 9; 9; 9; 9; 9]].

(** An image whose pixel type is not 8-bit-unsigned. *)
Definition int32_1x1 : Imaging :=
  mkImaging IMAGING_TYPE_INT32 1 1 1 [[0; 0; 0; 0]].

(** A 4x1 image whose row can be read 12 bytes past its four pixels, and an
    output image of the same size. *)
Definition four_pixels : list Z :=
  [1; 2; 3; 255; 4; 5; 6; 255; 7; 8; 9; 255; 10; 11; 12; 255].
Definition slack12_4x1 : Imaging :=
  mkImaging IMAGING_TYPE_UINT8 3 4 1 [four_pixels ++ repeat 0 12].
Definition out_4x1 : Imaging := image_of 3 4 [repeat 9 16].

(** ** Further notions used below *)

(** The node indices recovered from a flat node index. *)
Definition node_of_index (n size1D size2D : Z) : Z * Z * Z :=
  (n mod size1D, (n / size1D) mod size2D, n / (size1D * size2D)).

(** The first [n] elements of the table all equal [t]; all lie between
    [lo] and [hi]. *)
Definition constant_table (t n : Z) (table : list Z) : bool :=
  forallb (Z.eqb t) (firstn (Z.to_nat n) table).

Definition stored_between (lo hi n : Z) (table : list Z) : bool :=
  forallb (fun t => (lo <=? t) && (t <=? hi)) (firstn (Z.to_nat n) table).

(** An image without rows, a 3x1 image whose row holds just its three
    pixels, and a white pixel. *)
Definition no_rows : Imaging := mkImaging IMAGING_TYPE_UINT8 3 5 0 [].
Definition exact_3x1 : Imaging :=
  mkImaging IMAGING_TYPE_UINT8 3 3 1 [[1; 2; 3; 255; 4; 5; 6; 255; 7; 8; 9; 255]].
Definition white_1x1 : Imaging := image_of 3 1 [[255; 255; 255; 255]].

(** * Proofs *)

(** ** Machine integers and lanes *)

Lemma u16_range a : 0 <= u16 a < 2 ^ 16.
Proof. unfold u16. apply Z.mod_pos_bound. lia. Qed.

Lemma u32_small a : 0 <= a < 2 ^ 32 -> u32 a = a.
Proof. intros. unfold u32. apply Z.mod_small. lia. Qed.

Lemma s16_range a : - 2 ^ 15 <= s16 a < 2 ^ 15.
Proof.
unfold s16. cbv zeta. pose proof (Z.mod_pos_bound a (2 ^ 16) ltac:(lia)).
destruct (Z.ltb_spec (a mod 2 ^ 16) (2 ^ 15)); lia.
Qed.

Lemma s16_small a : - 2 ^ 15 <= a < 2 ^ 15 -> s16 a = a.
Proof.
intros. unfold s16. cbv zeta.
destruct (Z.ltb_spec (a mod 2 ^ 16) (2 ^ 15)); Z.div_mod_to_equations; lia.
Qed.

Lemma s16_u16 a : s16 (u16 a) = s16 a.
Proof. unfold s16, u16. rewrite Z.mod_mod by lia. reflexivity. Qed.

Lemma u16_s16 a : u16 (s16 a) = u16 a.
Proof.
unfold s16, u16. cbv zeta.
destruct (Z.ltb_spec (a mod 2 ^ 16) (2 ^ 15)).
- apply Z.mod_mod. lia.
- replace (a mod 2 ^ 16 - 2 ^ 16) with (a mod 2 ^ 16 + (-1) * 2 ^ 16) by lia.
  rewrite Z_mod_plus_full. apply Z.mod_mod. lia.
Qed.

Lemma s32_small a : - 2 ^ 31 <= a < 2 ^ 31 -> s32 (u32 a) = a.
Proof.
intros. unfold s32, u32. cbv zeta. rewrite Z.mod_mod by lia.
destruct (Z.ltb_spec (a mod 2 ^ 32) (2 ^ 31)); Z.div_mod_to_equations; lia.
Qed.

Lemma s16_word_lane_lo a b : s16 (word_lane a b) = s16 a.
Proof.
unfold word_lane. rewrite <- s16_u16. unfold u16 at 1.
rewrite Z.mul_comm, Z_mod_plus_full. fold (u16 (u16 a)).
rewrite !s16_u16. reflexivity.
Qed.

Lemma shiftr16_word_lane a b : Z.shiftr (word_lane a b) 16 = u16 b.
Proof.
unfold word_lane. rewrite Z.shiftr_div_pow2 by lia.
pose proof (u16_range a). pose proof (u16_range b).
Z.div_mod_to_equations. lia.
Qed.

Lemma s16_word_lane_hi a b : s16 (Z.shiftr (word_lane a b) 16) = s16 b.
Proof. rewrite shiftr16_word_lane. apply s16_u16. Qed.


Lemma frac_range x : 0 <= frac x < 2 ^ 15.
Proof.
  unfold frac. change SCALE_MASK with (Z.ones 18). rewrite Z.land_comm, Z.land_ones by lia.
  change (SCALE_BITS - SHIFT_BITS) with 3. rewrite Z.shiftr_div_pow2 by lia.
  Z.div_mod_to_equations. lia.
Qed.

Lemma madd_bound a b f :
  int16 a -> int16 b -> 0 <= f < 2 ^ 15 ->
  - 2 ^ 30 < a * (2 ^ 15 - 1 - f) + b * f < 2 ^ 30.
Proof. unfold int16. intros. nia. Qed.

Lemma lerp_eq a b f : lerp a b f = (a * (2 ^ 15 - 1 - f) + b * f) / 2 ^ 15.
Proof. unfold lerp. change SHIFT_BITS with 15. rewrite Z.shiftr_div_pow2 by lia. reflexivity. Qed.

Lemma lerp_int16 a b f :
  int16 a -> int16 b -> 0 <= f < 2 ^ 15 -> int16 (lerp a b f).
Proof.
  intros Ha Hb Hf. pose proof (madd_bound a b f Ha Hb Hf).
  rewrite lerp_eq. unfold int16. Z.div_mod_to_equations. lia.
Qed.

Lemma lerp_range lo hi a b f :
  lo <= a <= hi -> lo <= b <= hi -> 0 <= lo -> 0 <= f < 2 ^ 15 ->
  0 <= lerp a b f <= hi.
Proof.
  intros. rewrite lerp_eq.
  assert (0 <= a * (2 ^ 15 - 1 - f) + b * f <= hi * (2 ^ 15 - 1)) by nia.
  Z.div_mod_to_equations. nia.
Qed.

Lemma land_low y : Z.land y 0x0000ffff = u16 y.
Proof. change 0x0000ffff with (Z.ones 16). apply Z.land_ones. lia. Qed.

Lemma land_high y : 0 <= y < 2 ^ 32 -> Z.land y 0xffff0000 = 2 ^ 16 * (y / 2 ^ 16).
Proof.
  intros. rewrite <- Z.shiftr_div_pow2, Z.mul_comm, <- Z.shiftl_mul_pow2 by lia.
  rewrite <- Z.ldiff_ones_r by lia.
  assert (Hy : y = Z.land y (Z.ones 32))
    by (rewrite Z.land_ones by lia; symmetry; apply Z.mod_small; lia).
  rewrite Hy. change 0xffff0000 with (Z.ldiff (Z.ones 32) (Z.ones 16)).
  Z.bitblast.
Qed.

Lemma lor_halves a b : Z.lor (u16 a) (2 ^ 16 * u16 b) = word_lane a b.
Proof.
  unfold word_lane. rewrite <- Z.lxor_lor, <- Z.add_nocarry_lxor; trivial.
  all: unfold u16; rewrite <- !Z.land_ones, (Z.mul_comm (2 ^ 16)), <- Z.shiftl_mul_pow2 by lia; Z.bitblast.
Qed.

Lemma madd_lane a b f :
  0 <= f < 2 ^ 15 ->
  s16 (word_lane a b) * s16 (wlane f)
  + s16 (Z.shiftr (word_lane a b) 16) * s16 (Z.shiftr (wlane f) 16)
  = s16 a * (2 ^ 15 - 1 - f) + s16 b * f.
Proof.
  intros. unfold wlane.
  rewrite !s16_word_lane_lo, !s16_word_lane_hi.
  rewrite (s16_small (2 ^ 15 - 1 - f)), (s16_small f) by lia. reflexivity.
Qed.

Lemma stage_lo_lane a b f :
  0 <= f < 2 ^ 15 ->
  Z.land
    (u32 (Z.shiftr (s32 (u32 (s16 (word_lane a b) * s16 (wlane f)
       + s16 (Z.shiftr (word_lane a b) 16) * s16 (Z.shiftr (wlane f) 16))))
       SHIFT_BITS))
    (u32 0x0000ffff)
  = u16 (lerp (s16 a) (s16 b) f).
Proof.
  intros. rewrite madd_lane by assumption.
  pose proof (madd_bound (s16 a) (s16 b) f (s16_range a) (s16_range b) H).
  rewrite s32_small by lia.
  change (u32 0x0000ffff) with 0x0000ffff. rewrite land_low.
  unfold u32, u16. rewrite lerp_eq. change SHIFT_BITS with 15.
  rewrite Z.shiftr_div_pow2 by lia.
  Z.div_mod_to_equations. lia.
Qed.

Lemma stage_hi_lane a b f :
  0 <= f < 2 ^ 15 ->
  Z.land
    (u32 (Z.shiftl (u32 (s16 (word_lane a b) * s16 (wlane f)
       + s16 (Z.shiftr (word_lane a b) 16) * s16 (Z.shiftr (wlane f) 16)))
       (16 - SHIFT_BITS)))
    (u32 0xffff0000)
  = 2 ^ 16 * u16 (lerp (s16 a) (s16 b) f).
Proof.
  intros. rewrite madd_lane by assumption.
  set (M := s16 a * (2 ^ 15 - 1 - f) + s16 b * f).
  change (u32 0xffff0000) with 0xffff0000. change (16 - SHIFT_BITS) with 1.
  rewrite land_high by (unfold u32; apply Z.mod_pos_bound; lia).
  f_equal. rewrite lerp_eq. fold M.
  rewrite Z.shiftl_mul_pow2 by lia. unfold u32, u16.
  Z.div_mod_to_equations. lia.
Qed.

Lemma acc_lane a b f :
  0 <= f < 2 ^ 15 ->
  u32 (s16 (word_lane a b) * s16 (wlane f)
       + s16 (Z.shiftr (word_lane a b) 16) * s16 (Z.shiftr (wlane f) 16))
  = u32 (s16 a * (2 ^ 15 - 1 - f) + s16 b * f).
Proof. intros. rewrite madd_lane by assumption. reflexivity. Qed.

(** *** Register-level lemmas *)

Lemma weight_lane x :
  Z.lor (u32 (u32 (Z.shiftl 1 SHIFT_BITS - 1)
              - Z.shiftr (Z.land (u32 SCALE_MASK) x) (SCALE_BITS - SHIFT_BITS)))
        (u32 (Z.shiftl (Z.shiftr (Z.land (u32 SCALE_MASK) x)
                                 (SCALE_BITS - SHIFT_BITS)) 16))
  = wlane (frac x).
Proof.
  change (u32 SCALE_MASK) with SCALE_MASK. fold (frac x).
  pose proof (frac_range x) as Hf.
  change (u32 (Z.shiftl 1 SHIFT_BITS - 1)) with (2 ^ 15 - 1).
  rewrite Z.shiftl_mul_pow2 by lia.
  rewrite !u32_small by lia.
  unfold wlane. rewrite <- lor_halves. unfold u16.
  rewrite !Z.mod_small by lia. f_equal. lia.
Qed.

Lemma weights_spec index :
  weights index = mk128 (wlane (frac (e0 index))) (wlane (frac (e1 index)))
                        (wlane (frac (e2 index))) (wlane (frac (e3 index))).
Proof.
  unfold weights, _mm_or_si128, _mm_sub_epi32, _mm_slli_epi32, _mm_srli_epi32,
    _mm_and_si128, scale_mask, _mm_set1_epi32, _mm_set_epi32, lanemap2, lanemap.
  cbn [e0 e1 e2 e3]. rewrite !weight_lane. reflexivity.
Qed.

Lemma shuffle_epi32_00 a b c d : _mm_shuffle_epi32 (mk128 a b c d) 0x00 = splat a.
Proof. reflexivity. Qed.
Lemma shuffle_epi32_55 a b c d : _mm_shuffle_epi32 (mk128 a b c d) 0x55 = splat b.
Proof. reflexivity. Qed.
Lemma shuffle_epi32_aa a b c d : _mm_shuffle_epi32 (mk128 a b c d) 0xaa = splat c.
Proof. reflexivity. Qed.

(** One blend stage on whole registers. *)
Lemma stage_lo a b f :
  0 <= f < 2 ^ 15 ->
  _mm_and_si128 (_mm_srai_epi32 (_mm_madd_epi16 (pairs a b) (splat (wlane f)))
                                SHIFT_BITS) left_mask
  = lows (fun c => lerp (s16 (a c)) (s16 (b c)) f).
Proof.
  intros. unfold _mm_and_si128, _mm_srai_epi32, _mm_madd_epi16, left_mask,
    _mm_set1_epi32, _mm_set_epi32, lanemap2, lanemap, pairs, splat, lows.
  cbn [e0 e1 e2 e3]. rewrite !stage_lo_lane by assumption. reflexivity.
Qed.

Lemma stage_hi a b f :
  0 <= f < 2 ^ 15 ->
  _mm_and_si128 (_mm_slli_epi32 (_mm_madd_epi16 (pairs a b) (splat (wlane f)))
                                (16 - SHIFT_BITS)) right_mask
  = highs (fun c => lerp (s16 (a c)) (s16 (b c)) f).
Proof.
  intros. unfold _mm_and_si128, _mm_slli_epi32, _mm_madd_epi16, right_mask,
    _mm_set1_epi32, _mm_set_epi32, lanemap2, lanemap, pairs, splat, highs.
  cbn [e0 e1 e2 e3]. rewrite !stage_hi_lane by assumption. reflexivity.
Qed.

Lemma stage_acc a b f :
  0 <= f < 2 ^ 15 ->
  _mm_madd_epi16 (pairs a b) (splat (wlane f))
  = dwords (fun c => s16 (a c) * (2 ^ 15 - 1 - f) + s16 (b c) * f).
Proof.
  intros. unfold _mm_madd_epi16, lanemap2, pairs, splat, dwords.
  cbn [e0 e1 e2 e3]. rewrite !acc_lane by assumption. reflexivity.
Qed.

Lemma or_lows_highs a b : _mm_or_si128 (lows a) (highs b) = pairs a b.
Proof.
  unfold _mm_or_si128, lanemap2, lows, highs, pairs. cbn [e0 e1 e2 e3].
  rewrite !lor_halves. reflexivity.
Qed.

Lemma shuffle_source_bytes a :
  _mm_shuffle_epi8 a shuffle_source
  = of_bytes [ nthz (bytes a) 0; nthz (bytes a) 1; nthz (bytes a) 6; nthz (bytes a) 7;
               nthz (bytes a) 2; nthz (bytes a) 3; nthz (bytes a) 8; nthz (bytes a) 9;
               nthz (bytes a) 4; nthz (bytes a) 5; nthz (bytes a) 10; nthz (bytes a) 11;
               0; 0; 0; 0 ].
Proof. reflexivity. Qed.

Lemma u8_range a : 0 <= u8 a < 2 ^ 8.
Proof. unfold u8. apply Z.mod_pos_bound. lia. Qed.

Lemma byte_lane_words p q :
  byte_lane (u8 p) (u8 (Z.shiftr p 8)) (u8 q) (u8 (Z.shiftr q 8)) = word_lane p q.
Proof.
  unfold byte_lane, word_lane, u8, u16. rewrite !Z.shiftr_div_pow2 by lia.
  rewrite !Z.mod_mod by lia. Z.div_mod_to_equations. lia.
Qed.

Lemma lane_bytes_word_lane a b :
  lane_bytes (word_lane a b)
  = [u8 a; u8 (Z.shiftr a 8); u8 b; u8 (Z.shiftr b 8)].
Proof.
  unfold lane_bytes, word_lane, u8, u16. rewrite !Z.shiftr_div_pow2 by lia.
  f_equal; [| f_equal; [| f_equal; [| f_equal]]]; Z.div_mod_to_equations; lia.
Qed.

Lemma bytes_of_words ws :
  bytes (of_words ws)
  = flat_map (fun w => [u8 w; u8 (Z.shiftr w 8)])
      [nthz ws 0; nthz ws 1; nthz ws 2; nthz ws 3;
       nthz ws 4; nthz ws 5; nthz ws 6; nthz ws 7].
Proof.
  unfold bytes, of_words, lanes. cbn [flat_map e0 e1 e2 e3 app].
  rewrite !lane_bytes_word_lane. reflexivity.
Qed.

Lemma shuffle_source_words ws :
  _mm_shuffle_epi8 (of_words ws) shuffle_source
  = pairs (chan3 (nthz ws)) (chan3 (fun c => nthz ws (3 + c))).
Proof.
  rewrite shuffle_source_bytes, bytes_of_words.
  cbn [flat_map app]. unfold of_bytes.
  repeat match goal with
         | |- context [nthz (?x :: ?l) ?k] =>
             let r := eval cbv [nthz nth] in (nthz (x :: l) k) in
             change (nthz (x :: l) k) with r
         end.
  rewrite !byte_lane_words. reflexivity.
Qed.

Lemma lows_ext g h :
  (forall c, (c < 4)%nat -> g c = h c) -> lows g = lows h.
Proof. intros E. unfold lows. rewrite !E by lia. reflexivity. Qed.

Lemma highs_ext g h :
  (forall c, (c < 4)%nat -> g c = h c) -> highs g = highs h.
Proof. intros E. unfold highs. rewrite !E by lia. reflexivity. Qed.

Lemma dwords_ext g h :
  (forall c, (c < 4)%nat -> g c = h c) -> dwords g = dwords h.
Proof. intros E. unfold dwords. rewrite !E by lia. reflexivity. Qed.

Lemma pairs_ext g g' h h' :
  (forall c, (c < 4)%nat -> g c = g' c) ->
  (forall c, (c < 4)%nat -> h c = h' c) -> pairs g h = pairs g' h'.
Proof. intros E E'. unfold pairs. rewrite !E, !E' by lia. reflexivity. Qed.

(** *** Slices *)

Lemma slice_some buf off n :
  0 <= off -> off + Z.of_nat n <= Z.of_nat (length buf) ->
  slice buf off n = Some (firstn n (skipn (Z.to_nat off) buf)).
Proof.
  intros. unfold slice.
  destruct (Z.leb_spec 0 off); [|lia].
  destruct (Z.leb_spec (off + Z.of_nat n) (Z.of_nat (length buf))); [|lia].
  reflexivity.
Qed.

Lemma slice_none buf off n :
  Z.of_nat (length buf) < off + Z.of_nat n -> slice buf off n = None.
Proof.
  intros. unfold slice.
  destruct (Z.leb_spec (off + Z.of_nat n) (Z.of_nat (length buf))); [lia|].
  rewrite andb_false_r. reflexivity.
Qed.

Lemma nthz_slice buf o n k :
  (k < n)%nat -> nthz (firstn n (skipn o buf)) k = nthz buf (o + k).
Proof.
  intros. unfold nthz. rewrite nth_firstn.
  destruct (Nat.ltb_spec k n); [|lia]. apply nth_skipn.
Qed.


(** A table load followed by the shuffle: the two nodes of an axis-0 pair,
    channel by channel. *)
Lemma load_source table i :
  0 <= i -> i + 8 <= Z.of_nat (length table) ->
  exists v, _mm_loadu_si128 table i = Some v /\
    _mm_shuffle_epi8 v shuffle_source
    = pairs (chan3 (fun c => nthz table (Z.to_nat i + c)))
            (chan3 (fun c => nthz table (Z.to_nat (i + 3) + c))).
Proof.
  intros. unfold _mm_loadu_si128. rewrite slice_some by lia. cbn [bind].
  eexists. split; [reflexivity|].
  rewrite shuffle_source_words.
  apply pairs_ext; intros c Hc; unfold chan3;
    destruct (Nat.ltb_spec c 3); trivial; rewrite nthz_slice by lia; f_equal; lia.
Qed.

Lemma s16_chan3 g c : s16 (chan3 g c) = chan3 (fun c => s16 (g c)) c.
Proof. unfold chan3. destruct (c <? 3)%nat; reflexivity. Qed.

(** *** Ranges of the reference values *)

Section ReferenceRanges.

Variables (table : list Z) (size1D size2D idx : Z) (index : m128i).

Lemma elem_int16 o c : int16 (elem table o c).
Proof.
  unfold elem, chan3. destruct (c <? 3)%nat; [apply s16_range|].
  unfold int16. lia.
Qed.

Lemma f1_range : 0 <= f1 index < 2 ^ 15. Proof. apply frac_range. Qed.
Lemma f2_range : 0 <= f2 index < 2 ^ 15. Proof. apply frac_range. Qed.
Lemma f3_range : 0 <= f3 index < 2 ^ 15. Proof. apply frac_range. Qed.

Lemma ref_leftleft_int16 c : int16 (ref_leftleft table idx index c).
Proof. apply lerp_int16; auto using elem_int16, f1_range. Qed.
Lemma ref_leftright_int16 c : int16 (ref_leftright table size1D idx index c).
Proof. apply lerp_int16; auto using elem_int16, f1_range. Qed.
Lemma ref_rightleft_int16 c : int16 (ref_rightleft table size1D size2D idx index c).
Proof. apply lerp_int16; auto using elem_int16, f1_range. Qed.
Lemma ref_rightright_int16 c : int16 (ref_rightright table size1D size2D idx index c).
Proof. apply lerp_int16; auto using elem_int16, f1_range. Qed.
Lemma ref_left_int16 c : int16 (ref_left table size1D idx index c).
Proof.
  apply lerp_int16; auto using ref_leftleft_int16, ref_leftright_int16, f2_range.
Qed.
Lemma ref_right_int16 c : int16 (ref_right table size1D size2D idx index c).
Proof.
  apply lerp_int16; auto using ref_rightleft_int16, ref_rightright_int16, f2_range.
Qed.

Lemma ref_blend3_range c :
  - 2 ^ 30 < ref_blend3 table size1D size2D idx index c < 2 ^ 30.
Proof.
  apply madd_bound; auto using ref_left_int16, ref_right_int16, f3_range.
Qed.

Lemma ref_rounded_range c :
  - 2 ^ 9 <= ref_rounded table size1D size2D idx index c <= 2 ^ 9.
Proof.
  unfold ref_rounded. pose proof (ref_blend3_range c).
  change (Z.shiftl PRECISION_ROUNDING SHIFT_BITS) with (2 ^ 20).
  change (PRECISION_BITS + SHIFT_BITS) with 21.
  rewrite Z.shiftr_div_pow2 by lia. Z.div_mod_to_equations. lia.
Qed.

End ReferenceRanges.

(** *** Rounding and packing *)

Lemma round_lane A :
  - 2 ^ 30 < A < 2 ^ 30 ->
  u32 (Z.shiftr (s32 (u32 (u32 (Z.shiftl PRECISION_ROUNDING SHIFT_BITS) + u32 A)))
                (PRECISION_BITS + SHIFT_BITS))
  = u32 (Z.shiftr (Z.shiftl PRECISION_ROUNDING SHIFT_BITS + A)
                  (PRECISION_BITS + SHIFT_BITS)).
Proof.
  intros. change (Z.shiftl PRECISION_ROUNDING SHIFT_BITS) with (2 ^ 20).
  change (u32 (2 ^ 20)) with (2 ^ 20).
  replace (u32 (2 ^ 20 + u32 A)) with (u32 (2 ^ 20 + A)).
  - rewrite s32_small by lia. reflexivity.
  - unfold u32. rewrite Zplus_mod_idemp_r. reflexivity.
Qed.

Lemma round_stage acc :
  (forall c, - 2 ^ 30 < acc c < 2 ^ 30) ->
  _mm_srai_epi32
    (_mm_add_epi32 (_mm_set1_epi32 (Z.shiftl PRECISION_ROUNDING SHIFT_BITS))
                   (dwords acc))
    (PRECISION_BITS + SHIFT_BITS)
  = dwords (fun c => Z.shiftr (Z.shiftl PRECISION_ROUNDING SHIFT_BITS + acc c)
                              (PRECISION_BITS + SHIFT_BITS)).
Proof.
  intros. unfold _mm_srai_epi32, _mm_add_epi32, _mm_set1_epi32, _mm_set_epi32,
    lanemap, lanemap2, dwords.
  cbn [e0 e1 e2 e3]. rewrite !round_lane by auto. reflexivity.
Qed.

Lemma sat_s16_small r : int16 r -> sat_s16 (s32 (u32 r)) = r.
Proof. unfold int16. intros. rewrite s32_small by lia. unfold sat_s16. lia. Qed.

Lemma word_lane_ext a a' b b' :
  u16 a = u16 a' -> u16 b = u16 b' -> word_lane a b = word_lane a' b'.
Proof. unfold word_lane. intros -> ->. reflexivity. Qed.

Lemma packs_stage r :
  (forall c, int16 (r c)) ->
  _mm_packs_epi32 (dwords r) (dwords r)
  = pairs (fun c => r (2 * (c mod 2))%nat) (fun c => r (2 * (c mod 2) + 1)%nat).
Proof.
  intros. unfold _mm_packs_epi32, dwords, lanes, of_words, pairs.
  cbn [e0 e1 e2 e3 app map]. unfold nthz. cbn [nth].
  rewrite !sat_s16_small by auto. reflexivity.
Qed.

Lemma sat_u8_range z : 0 <= sat_u8 z <= 255.
Proof. unfold sat_u8. lia. Qed.

Lemma u8_small b : 0 <= b <= 255 -> u8 b = b.
Proof. intros. unfold u8. apply Z.mod_small. lia. Qed.

Lemma lane_bytes_byte_lane b0 b1 b2 b3 :
  lane_bytes (byte_lane b0 b1 b2 b3) = [u8 b0; u8 b1; u8 b2; u8 b3].
Proof.
  unfold lane_bytes, byte_lane. rewrite !Z.shiftr_div_pow2 by lia.
  pose proof (u8_range b0). pose proof (u8_range b1).
  pose proof (u8_range b2). pose proof (u8_range b3).
  f_equal; [| f_equal; [| f_equal; [| f_equal]]];
    unfold u8 at 1; Z.div_mod_to_equations; lia.
Qed.

Lemma byte_lane_range b0 b1 b2 b3 : 0 <= byte_lane b0 b1 b2 b3 < 2 ^ 32.
Proof.
  unfold byte_lane.
  pose proof (u8_range b0). pose proof (u8_range b1).
  pose proof (u8_range b2). pose proof (u8_range b3). lia.
Qed.

Lemma u32_s32 x : u32 (s32 x) = u32 x.
Proof.
  unfold s32, u32. cbv zeta.
  destruct (Z.ltb_spec (x mod 2 ^ 32) (2 ^ 31)).
  - apply Z.mod_mod. lia.
  - replace (x mod 2 ^ 32 - 2 ^ 32) with (x mod 2 ^ 32 + (-1) * 2 ^ 32) by lia.
    rewrite Z_mod_plus_full. apply Z.mod_mod. lia.
Qed.

(** The bytes that [rowOut[x] = _mm_cvtsi128_si32(_mm_packus_epi16(r, r))]
    stores. *)
Lemma packus_store a b :
  lane_bytes (u32 (_mm_cvtsi128_si32 (_mm_packus_epi16 (pairs a b) (pairs a b))))
  = [ sat_u8 (s16 (a 0%nat)); sat_u8 (s16 (b 0%nat));
      sat_u8 (s16 (a 1%nat)); sat_u8 (s16 (b 1%nat)) ].
Proof.
  unfold _mm_cvtsi128_si32, _mm_packus_epi16, words, pairs, lanes, of_bytes.
  cbn [e0 e1 e2 e3 flat_map app lane_words map]. unfold nthz. cbn [nth].
  rewrite u32_s32, u32_small by apply byte_lane_range.
  rewrite lane_bytes_byte_lane.
  rewrite !shiftr16_word_lane, !s16_u16, !s16_word_lane_lo.
  rewrite !u8_small by apply sat_u8_range. reflexivity.
Qed.

(** *** The three-channel block *)

Lemma stage_lo16 a b f :
  (forall c, int16 (a c)) -> (forall c, int16 (b c)) -> 0 <= f < 2 ^ 15 ->
  _mm_and_si128 (_mm_srai_epi32 (_mm_madd_epi16 (pairs a b) (splat (wlane f)))
                                SHIFT_BITS) left_mask
  = lows (fun c => lerp (a c) (b c) f).
Proof.
  intros Ha Hb Hf. rewrite stage_lo by assumption.
  apply lows_ext. intros c _. rewrite !s16_small by (apply Ha || apply Hb).
  reflexivity.
Qed.

Lemma stage_hi16 a b f :
  (forall c, int16 (a c)) -> (forall c, int16 (b c)) -> 0 <= f < 2 ^ 15 ->
  _mm_and_si128 (_mm_slli_epi32 (_mm_madd_epi16 (pairs a b) (splat (wlane f)))
                                (16 - SHIFT_BITS)) right_mask
  = highs (fun c => lerp (a c) (b c) f).
Proof.
  intros Ha Hb Hf. rewrite stage_hi by assumption.
  apply highs_ext. intros c _. rewrite !s16_small by (apply Ha || apply Hb).
  reflexivity.
Qed.

Lemma stage_acc16 a b f :
  (forall c, int16 (a c)) -> (forall c, int16 (b c)) -> 0 <= f < 2 ^ 15 ->
  _mm_madd_epi16 (pairs a b) (splat (wlane f))
  = dwords (fun c => a c * (2 ^ 15 - 1 - f) + b c * f).
Proof.
  intros Ha Hb Hf. rewrite stage_acc by assumption.
  apply dwords_ext. intros c _. rewrite !s16_small by (apply Ha || apply Hb).
  reflexivity.
Qed.

(** A table load followed by the shuffle, in terms of the INT16 elements. *)
Lemma load_elems table i :
  0 <= i -> i + 8 <= Z.of_nat (length table) ->
  exists v, _mm_loadu_si128 table i = Some v /\
    _mm_shuffle_epi8 v shuffle_source = pairs (elem table i) (elem table (i + 3)).
Proof.
  intros Hi Hlen. destruct (load_source table i Hi Hlen) as (v & Ev & Sv).
  exists v. split; [exact Ev|]. rewrite Sv. unfold pairs.
  f_equal; apply word_lane_ext; unfold elem; rewrite <- s16_chan3; apply eq_sym, u16_s16.
Qed.

Ltac int16_side :=
  intros;
  repeat first [ apply lerp_int16 | apply elem_int16 | apply frac_range ].

Local Opaque _mm_and_si128 _mm_or_si128 _mm_srai_epi32 _mm_slli_epi32 _mm_madd_epi16 _mm_add_epi32 _mm_packs_epi32 _mm_set1_epi32 pairs splat wlane left_mask right_mask lows highs dwords lerp frac elem.

Lemma lut3_spec table size1D size2D idx index :
  0 <= idx -> 0 <= size1D -> 0 <= size2D ->
  idx + size1D * size2D * 3 + size1D * 3 + 8 <= Z.of_nat (length table) ->
  lut3 size1D size2D table idx index
  = Some (ref_locals table size1D size2D idx index).
Proof.
  intros Hidx H1 H2 Hlen. unfold lut3, size1D_2D.
  assert (0 <= size1D * size2D) by nia.
  destruct (load_elems table (idx + 0)) as (v0 & E0 & S0); [lia | nia |].
  destruct (load_elems table (idx + size1D * 3)) as (v1 & E1 & S1); [lia | nia |].
  destruct (load_elems table (idx + size1D * size2D * 3)) as (v2 & E2 & S2);
    [lia | nia |].
  destruct (load_elems table (idx + size1D * size2D * 3 + size1D * 3))
    as (v3 & E3 & S3); [lia | nia |].
  rewrite E0, E1, E2, E3. cbn [bind]. rewrite S0, S1, S2, S3.
  rewrite weights_spec, shuffle_epi32_00, shuffle_epi32_55, shuffle_epi32_aa.
  rewrite !stage_lo16, !stage_hi16 by int16_side.
  rewrite !or_lows_highs.
  rewrite !stage_lo16, !stage_hi16 by int16_side.
  rewrite !or_lows_highs.
  rewrite stage_acc16 by int16_side.
  change (dwords _) with (dwords (ref_blend3 table size1D size2D idx index)).
  rewrite round_stage by (intros; apply ref_blend3_range).
  change (dwords (fun c => _)) with (dwords (ref_rounded table size1D size2D idx index)).
  rewrite packs_stage
    by (intros c; pose proof (ref_rounded_range table size1D size2D idx index c);
        unfold int16; lia).
  reflexivity.
Qed.

Local Transparent _mm_and_si128 _mm_or_si128 _mm_srai_epi32 _mm_slli_epi32 _mm_madd_epi16 _mm_add_epi32 _mm_packs_epi32 _mm_set1_epi32 pairs splat wlane left_mask right_mask lows highs dwords lerp frac elem.

(** *** Rows *)

Lemma put_length r x px :
  0 <= x -> 4 * x + 4 <= Z.of_nat (length r) -> length px = 4%nat ->
  length (put r x px) = length r.
Proof.
  intros. unfold put. rewrite !length_app, length_firstn, length_skipn. lia.
Qed.

Lemma row_byte_put_same r x px c :
  0 <= x -> 4 * x + 4 <= Z.of_nat (length r) ->
  row_byte (put r x px) x c = nthz (px ++ skipn (Z.to_nat (4 * x) + 4) r) c.
Proof.
  intros. unfold row_byte, put, nthz.
  rewrite app_nth2; rewrite length_firstn; [|lia].
  f_equal. lia.
Qed.

Lemma row_byte_put_other r x px x' c :
  0 <= x -> 4 * x + 4 <= Z.of_nat (length r) -> length px = 4%nat ->
  0 <= x' -> x' <> x -> (c < 4)%nat ->
  row_byte (put r x px) x' c = row_byte r x' c.
Proof.
  intros. unfold row_byte, put, nthz.
  destruct (Z.ltb_spec x' x).
  - rewrite app_nth1 by (rewrite length_firstn; lia).
    rewrite nth_firstn. destruct (Nat.ltb_spec (Z.to_nat (4 * x') + c) (Z.to_nat (4 * x))); [reflexivity|lia].
  - rewrite app_nth2 by (rewrite length_firstn; lia).
    rewrite app_nth2 by (rewrite length_firstn; lia).
    rewrite nth_skipn, length_firstn. f_equal. lia.
Qed.

Lemma row_byte_fill_out px n : forall x r x' c,
  0 <= x -> 4 * (x + Z.of_nat n) <= Z.of_nat (length r) -> length px = 4%nat ->
  0 <= x' -> (x' < x \/ x + Z.of_nat n <= x') -> (c < 4)%nat ->
  row_byte (fill px n x r) x' c = row_byte r x' c.
Proof.
  induction n as [|n IH]; intros x r x' c Hx Hlen Hpx Hx' Hout Hc; [reflexivity|].
  cbn [fill]. rewrite IH; rewrite ?put_length; try lia.
  apply row_byte_put_other; lia.
Qed.

Lemma row_byte_fill_in px n : forall x r x' c,
  0 <= x -> 4 * (x + Z.of_nat n) <= Z.of_nat (length r) -> length px = 4%nat ->
  x <= x' < x + Z.of_nat n -> (c < 4)%nat ->
  row_byte (fill px n x r) x' c = nthz px c.
Proof.
  induction n as [|n IH]; intros x r x' c Hx Hlen Hpx Hx' Hc; [lia|].
  cbn [fill]. destruct (Z.eq_dec x' x) as [->|Hne].
  - rewrite row_byte_fill_out; rewrite ?put_length; try lia.
    rewrite row_byte_put_same by lia. unfold nthz. apply app_nth1. lia.
  - apply IH; rewrite ?put_length; lia.
Qed.

Lemma store_u32_put buf x v :
  0 <= x -> 4 * x + 4 <= Z.of_nat (length buf) ->
  store_u32 buf x v = Some (put buf x (lane_bytes (u32 v))).
Proof.
  intros. unfold store_u32. rewrite slice_some by lia. reflexivity.
Qed.

Lemma load_si128_some buf off :
  0 <= off -> off + 16 <= Z.of_nat (length buf) ->
  exists v, load_si128 buf off = Some v
            /\ v = of_bytes (firstn 16 (skipn (Z.to_nat off) buf)).
Proof.
  intros. unfold load_si128. rewrite slice_some by lia. cbn [bind]. eauto.
Qed.

Lemma load_si128_none buf off :
  Z.of_nat (length buf) < off + 16 -> load_si128 buf off = None.
Proof. intros. unfold load_si128. rewrite slice_none by lia. reflexivity. Qed.

(** *** One pixel, one row *)

Lemma lerp_0_0 f : lerp 0 0 f = 0.
Proof. unfold lerp. rewrite !Z.mul_0_l. reflexivity. Qed.

Lemma ref_rounded_3 table size1D size2D idx index :
  ref_rounded table size1D size2D idx index 3 = 0.
Proof.
  unfold ref_rounded, ref_blend3, ref_left, ref_right, ref_leftleft, ref_leftright,
    ref_rightleft, ref_rightright, elem, chan3.
  cbn [Nat.ltb Nat.leb]. rewrite !lerp_0_0. reflexivity.
Qed.

Lemma stored_pixel table size1D size2D idx index :
  lane_bytes (u32 (_mm_cvtsi128_si32
    (_mm_packus_epi16 (result (ref_locals table size1D size2D idx index))
                      (result (ref_locals table size1D size2D idx index)))))
  = ref_pixel table size1D size2D idx index.
Proof.
  unfold ref_locals. cbn [result]. rewrite packus_store. unfold ref_pixel.
  cbn [Nat.modulo Nat.divmod Nat.mul Nat.add snd Nat.sub fst].
  rewrite !s16_small; trivial.
  all: match goal with
       | |- context [ref_rounded ?t ?a ?b ?i ?x ?c] =>
           pose proof (ref_rounded_range t a b i x c); lia
       end.
Qed.

Section RowSpec.

Variables (table_channels size1D size2D size3D : Z) (table : list Z).
Variables (rowIn : option (list Z)) (idx : Z) (index : m128i).

Hypothesis table_ok :
  0 <= idx /\ 0 <= size1D /\ 0 <= size2D /\
  idx + size1D * size2D * 3 + size1D * 3 + 8 <= Z.of_nat (length table).

Lemma pixel_spec3 x rowOut :
  table_channels = 3 ->
  0 <= x -> 4 * x + 4 <= Z.of_nat (length rowOut) ->
  4 * x + 20 <= Z.of_nat (length (match rowIn with Some r => r | None => rowOut end)) ->
  pixel table_channels size1D size2D size3D table rowIn idx index x rowOut
  = Some (put rowOut x (ref_pixel table size1D size2D idx index)).
Proof.
  intros -> Hx Hout Hin. unfold pixel.
  destruct (load_si128_some (match rowIn with Some r => r | None => rowOut end) (x * 4 + 4)) as (v & -> & _); [lia|lia|].
  cbn [bind]. change (3 =? 3) with true. cbv iota.
  rewrite lut3_spec by tauto. cbn [bind].
  rewrite store_u32_put by lia. rewrite stored_pixel. reflexivity.
Qed.

Lemma pixel_spec4 x rowOut :
  table_channels <> 3 ->
  0 <= x -> 4 * x + 20 <= Z.of_nat (length (match rowIn with Some r => r | None => rowOut end)) ->
  pixel table_channels size1D size2D size3D table rowIn idx index x rowOut
  = Some rowOut.
Proof.
  intros Htc Hx Hin. unfold pixel.
  destruct (load_si128_some (match rowIn with Some r => r | None => rowOut end) (x * 4 + 4)) as (v & -> & _); [lia|lia|].
  cbn [bind]. destruct (Z.eqb_spec table_channels 3); [contradiction|reflexivity].
Qed.

Lemma input_length r r' :
  length r' = length r ->
  length (match rowIn with Some i => i | None => r' end)
  = length (match rowIn with Some i => i | None => r end).
Proof. destruct rowIn; auto. Qed.

Lemma for_x_spec3 n : forall x rowOut,
  table_channels = 3 ->
  0 <= x -> 4 * (x + Z.of_nat n) <= Z.of_nat (length rowOut) ->
  4 * (x + Z.of_nat n) + 16 <= Z.of_nat (length (match rowIn with Some r => r | None => rowOut end)) ->
  for_x table_channels size1D size2D size3D table rowIn idx index n x rowOut
  = Some (fill (ref_pixel table size1D size2D idx index) n x rowOut).
Proof.
  induction n as [|n IH]; intros x rowOut Htc Hx Hout Hin; [reflexivity|].
  cbn [for_x fill]. rewrite pixel_spec3 by lia. cbn [bind].
  assert (L : length (put rowOut x (ref_pixel table size1D size2D idx index)) = length rowOut)
    by (apply put_length; [lia | lia | reflexivity]).
  apply IH; rewrite ?L, ?(input_length rowOut) by exact L; lia.
Qed.

Lemma for_x_spec4 n : forall x rowOut,
  table_channels <> 3 ->
  0 <= x -> 4 * (x + Z.of_nat n) + 16 <= Z.of_nat (length (match rowIn with Some r => r | None => rowOut end)) ->
  for_x table_channels size1D size2D size3D table rowIn idx index n x rowOut
  = Some rowOut.
Proof.
  induction n as [|n IH]; intros x rowOut Htc Hx Hin; [reflexivity|].
  cbn [for_x]. rewrite pixel_spec4 by lia. cbn [bind]. apply IH; lia.
Qed.

End RowSpec.

(** *** The scale and the index *)

Lemma valid_size_In size : valid_size size -> In size sizes_2_65.
Proof.
  unfold valid_size, sizes_2_65. intros H.
  replace size with (Z.of_nat (Z.to_nat size)) by lia.
  apply in_map, in_seq. lia.
Qed.

Lemma scale_of_table :
  forallb (fun s => (scale_of s =? (s - 1) * 2 ^ 18 / 255)
                    && (0 <? scale_of s)
                    && (255 * scale_of s <? (s - 1) * 2 ^ 18)) sizes_2_65 = true.
Proof. vm_compute. reflexivity. Qed.

Lemma scale_of_closed size :
  valid_size size ->
  scale_of size = (size - 1) * 2 ^ 18 / 255
  /\ 0 < scale_of size /\ 255 * scale_of size < (size - 1) * 2 ^ 18.
Proof.
  intros H. pose proof scale_of_table as T.
  rewrite forallb_forall in T. specialize (T size (valid_size_In size H)).
  apply andb_prop in T. destruct T as [T T3]. apply andb_prop in T.
  destruct T as [T1 T2]. lia.
Qed.

Lemma coord_range size p :
  valid_size size -> 0 <= p <= 255 ->
  0 <= coord size p < (size - 1) * 2 ^ 18.
Proof.
  intros Hs Hp. destruct (scale_of_closed size Hs) as (_ & H0 & H1).
  unfold coord. nia.
Qed.

Lemma cell_range size p :
  valid_size size -> 0 <= p <= 255 -> 0 <= cell size p <= size - 2.
Proof.
  intros Hs Hp. pose proof (coord_range size p Hs Hp). unfold cell.
  change SCALE_BITS with 18. rewrite Z.shiftr_div_pow2 by lia.
  Z.div_mod_to_equations. nia.
Qed.

Lemma u8_le a : 0 <= u8 a <= 255.
Proof. pose proof (u8_range a). lia. Qed.

Lemma scaled_lane size p :
  valid_size size -> 0 <= p <= 255 -> u32 (u32 (scale_of size) * p) = coord size p.
Proof.
  intros Hs Hp. pose proof (coord_range size p Hs Hp).
  destruct (scale_of_closed size Hs) as (_ & H0 & H1).
  unfold valid_size in Hs. rewrite (u32_small (scale_of size)) by lia.
  apply u32_small. fold (coord size p). lia.
Qed.

Lemma scaled_lanes size1D size2D size3D v :
  valid_size size1D -> valid_size size2D -> valid_size size3D ->
  scaled size1D size2D size3D v
  = mk128 (coord size1D (u8 (e0 v))) (coord size2D (u8 (Z.shiftr (e0 v) 8)))
          (coord size3D (u8 (Z.shiftr (e0 v) 16))) 0.
Proof.
  intros H1 H2 H3. unfold scaled, scale, _mm_mullo_epi32, _mm_cvtepu8_epi32,
    _mm_set_epi32, lanemap2, bytes, lanes.
  cbn [flat_map lane_bytes app]. unfold nthz. cbn [nth e0 e1 e2 e3].
  rewrite !scaled_lane by (assumption || apply u8_le). reflexivity.
Qed.

Lemma madd_small a b :
  0 <= a < 2 ^ 15 -> 0 <= b < 2 ^ 15 ->
  s16 a * s16 b + s16 (Z.shiftr a 16) * s16 (Z.shiftr b 16) = a * b.
Proof.
  intros Ha Hb. rewrite (s16_small a), (s16_small b) by lia.
  rewrite (Z.shiftr_div_pow2 a), Z.div_small by lia. change (s16 0) with 0. lia.
Qed.

Lemma table_offset_spec table_channels size1D size2D c1 c2 c3 :
  valid_size size1D -> valid_size size2D ->
  0 <= Z.shiftr c1 SCALE_BITS < 64 -> 0 <= Z.shiftr c2 SCALE_BITS < 64 ->
  0 <= Z.shiftr c3 SCALE_BITS < 64 ->
  table_offset table_channels size1D size2D (mk128 c1 c2 c3 0)
  = table_channels *
    table_index3D (Z.shiftr c1 SCALE_BITS) (Z.shiftr c2 SCALE_BITS)
                  (Z.shiftr c3 SCALE_BITS) size1D (size1D * size2D).
Proof.
  unfold valid_size. intros H1 H2 B1 B2 B3.
  unfold table_offset, index_mul, size1D_2D, _mm_extract_epi32, _mm_hadd_epi32,
    _mm_madd_epi16, _mm_srli_epi32, _mm_set_epi32, _mm_setzero_si128,
    lanemap2, lanemap, lanes.
  cbn [e0 e1 e2 e3]. change (Z.to_nat (Z.land 0 3)) with 0%nat.
  unfold nthz. cbn [nth].
  assert (0 <= size1D * size2D < 2 ^ 15) by nia.
  change (u32 (s16 (u32 0) * s16 (Z.shiftr 0 SCALE_BITS)
               + s16 (Z.shiftr (u32 0) 16)
                 * s16 (Z.shiftr (Z.shiftr 0 SCALE_BITS) 16))) with 0.
  change (u32 1) with 1.
  rewrite (u32_small size1D), (u32_small (size1D * size2D)) by lia.
  rewrite !madd_small by lia.
  set (i1 := Z.shiftr c1 SCALE_BITS) in *. set (i2 := Z.shiftr c2 SCALE_BITS) in *.
  set (i3 := Z.shiftr c3 SCALE_BITS) in *.
  assert (0 <= size1D * i2 < 2 ^ 15) by nia.
  assert (0 <= size1D * size2D * i3 < 2 ^ 20) by nia.
  rewrite (u32_small (1 * i1)), (u32_small (size1D * i2)),
    (u32_small (size1D * size2D * i3)) by lia.
  rewrite (u32_small (1 * i1 + size1D * i2)) by lia.
  rewrite (u32_small (size1D * size2D * i3 + 0)) by lia.
  rewrite s32_small by lia. unfold table_index3D. f_equal. lia.
Qed.

(** *** Rows of the image *)

Lemma valid_sizeb_spec size : valid_sizeb size = true <-> valid_size size.
Proof. unfold valid_sizeb, valid_size. rewrite andb_true_iff, !Z.leb_le. tauto. Qed.

Lemma table_ok_spec tc size1D size2D size3D table :
  table_ok tc size1D size2D size3D table = true ->
  valid_size size1D /\ valid_size size2D /\ valid_size size3D
  /\ tc * size1D * size2D * size3D + 2 <= Z.of_nat (length table).
Proof.
  unfold table_ok. intros H.
  rewrite !andb_true_iff, !valid_sizeb_spec, Z.leb_le in H. tauto.
Qed.

Lemma rows_ok_spec slack width height rows :
  rows_ok slack width height rows = true ->
  forall y, (y < height)%nat ->
  exists r, nth_error rows y = Some r
            /\ 4 * Z.max 0 width + slack <= Z.of_nat (length r).
Proof.
  unfold rows_ok. intros H y Hy. apply andb_prop in H. destruct H as [Hh Hall].
  apply Nat.leb_le in Hh. rewrite forallb_forall in Hall.
  destruct (nth_error rows y) as [r|] eqn:E.
  - exists r. split; [reflexivity|].
    assert (In r (firstn height rows)).
    { apply nth_error_In with (n := y). rewrite nth_error_firstn.
      destruct (Nat.ltb_spec y height); [assumption|lia]. }
    specialize (Hall r H). lia.
  - apply nth_error_None in E. lia.
Qed.

Lemma set_row_length rows y r :
  (y < length rows)%nat -> length (set_row rows y r) = length rows.
Proof.
  intros. unfold set_row. rewrite length_app, length_firstn. cbn [length].
  rewrite length_skipn. lia.
Qed.

Lemma nth_error_set_row_same rows y r :
  (y < length rows)%nat -> nth_error (set_row rows y r) y = Some r.
Proof.
  intros. unfold set_row. rewrite nth_error_app2; rewrite length_firstn; [|lia].
  replace (y - Nat.min y (length rows))%nat with 0%nat by lia. reflexivity.
Qed.

Lemma nth_error_set_row_other rows y r y' :
  (y < length rows)%nat -> y' <> y ->
  nth_error (set_row rows y r) y' = nth_error rows y'.
Proof.
  intros. unfold set_row. destruct (Nat.ltb_spec y' y).
  - rewrite nth_error_app1 by (rewrite length_firstn; lia).
    rewrite nth_error_firstn. destruct (Nat.ltb_spec y' y); [reflexivity|lia].
  - rewrite nth_error_app2 by (rewrite length_firstn; lia).
    rewrite length_firstn. replace (y' - Nat.min y (length rows))%nat
      with (S (y' - S y)) by lia.
    cbn [nth_error]. rewrite nth_error_skipn. f_equal. lia.
Qed.

Section ForY.

Variables (table_channels size1D size2D size3D : Z) (table : list Z).
Variables (imIn : input_image) (width : Z).
Variable g : nat -> list Z -> list Z.

Lemma for_y_spec n : forall y rows,
  (y + n <= length rows)%nat ->
  (forall y' ro, (y <= y' < y + n)%nat -> nth_error rows y' = Some ro ->
     exists ri, input_row imIn y' = Some ri
       /\ row table_channels size1D size2D size3D table ri width ro
          = Some (g y' ro)) ->
  exists rows',
    for_y table_channels size1D size2D size3D table imIn width n y rows
    = Some rows'
    /\ length rows' = length rows
    /\ (forall y', (y' < y \/ y + n <= y')%nat ->
          nth_error rows' y' = nth_error rows y')
    /\ (forall y' ro, (y <= y' < y + n)%nat -> nth_error rows y' = Some ro ->
          nth_error rows' y' = Some (g y' ro)).
Proof.
  induction n as [|n IH]; intros y rows Hlen Hrow.
  - exists rows. cbn [for_y]. repeat split; trivial. intros; lia.
  - destruct (nth_error rows y) as [ro|] eqn:Ero;
      [|apply nth_error_None in Ero; lia].
    destruct (Hrow y ro ltac:(lia) Ero) as (ri & Eri & Er).
    cbn [for_y]. rewrite Eri. cbn [bind]. rewrite Ero. cbn [bind].
    rewrite Er. cbn [bind].
    assert (Hy : (y < length rows)%nat) by lia.
    destruct (IH (S y) (set_row rows y (g y ro))) as (rows' & E & L & Out & In').
    + rewrite set_row_length; lia.
    + intros y' ro' Hy' E'. rewrite nth_error_set_row_other in E' by lia.
      apply Hrow; [lia|assumption].
    + exists rows'. split; [exact E|]. split; [rewrite L; apply set_row_length; lia|].
      split.
      * intros y' Hy'. rewrite Out by lia. apply nth_error_set_row_other; lia.
      * intros y' ro' Hy' E'. destruct (Nat.eq_dec y' y) as [->|Hne].
        -- rewrite Out by lia. rewrite nth_error_set_row_same by lia.
           congruence.
        -- apply In'; [lia|]. rewrite nth_error_set_row_other; trivial; lia.
Qed.

End ForY.

(** *** The whole call *)

Lemma pixel_type_eqb_spec a b : pixel_type_eqb a b = true <-> a = b.
Proof. destruct a, b; cbn; split; congruence. Qed.

Lemma valid_call_runs tc size1D size2D size3D table imOut imIn :
  valid_call tc imOut imIn = true ->
  ImagingColorLUT3D_linear tc size1D size2D size3D table imOut imIn
  = (rows <- for_y tc size1D size2D size3D table imIn (xsize imOut)
               (Z.to_nat (ysize imOut)) 0 (image imOut) ;;
     Some (RetImOut, set_image imOut rows)).
Proof.
  unfold valid_call, ImagingColorLUT3D_linear. cbv zeta. intros H.
  rewrite !andb_true_iff, orb_true_iff, !pixel_type_eqb_spec, !Z.leb_le in H.
  destruct H as ((((((H1 & H2) & H3) & H4) & H5) & H6) & H7).
  destruct (Z.ltb_spec tc 3); [lia|]. destruct (Z.gtb_spec tc 4); [lia|].
  cbn [orb]. rewrite H3, H4. cbn [pixel_type_eqb negb orb].
  destruct (Z.ltb_spec (bands (the_input imOut imIn)) 3); [lia|].
  destruct (Z.ltb_spec (bands imOut) tc); [lia|].
  destruct (Z.gtb_spec (bands imOut) tc), (Z.gtb_spec (bands imOut) (bands (the_input imOut imIn)));
    cbn [andb]; try reflexivity. lia.
Qed.

Lemma cell_index_bounds size1D size2D size3D p1 p2 p3 :
  valid_size size1D -> valid_size size2D -> valid_size size3D ->
  0 <= p1 <= 255 -> 0 <= p2 <= 255 -> 0 <= p3 <= 255 ->
  0 <= table_index3D (cell size1D p1) (cell size2D p2) (cell size3D p3)
         size1D (size1D * size2D)
  /\ table_index3D (cell size1D p1) (cell size2D p2) (cell size3D p3)
         size1D (size1D * size2D) + size1D * size2D + size1D + 2
     <= size1D * size2D * size3D.
Proof.
  intros H1 H2 H3 Hp1 Hp2 Hp3.
  pose proof (cell_range size1D p1 H1 Hp1). pose proof (cell_range size2D p2 H2 Hp2).
  pose proof (cell_range size3D p3 H3 Hp3). unfold valid_size in *.
  unfold table_index3D. split; [nia|].
  assert (cell size2D p2 * size1D <= (size2D - 2) * size1D) by nia.
  assert (cell size3D p3 * (size1D * size2D) <= (size3D - 2) * (size1D * size2D)) by nia.
  nia.
Qed.

Lemma row_idx_spec tc size1D size2D size3D v :
  valid_size size1D -> valid_size size2D -> valid_size size3D ->
  table_offset tc size1D size2D (scaled size1D size2D size3D v)
  = tc * table_index3D (cell size1D (u8 (e0 v)))
                       (cell size2D (u8 (Z.shiftr (e0 v) 8)))
                       (cell size3D (u8 (Z.shiftr (e0 v) 16)))
                       size1D (size1D * size2D).
Proof.
  intros H1 H2 H3. rewrite scaled_lanes by assumption.
  pose proof (cell_range size1D _ H1 (u8_le (e0 v))).
  pose proof (cell_range size2D _ H2 (u8_le (Z.shiftr (e0 v) 8))).
  pose proof (cell_range size3D _ H3 (u8_le (Z.shiftr (e0 v) 16))).
  unfold valid_size in *.
  rewrite table_offset_spec; unfold valid_size; trivial; fold (cell size1D (u8 (e0 v)));
    fold (cell size2D (u8 (Z.shiftr (e0 v) 8)));
    fold (cell size3D (u8 (Z.shiftr (e0 v) 16))); lia.
Qed.

Lemma row_spec tc size1D size2D size3D table rowIn width ro :
  (tc = 3 -> table_ok 3 size1D size2D size3D table = true) ->
  4 * Z.max 0 width + 16
    <= Z.of_nat (length (match rowIn with Some r => r | None => ro end)) ->
  4 * Z.max 0 width <= Z.of_nat (length ro) ->
  row tc size1D size2D size3D table rowIn width ro
  = Some (row_after tc size1D size2D size3D table
            (match rowIn with Some r => r | None => ro end) width ro).
Proof.
  intros Ht Hin Hout. unfold row, row_after.
  set (rd := match rowIn with Some r => r | None => ro end) in *.
  destruct (load_si128_some rd 0) as (v & -> & Ev); [lia|lia|].
  cbn [bind]. change (skipn (Z.to_nat 0) rd) with rd in Ev. subst v.
  destruct (Z.eqb_spec tc 3) as [->|Hne].
  - destruct (table_ok_spec _ _ _ _ _ (Ht eq_refl)) as (H1 & H2 & H3 & Hlen).
    apply for_x_spec3; trivial; try lia.
    + pose proof (row_idx_spec 3 size1D size2D size3D (of_bytes (firstn 16 rd)) H1 H2 H3) as E.
      pose proof (cell_index_bounds size1D size2D size3D _ _ _ H1 H2 H3
                    (u8_le (e0 (of_bytes (firstn 16 rd))))
                    (u8_le (Z.shiftr (e0 (of_bytes (firstn 16 rd))) 8))
                    (u8_le (Z.shiftr (e0 (of_bytes (firstn 16 rd))) 16))) as B.
      unfold row_idx, row_index. rewrite E. unfold valid_size in *. lia.
    + fold rd. lia.
  - apply for_x_spec4; trivial; try lia. fold rd. lia.
Qed.

Lemma call_spec tc size1D size2D size3D table imOut imIn :
  valid_call tc imOut imIn = true ->
  buffers_ok imOut imIn = true ->
  (tc = 3 -> table_ok 3 size1D size2D size3D table = true) ->
  exists rows',
    ImagingColorLUT3D_linear tc size1D size2D size3D table imOut imIn
    = Some (RetImOut, set_image imOut rows')
    /\ length rows' = length (image imOut)
    /\ (forall y, (Z.to_nat (ysize imOut) <= y)%nat ->
          nth_error rows' y = nth_error (image imOut) y)
    /\ (forall y ro, (y < Z.to_nat (ysize imOut))%nat ->
          nth_error (image imOut) y = Some ro ->
          nth_error rows' y
          = Some (row_after tc size1D size2D size3D table (in_row imIn y ro)
                            (xsize imOut) ro)).
Proof.
  intros Hv Hb Ht. rewrite valid_call_runs by assumption.
  unfold buffers_ok in Hb. apply andb_prop in Hb. destruct Hb as [Hout Hin].
  pose proof (rows_ok_spec _ _ _ _ Hout) as Ro.
  pose proof (rows_ok_spec _ _ _ _ Hin) as Ri.
  assert (Hh : (0 + Z.to_nat (ysize imOut) <= length (image imOut))%nat).
  { unfold rows_ok in Hout. apply andb_prop in Hout. destruct Hout as [Hh _].
    apply Nat.leb_le in Hh. lia. }
  destruct (for_y_spec tc size1D size2D size3D table imIn (xsize imOut)
              (fun y ro => row_after tc size1D size2D size3D table
                             (in_row imIn y ro) (xsize imOut) ro)
              (Z.to_nat (ysize imOut)) 0%nat (image imOut) Hh)
    as (rows' & E & L & Out & In').
  - intros y ro Hy Ero.
    destruct (Ro y ltac:(lia)) as (ro' & Ero' & Lo).
    destruct (Ri y ltac:(lia)) as (ri & Eri & Li).
    assert (ro' = ro) by congruence. subst ro'.
    destruct imIn as [|im]; cbn [the_input input_row in_row] in *.
    + exists None. split; [reflexivity|].
      assert (ri = ro) by congruence. subst ri.
      apply row_spec; trivial; lia.
    + exists (Some ri). rewrite Eri. split; [reflexivity|].
      rewrite (nth_error_nth _ _ [] Eri).
      apply (row_spec tc size1D size2D size3D table (Some ri)); trivial; lia.
  - exists rows'. rewrite E. cbn [bind]. repeat split; trivial.
    + intros y Hy. apply Out. lia.
    + intros y ro Hy Ero. apply In'; trivial. lia.
Qed.

(** *** A pixel on a grid node *)

Lemma lerp_node t a :
  int16 t -> lerp t a 0 = if 0 <? t then t - 1 else if t =? - 2 ^ 15 then t + 1 else t.
Proof.
  unfold int16. intros H. rewrite lerp_eq. rewrite Z.mul_0_r, Z.add_0_r, Z.sub_0_r.
  destruct (Z.ltb_spec 0 t); [|destruct (Z.eqb_spec t (- 2 ^ 15))];
    Z.div_mod_to_equations; lia.
Qed.

Lemma corner_value t a b r :
  int16 t ->
  sat_u8 (Z.shiftr (Z.shiftl PRECISION_ROUNDING SHIFT_BITS
                    + (lerp (lerp t a 0) b 0 * (2 ^ 15 - 1 - 0) + r * 0))
                   (PRECISION_BITS + SHIFT_BITS))
  = sat_u8 (Z.shiftr (t + PRECISION_ROUNDING - 3) PRECISION_BITS).
Proof.
  intros H. pose proof (lerp_node t a H) as E1.
  assert (H1 : int16 (lerp t a 0)).
  { rewrite E1. unfold int16 in *.
    destruct (Z.ltb_spec 0 t); [|destruct (Z.eqb_spec t (- 2 ^ 15))]; lia. }
  pose proof (lerp_node (lerp t a 0) b H1) as E2.
  change (Z.shiftl PRECISION_ROUNDING SHIFT_BITS) with (2 ^ 20).
  change (PRECISION_BITS + SHIFT_BITS) with 21.
  change PRECISION_ROUNDING with 32. change PRECISION_BITS with 6.
  rewrite !Z.shiftr_div_pow2 by lia. unfold int16 in H. unfold sat_u8.
  set (l1 := lerp t a 0) in *. set (l2 := lerp l1 b 0) in *.
  destruct (Z.ltb_spec 0 t); [|destruct (Z.eqb_spec t (- 2 ^ 15))];
    (destruct (Z.ltb_spec 0 l1); [|destruct (Z.eqb_spec l1 (- 2 ^ 15))]);
    Z.div_mod_to_equations; lia.
Qed.

(** * Properties of the transform *)

(** ** C3: the base index and the loads from the table *)

(** X20.  For grid sizes in [2,65] and every 8-bit channel value [p]
    (255 included), the product of [p] with the scale, shifted right by
    [SCALE_BITS], is at most [size - 2].  For the registers of the code:
    the three cell indices taken from [index] are at most [size - 2], the
    table offset is [table_channels] times the flat index of the base node,
    and each of the eight corners (the base node and its [+1] neighbours
    along each axis) has all its channels inside the
    [table_channels * size1D * size2D * size3D] elements of the grid.  This
    bounds the elements that are blended, not the 8-element loads that
    fetch them. *)
Theorem boundary_safety :
  (forall size p, valid_size size -> 0 <= p <= 255 ->
     0 <= Z.shiftr (u32 (u32 (scale_of size) * p)) SCALE_BITS <= size - 2)
  /\
  (forall table_channels size1D size2D size3D pixels,
     valid_size size1D -> valid_size size2D -> valid_size size3D ->
     3 <= table_channels <= 4 ->
     let index := scaled size1D size2D size3D pixels in
     let i1 := e0 (_mm_srli_epi32 index SCALE_BITS) in
     let i2 := e1 (_mm_srli_epi32 index SCALE_BITS) in
     let i3 := e2 (_mm_srli_epi32 index SCALE_BITS) in
     (0 <= i1 <= size1D - 2 /\ 0 <= i2 <= size2D - 2 /\ 0 <= i3 <= size3D - 2)
     /\ table_offset table_channels size1D size2D index
        = table_channels * table_index3D i1 i2 i3 size1D (size1D * size2D)
     /\ forall d1 d2 d3 c,
          0 <= d1 <= 1 -> 0 <= d2 <= 1 -> 0 <= d3 <= 1 ->
          0 <= c < table_channels ->
          0 <= table_offset table_channels size1D size2D index
               + table_channels * table_index3D d1 d2 d3 size1D (size1D * size2D)
               + c
            < table_channels * (size1D * size2D * size3D)).
Proof.
  split.
  - intros size p Hs Hp. rewrite scaled_lane by assumption.
    apply (cell_range size p Hs Hp).
  - intros tc size1D size2D size3D v H1 H2 H3 Htc. cbv zeta.
    rewrite row_idx_spec by assumption. rewrite scaled_lanes by assumption.
    unfold _mm_srli_epi32, lanemap. cbn [e0 e1 e2 e3].
    fold (cell size1D (u8 (e0 v))). fold (cell size2D (u8 (Z.shiftr (e0 v) 8))).
    fold (cell size3D (u8 (Z.shiftr (e0 v) 16))).
    pose proof (cell_range size1D _ H1 (u8_le (e0 v))) as C1.
    pose proof (cell_range size2D _ H2 (u8_le (Z.shiftr (e0 v) 8))) as C2.
    pose proof (cell_range size3D _ H3 (u8_le (Z.shiftr (e0 v) 16))) as C3.
    pose proof (cell_index_bounds size1D size2D size3D _ _ _ H1 H2 H3
                  (u8_le (e0 v)) (u8_le (Z.shiftr (e0 v) 8))
                  (u8_le (Z.shiftr (e0 v) 16))) as B.
    split; [tauto|]. split; [reflexivity|].
    intros d1 d2 d3 c Hd1 Hd2 Hd3 Hc.
    set (base := table_index3D _ _ _ _ _) in *.
    assert (D : 0 <= table_index3D d1 d2 d3 size1D (size1D * size2D)
                <= 1 + size1D + size1D * size2D).
    { unfold table_index3D, valid_size in *. nia. }
    set (corner := table_index3D d1 d2 d3 _ _) in *.
    unfold valid_size in *. nia.
Qed.

(** The white pixel on a 65x65x65 grid. *)
Lemma boundary_safety_witness :
  0 <= Z.shiftr (u32 (u32 (scale_of 65) * 255)) SCALE_BITS <= 65 - 2
  /\ table_offset 3 65 65 (scaled 65 65 65 (of_bytes [255; 255; 255; 0]))
     = 3 * table_index3D 63 63 63 65 (65 * 65).
Proof.
  split.
  - apply (proj1 boundary_safety 65 255); unfold valid_size; lia.
  - apply (proj2 boundary_safety 3 65 65 65 (of_bytes [255; 255; 255; 0]));
      unfold valid_size; lia.
Defined.

(** C3, the code at a failing input.  A 3x3x3 grid of three channels has 81
    elements.  For the pixel (255, 255, 255) the three cell indices are 1,
    that is [size - 2], and the offset of the base node is 39.  The first
    three loads of the block stay inside the table; the fourth (line 166)
    starts at element 75 and takes eight elements, so it reaches elements 81
    and 82, which are not in the table, although the six elements of the two
    corner nodes it is there for are.  The call leaves the table; with two
    more elements after the grid it returns the image. *)
Theorem fourth_load_leaves_grid :
  let table := map Z.of_nat (seq 0 81) in
  let rowIn := nth 0 (image white_1x1) [] in
  let index := row_index 3 3 3 rowIn in
  let idx := row_idx 3 3 3 3 rowIn in
  Z.of_nat (length table) = 3 * (3 * 3 * 3)
  /\ lanes (_mm_srli_epi32 index SCALE_BITS) = [3 - 2; 3 - 2; 3 - 2; 0]
  /\ idx = 39
  /\ _mm_loadu_si128 table (idx + 0) <> None
  /\ _mm_loadu_si128 table (idx + 3 * 3) <> None
  /\ _mm_loadu_si128 table (idx + 3 * 3 * 3) <> None
  /\ idx + 3 * 3 * 3 + 3 * 3 = 75
  /\ slice table (idx + 3 * 3 * 3 + 3 * 3) 6 = Some [75; 76; 77; 78; 79; 80]
  /\ _mm_loadu_si128 table (idx + 3 * 3 * 3 + 3 * 3) = None
  /\ ImagingColorLUT3D_linear 3 3 3 3 table out_1x1 (Other white_1x1) = None
  /\ ImagingColorLUT3D_linear 3 3 3 3 (table ++ [0; 0]) out_1x1 (Other white_1x1)
     <> None.
Proof.
  cbv zeta. repeat split; try (vm_compute; reflexivity); vm_compute; discriminate.
Qed.

(** ** C7: the vector block and the scalar formula *)

Lemma clip8_rounded B :
  clip8 (Z.shiftr B SHIFT_BITS)
  = sat_u8 (Z.shiftr (Z.shiftl PRECISION_ROUNDING SHIFT_BITS + B)
                     (PRECISION_BITS + SHIFT_BITS)).
Proof.
  unfold clip8, clip8_lookups. f_equal.
  change (Z.shiftl PRECISION_ROUNDING SHIFT_BITS) with (2 ^ 20).
  change (PRECISION_BITS + SHIFT_BITS) with 21.
  change PRECISION_ROUNDING with 32. change PRECISION_BITS with 6.
  change SHIFT_BITS with 15.
  rewrite !Z.shiftr_div_pow2 by lia. Z.div_mod_to_equations. lia.
Qed.

Lemma elem_table_at table o c :
  0 <= o -> (c < 3)%nat -> elem table o c = table_at table (o + Z.of_nat c).
Proof.
  intros Ho Hc. unfold elem, chan3, table_at.
  destruct (Nat.ltb_spec c 3); [|lia]. do 2 f_equal. lia.
Qed.

Lemma interpolate1_biased_lerp a b f :
  int16 a -> int16 b -> 0 <= f < 2 ^ 15 -> interpolate1_biased a b f = lerp a b f.
Proof.
  intros Ha Hb Hf. unfold interpolate1_biased. apply s16_small.
  apply (lerp_int16 a b f Ha Hb Hf).
Qed.

Lemma interpolate1_biased_int16 a b f : int16 (interpolate1_biased a b f).
Proof. apply s16_range. Qed.

Lemma ref_pixel_scalar table size1D size2D idx index :
  0 <= idx -> 0 <= size1D -> 0 <= size2D ->
  firstn 3 (ref_pixel table size1D size2D idx index)
  = scalar_lut3_biased table idx size1D (size1D * size2D)
      (frac (e0 index)) (frac (e1 index)) (frac (e2 index)).
Proof.
  intros Hidx H1 H2. assert (0 <= size1D * size2D) by nia.
  cbv [scalar_lut3_biased nested_lerp interpolate3_biased vec seq map nthz nth
       firstn ref_pixel].
  change (Z.of_nat 3) with 3.
  rewrite <- !elem_table_at by lia.
  pose proof (frac_range (e0 index)) as F1.
  pose proof (frac_range (e1 index)) as F2.
  pose proof (frac_range (e2 index)) as F3.
  rewrite !interpolate1_biased_lerp
    by (assumption || apply elem_int16 || apply interpolate1_biased_int16
        || (apply lerp_int16; int16_side)).
  unfold lerp at 1 8 15. rewrite !clip8_rounded.
  unfold ref_rounded, ref_blend3, ref_left, ref_right, ref_leftleft,
    ref_leftright, ref_rightleft, ref_rightright, f1, f2, f3.
  replace (idx + 0 + 3) with (idx + 3) by lia.
  reflexivity.
Qed.

(** C7, amended.  For every table, offset and index register for which the
    four vector loads stay inside the table buffer, the three channel bytes
    produced by the vector block equal the nested two-input blends along
    axis 0, axis 1 and axis 2 followed by the rounding clip, where each
    blend is [(a * ((1 << SHIFT_BITS) - 1 - shift) + b * shift) >> SHIFT_BITS]. *)
Theorem simd_equals_biased_scalar table size1D size2D idx index :
  0 <= idx -> 0 <= size1D -> 0 <= size2D ->
  idx + size1D * size2D * 3 + size1D * 3 + 8 <= Z.of_nat (length table) ->
  exists px,
    lut3_bytes size1D size2D table idx index = Some px
    /\ firstn 3 px
       = scalar_lut3_biased table idx size1D (size1D * size2D)
           (frac (e0 index)) (frac (e1 index)) (frac (e2 index)).
Proof.
  intros Hidx H1 H2 Hlen. unfold lut3_bytes.
  rewrite lut3_spec by assumption. cbn [bind]. rewrite stored_pixel.
  eexists. split; [reflexivity|]. apply ref_pixel_scalar; assumption.
Qed.

(** The pixel (100, 200, 50) on the 2x2x2 identity table. *)
Lemma simd_equals_biased_scalar_witness :
  exists px,
    lut3_bytes 2 2 identity_table 0 (scaled 2 2 2 (of_bytes [100; 200; 50; 0]))
    = Some px
    /\ firstn 3 px
       = scalar_lut3_biased identity_table 0 2 (2 * 2)
           (frac (e0 (scaled 2 2 2 (of_bytes [100; 200; 50; 0]))))
           (frac (e1 (scaled 2 2 2 (of_bytes [100; 200; 50; 0]))))
           (frac (e2 (scaled 2 2 2 (of_bytes [100; 200; 50; 0])))).
Proof.
  apply (simd_equals_biased_scalar identity_table 2 2 0
           (scaled 2 2 2 (of_bytes [100; 200; 50; 0]))); try lia.
  vm_compute. discriminate.
Defined.

(** C7 as stated fails: on the 2x2x2 table whose elements are all 32 and the
    pixel (0, 0, 0), whose weights are 0 along the three axes, the vector
    block stores 0 in each channel, while the nested [interpolate3] of the
    source followed by [clip8] gives 1. *)
Lemma simd_differs_from_interpolate3 :
  exists px,
    lut3_bytes 2 2 (flat_table 32) (table_offset 3 2 2 (scaled 2 2 2 black))
      (scaled 2 2 2 black) = Some px
    /\ firstn 3 px
       <> scalar_lut3 (flat_table 32) (table_offset 3 2 2 (scaled 2 2 2 black))
            2 (2 * 2) (frac (e0 (scaled 2 2 2 black)))
            (frac (e1 (scaled 2 2 2 black))) (frac (e2 (scaled 2 2 2 black))).
Proof.
  exists [0; 0; 0; 0]. split; [vm_compute; reflexivity|].
  vm_compute. discriminate.
Qed.

(** ** C8: the blends stay inside 16 bits *)

Lemma elem_range table n o c :
  (forall i, 0 <= i < n ->
     0 <= nthz table (Z.to_nat i) <= Z.shiftl 255 PRECISION_BITS) ->
  0 <= o -> o + 3 <= n ->
  0 <= elem table o c <= Z.shiftl 255 PRECISION_BITS.
Proof.
  intros Ht Ho Hn. unfold elem, chan3. destruct (Nat.ltb_spec c 3).
  - specialize (Ht (o + Z.of_nat c) ltac:(lia)).
    replace (Z.to_nat (o + Z.of_nat c)) with (Z.to_nat o + c)%nat in Ht by lia.
    change (Z.shiftl 255 PRECISION_BITS) with 16320 in *.
    rewrite s16_small; lia.
  - change (Z.shiftl 255 PRECISION_BITS) with 16320. lia.
Qed.

Lemma lerp_in_range a b f :
  0 <= a <= Z.shiftl 255 PRECISION_BITS ->
  0 <= b <= Z.shiftl 255 PRECISION_BITS -> 0 <= f < 2 ^ 15 ->
  0 <= lerp a b f <= Z.shiftl 255 PRECISION_BITS.
Proof. intros. apply (lerp_range 0 _ a b f); trivial; lia. Qed.

Lemma words_lows g :
  words (lows g)
  = [u16 (g 0%nat); 0; u16 (g 1%nat); 0; u16 (g 2%nat); 0; u16 (g 3%nat); 0].
Proof.
  unfold words, lows, lanes. cbn [flat_map app e0 e1 e2 e3]. unfold lane_words.
  repeat match goal with
         | |- context [u16 (Z.shiftr (u16 ?x) 16)] =>
             replace (u16 (Z.shiftr (u16 x) 16)) with 0
               by (pose proof (u16_range x); rewrite Z.shiftr_div_pow2 by lia;
                   rewrite Z.div_small by lia; reflexivity)
         end.
  unfold u16. rewrite !Z.mod_mod by lia. reflexivity.
Qed.

Lemma words_highs g :
  words (highs g)
  = [0; u16 (g 0%nat); 0; u16 (g 1%nat); 0; u16 (g 2%nat); 0; u16 (g 3%nat)].
Proof.
  unfold words, highs, lanes. cbn [flat_map app e0 e1 e2 e3]. unfold lane_words.
  assert (E : forall x, u16 (2 ^ 16 * u16 x) = 0
                        /\ u16 (Z.shiftr (2 ^ 16 * u16 x) 16) = u16 x).
  { intros x. pose proof (u16_range x). rewrite Z.shiftr_div_pow2 by lia.
    unfold u16 in *. split; Z.div_mod_to_equations; lia. }
  repeat match goal with
         | |- context [u16 (2 ^ 16 * u16 ?x)] =>
             rewrite (proj1 (E x)), (proj2 (E x))
         end.
  reflexivity.
Qed.

Lemma stored_in_range_spec n table :
  stored_in_range n table = true -> n <= Z.of_nat (length table) ->
  forall i, 0 <= i < n ->
    0 <= nthz table (Z.to_nat i) <= Z.shiftl 255 PRECISION_BITS.
Proof.
  unfold stored_in_range. intros H Hn i Hi. rewrite forallb_forall in H.
  assert (In' : In (nthz table (Z.to_nat i)) (firstn (Z.to_nat n) table)).
  { unfold nthz.
    replace (nth (Z.to_nat i) table 0)
      with (nth (Z.to_nat i) (firstn (Z.to_nat n) table) 0).
    - apply nth_In. rewrite length_firstn. lia.
    - rewrite nth_firstn. destruct (Nat.ltb_spec (Z.to_nat i) (Z.to_nat n)); [reflexivity|lia]. }
  specialize (H _ In'). rewrite andb_true_iff, !Z.leb_le in H. exact H.
Qed.

Ltac stage_in_range :=
  match goal with
  | H : forall c, in_range (ref_leftleft _ _ _ c) |- in_range (ref_leftleft _ _ _ _) => apply H
  | H : forall c, in_range (ref_leftright _ _ _ _ c) |- in_range (ref_leftright _ _ _ _ _) => apply H
  | H : forall c, in_range (ref_rightleft _ _ _ _ _ c) |- in_range (ref_rightleft _ _ _ _ _ _) => apply H
  | H : forall c, in_range (ref_rightright _ _ _ _ _ c) |- in_range (ref_rightright _ _ _ _ _ _) => apply H
  | H : forall c, in_range (ref_left _ _ _ _ c) |- in_range (ref_left _ _ _ _ _) => apply H
  | H : forall c, in_range (ref_right _ _ _ _ _ c) |- in_range (ref_right _ _ _ _ _ _) => apply H
  end.

(** C8.  When the elements of the grid lie in [0, 255 << PRECISION_BITS],
    the block loads without fault and its registers hold the blends computed
    in unbounded integers ([ref_locals]); each of these integers, for the
    axis-0 blends [leftleft], [leftright], [rightleft], [rightright], the
    axis-1 blends [left], [right] and the axis-2 blend shifted by
    [SHIFT_BITS], lies in [0, 255 << PRECISION_BITS].  So does every 16-bit
    lane of the six stage registers, and the 32-bit lanes of the last sum are
    non-negative: no stage wraps around. *)
Theorem blends_fit_16_bits table size1D size2D size3D pixels :
  table_ok 3 size1D size2D size3D table = true ->
  stored_in_range (3 * size1D * size2D * size3D) table = true ->
  let index := scaled size1D size2D size3D pixels in
  let idx := table_offset 3 size1D size2D index in
  exists r,
    lut3 size1D size2D table idx index = Some r
    /\ r = ref_locals table size1D size2D idx index
    /\ (forall c,
          in_range (ref_leftleft table idx index c)
          /\ in_range (ref_leftright table size1D idx index c)
          /\ in_range (ref_rightleft table size1D size2D idx index c)
          /\ in_range (ref_rightright table size1D size2D idx index c)
          /\ in_range (ref_left table size1D idx index c)
          /\ in_range (ref_right table size1D size2D idx index c)
          /\ in_range (Z.shiftr (ref_blend3 table size1D size2D idx index c)
                                SHIFT_BITS))
    /\ (forall w,
          In w (words (leftleft r) ++ words (leftright r)
                ++ words (rightleft r) ++ words (rightright r)
                ++ words (left r) ++ words (right r)) ->
          in_range w)
    /\ (forall x, In x (lanes (blend3 r)) ->
          0 <= x < 2 ^ 31 /\ in_range (Z.shiftr x SHIFT_BITS)).
Proof.
  intros Ht Hr index idx.
  destruct (table_ok_spec _ _ _ _ _ Ht) as (H1 & H2 & H3 & Hlen).
  pose proof (stored_in_range_spec _ _ Hr ltac:(lia)) as Hs.
  pose proof (row_idx_spec 3 size1D size2D size3D pixels H1 H2 H3) as E.
  pose proof (cell_index_bounds size1D size2D size3D _ _ _ H1 H2 H3
                (u8_le (e0 pixels)) (u8_le (Z.shiftr (e0 pixels) 8))
                (u8_le (Z.shiftr (e0 pixels) 16))) as B.
  fold index in E. fold idx in E.
  set (base := table_index3D _ _ _ _ _) in *.
  assert (S1 : 0 <= size1D) by (unfold valid_size in *; lia).
  assert (S2 : 0 <= size2D) by (unfold valid_size in *; lia).
  assert (S12 : 0 <= size1D * size2D) by nia.
  assert (N : 3 * size1D * size2D * size3D = 3 * (size1D * size2D * size3D)) by lia.
  rewrite N in *.
  assert (Hel : forall o c, 0 <= o <= size1D * size2D * 3 + size1D * 3 + 3 ->
                  in_range (elem table (idx + o) c)).
  { intros o c Ho. apply (elem_range table (3 * (size1D * size2D * size3D))); trivial; lia. }
  pose proof (frac_range (e0 index)) as F1.
  pose proof (frac_range (e1 index)) as F2.
  pose proof (frac_range (e2 index)) as F3.
  assert (LL : forall c, in_range (ref_leftleft table idx index c)).
  { intros c. apply lerp_in_range; trivial.
    - apply Hel; lia.
    - replace (idx + 0 + 3) with (idx + 3) by lia. apply Hel; lia. }
  assert (LR : forall c, in_range (ref_leftright table size1D idx index c)).
  { intros c. apply lerp_in_range; trivial.
    - replace (idx + size1D * 3) with (idx + (size1D * 3)) by lia. apply Hel; lia.
    - replace (idx + size1D * 3 + 3) with (idx + (size1D * 3 + 3)) by lia.
      apply Hel; lia. }
  assert (RL : forall c, in_range (ref_rightleft table size1D size2D idx index c)).
  { intros c. apply lerp_in_range; trivial.
    - replace (idx + size1D * size2D * 3) with (idx + (size1D * size2D * 3)) by lia.
      apply Hel; lia.
    - replace (idx + size1D * size2D * 3 + 3)
        with (idx + (size1D * size2D * 3 + 3)) by lia.
      apply Hel; lia. }
  assert (RR : forall c, in_range (ref_rightright table size1D size2D idx index c)).
  { intros c. apply lerp_in_range; trivial.
    - replace (idx + size1D * size2D * 3 + size1D * 3)
        with (idx + (size1D * size2D * 3 + size1D * 3)) by lia.
      apply Hel; lia.
    - replace (idx + size1D * size2D * 3 + size1D * 3 + 3)
        with (idx + (size1D * size2D * 3 + size1D * 3 + 3)) by lia.
      apply Hel; lia. }
  assert (L : forall c, in_range (ref_left table size1D idx index c))
    by (intros c; apply lerp_in_range; [apply LL | apply LR | exact F2]).
  assert (R : forall c, in_range (ref_right table size1D size2D idx index c))
    by (intros c; apply lerp_in_range; [apply RL | apply RR | exact F2]).
  assert (B3 : forall c,
             0 <= ref_blend3 table size1D size2D idx index c < 2 ^ 31
             /\ in_range (Z.shiftr (ref_blend3 table size1D size2D idx index c)
                                   SHIFT_BITS)).
  { intros c. specialize (L c). specialize (R c).
    pose proof (lerp_in_range _ _ _ L R F3) as Hl.
    unfold lerp in Hl. change (Z.shiftl 1 SHIFT_BITS) with (2 ^ 15) in Hl.
    fold (f3 index) in Hl.
    fold (ref_blend3 table size1D size2D idx index c) in Hl.
    split; [|exact Hl]. unfold in_range in *.
    change (Z.shiftl 255 PRECISION_BITS) with 16320 in *.
    unfold ref_blend3, f3. nia. }
  exists (ref_locals table size1D size2D idx index).
  split; [apply lut3_spec; lia|]. split; [reflexivity|].
  split.
  { intros c.
    exact (conj (LL c) (conj (LR c) (conj (RL c) (conj (RR c)
             (conj (L c) (conj (R c) (proj2 (B3 c)))))))). }
  assert (U : forall z, in_range z -> u16 z = z).
  { unfold in_range. change (Z.shiftl 255 PRECISION_BITS) with 16320.
    intros z Hz. unfold u16. apply Z.mod_small. lia. }
  assert (Z0 : in_range 0)
    by (unfold in_range; change (Z.shiftl 255 PRECISION_BITS) with 16320; lia).
  split.
  - intros w Hw. unfold ref_locals in Hw.
    cbn [leftleft leftright rightleft rightright left right] in Hw.
    rewrite !words_lows, !words_highs in Hw.
    rewrite !U in Hw by stage_in_range.
    cbn [app In] in Hw.
    repeat (destruct Hw as [<-|Hw]; [first [exact Z0 | stage_in_range]|]).
    contradiction.
  - intros x Hx. unfold ref_locals in Hx. cbn [blend3] in Hx.
    unfold dwords, lanes in Hx. cbn [e0 e1 e2 e3 In] in Hx.
    repeat (destruct Hx as [<-|Hx];
            [rewrite u32_small by (pose proof (B3 0%nat); pose proof (B3 1%nat);
                                   pose proof (B3 2%nat); pose proof (B3 3%nat); lia);
             apply B3|]).
    contradiction.
Qed.

(** The pixel (100, 200, 50) on the 2x2x2 identity table. *)
Lemma blends_fit_16_bits_witness :
  exists r,
    lut3 2 2 identity_table
      (table_offset 3 2 2 (scaled 2 2 2 (of_bytes [100; 200; 50; 0])))
      (scaled 2 2 2 (of_bytes [100; 200; 50; 0])) = Some r
    /\ forall w, In w (words (left r) ++ words (right r)) -> in_range w.
Proof.
  destruct (blends_fit_16_bits identity_table 2 2 2 (of_bytes [100; 200; 50; 0]))
    as (r & E & _ & _ & W & _); [reflexivity | reflexivity |].
  exists r. split; [exact E|]. intros w Hw. apply W.
  rewrite !in_app_iff in *. tauto.
Defined.

(** ** The pixels of the output image *)

Lemma u8_e0_of_bytes l :
  u8 (e0 (of_bytes l)) = u8 (nthz l 0)
  /\ u8 (Z.shiftr (e0 (of_bytes l)) 8) = u8 (nthz l 1)
  /\ u8 (Z.shiftr (e0 (of_bytes l)) 16) = u8 (nthz l 2).
Proof.
  unfold of_bytes. cbn [e0].
  pose proof (lane_bytes_byte_lane (nthz l 0) (nthz l 1) (nthz l 2) (nthz l 3)) as E.
  unfold lane_bytes in E. injection E as E0 E1 E2 E3. auto.
Qed.

Lemma nthz_firstn l n k : (k < n)%nat -> nthz (firstn n l) k = nthz l k.
Proof.
  intros. unfold nthz. rewrite nth_firstn.
  destruct (Nat.ltb_spec k n); [reflexivity|lia].
Qed.

Lemma row_index_lanes size1D size2D size3D rowIn :
  valid_size size1D -> valid_size size2D -> valid_size size3D ->
  row_index size1D size2D size3D rowIn
  = mk128 (coord size1D (u8 (row_byte rowIn 0 0)))
          (coord size2D (u8 (row_byte rowIn 0 1)))
          (coord size3D (u8 (row_byte rowIn 0 2))) 0.
Proof.
  intros H1 H2 H3. unfold row_index. rewrite scaled_lanes by assumption.
  destruct (u8_e0_of_bytes (firstn 16 rowIn)) as (-> & -> & ->).
  rewrite !nthz_firstn by lia. reflexivity.
Qed.

Lemma row_idx_cells tc size1D size2D size3D rowIn :
  valid_size size1D -> valid_size size2D -> valid_size size3D ->
  row_idx tc size1D size2D size3D rowIn
  = tc * table_index3D (cell size1D (u8 (row_byte rowIn 0 0)))
                       (cell size2D (u8 (row_byte rowIn 0 1)))
                       (cell size3D (u8 (row_byte rowIn 0 2)))
                       size1D (size1D * size2D).
Proof.
  intros H1 H2 H3. unfold row_idx, row_index. rewrite row_idx_spec by assumption.
  destruct (u8_e0_of_bytes (firstn 16 rowIn)) as (-> & -> & ->).
  rewrite !nthz_firstn by lia. reflexivity.
Qed.

(** Every pixel of an output row is the pixel computed from the first pixel
    of the input row. *)
Lemma call_pixels size1D size2D size3D table imOut imIn :
  valid_call 3 imOut imIn = true ->
  buffers_ok imOut imIn = true ->
  table_ok 3 size1D size2D size3D table = true ->
  exists im',
    ImagingColorLUT3D_linear 3 size1D size2D size3D table imOut imIn
    = Some (RetImOut, im')
    /\ forall y ro x c,
         (y < Z.to_nat (ysize imOut))%nat ->
         nth_error (image imOut) y = Some ro ->
         0 <= x < xsize imOut -> (c < 4)%nat ->
         image_byte im' x y c
         = nthz (row_pixel size1D size2D size3D table (in_row imIn y ro)) c.
Proof.
  intros Hv Hb Ht.
  destruct (call_spec 3 size1D size2D size3D table imOut imIn Hv Hb (fun _ => Ht))
    as (rows' & E & L & Out & In').
  exists (set_image imOut rows'). split; [exact E|].
  intros y ro x c Hy Ero Hx Hc.
  unfold image_byte, set_image. cbn [image].
  rewrite (nth_error_nth _ _ [] (In' y ro Hy Ero)).
  unfold row_after. change (3 =? 3) with true. cbv iota.
  unfold buffers_ok in Hb. apply andb_prop in Hb. destruct Hb as [Hout _].
  destruct (rows_ok_spec _ _ _ _ Hout y Hy) as (ro' & Ero' & Lo).
  assert (ro' = ro) by congruence. subst ro'.
  apply row_byte_fill_in; try reflexivity; lia.
Qed.

(** ** C1: a pixel that falls on a grid node *)

(** C1, amended.  Let a call with [table_channels = 3] pass the checks, with
    grid sizes in [2,65] and buffers that the loads and stores do not leave.
    If the first pixel of input row [y] has weight 0 along the three axes,
    then each of the first three bytes of the output pixel at column 0 of
    row [y] is the INT16 value [t] stored for that channel at the pixel's
    node, converted as [(t + PRECISION_ROUNDING - 3) >> PRECISION_BITS] and
    saturated to [0,255].  [ro] is row [y] of the output image before the
    call and [in_row] the input row, which is [ro] itself when the two
    images are the same object; [p d] is channel [d] of its first pixel.
    Nothing is said here of the columns after the first, nor of
    [table_channels = 4]. *)
Theorem grid_node_first_pixel size1D size2D size3D table imOut imIn y ro :
  valid_call 3 imOut imIn = true ->
  buffers_ok imOut imIn = true ->
  table_ok 3 size1D size2D size3D table = true ->
  (y < Z.to_nat (ysize imOut))%nat -> 0 < xsize imOut ->
  nth_error (image imOut) y = Some ro ->
  let p d := u8 (row_byte (in_row imIn y ro) 0 d) in
  frac (coord size1D (p 0%nat)) = 0 ->
  frac (coord size2D (p 1%nat)) = 0 ->
  frac (coord size3D (p 2%nat)) = 0 ->
  exists im',
    ImagingColorLUT3D_linear 3 size1D size2D size3D table imOut imIn
    = Some (RetImOut, im')
    /\ forall c, (c < 3)%nat ->
         image_byte im' 0 y c
         = sat_u8 (Z.shiftr
             (table_at table
                (3 * table_index3D (cell size1D (p 0%nat)) (cell size2D (p 1%nat))
                                   (cell size3D (p 2%nat)) size1D (size1D * size2D)
                 + Z.of_nat c)
              + PRECISION_ROUNDING - 3) PRECISION_BITS).
Proof.
  intros Hv Hb Ht Hy Hx Ero p F1 F2 F3.
  destruct (call_pixels size1D size2D size3D table imOut imIn Hv Hb Ht)
    as (im' & E & Px).
  exists im'. split; [exact E|]. intros c Hc.
  rewrite (Px y ro 0 c Hy Ero) by lia.
  destruct (table_ok_spec _ _ _ _ _ Ht) as (H1 & H2 & H3 & Hlen).
  pose proof (row_index_lanes size1D size2D size3D (in_row imIn y ro) H1 H2 H3) as Ei.
  pose proof (row_idx_cells 3 size1D size2D size3D (in_row imIn y ro) H1 H2 H3) as Ex.
  fold (p 0%nat) in Ei, Ex. fold (p 1%nat) in Ei, Ex. fold (p 2%nat) in Ei, Ex.
  pose proof (cell_index_bounds size1D size2D size3D _ _ _ H1 H2 H3
                (u8_le (row_byte (in_row imIn y ro) 0 0))
                (u8_le (row_byte (in_row imIn y ro) 0 1))
                (u8_le (row_byte (in_row imIn y ro) 0 2))) as B.
  fold (p 0%nat) in B. fold (p 1%nat) in B. fold (p 2%nat) in B.
  unfold row_pixel. rewrite <- Ex.
  set (idx := row_idx 3 size1D size2D size3D (in_row imIn y ro)) in *.
  set (index := row_index size1D size2D size3D (in_row imIn y ro)) in *.
  assert (Hsel : nthz (ref_pixel table size1D size2D idx index) c
                 = sat_u8 (ref_rounded table size1D size2D idx index c)).
  { destruct c as [|[|[|c]]]; try lia; reflexivity. }
  rewrite Hsel.
  unfold ref_rounded, ref_blend3, ref_left, ref_leftleft, f1, f2, f3.
  rewrite Ei. cbn [e0 e1 e2]. rewrite F1, F2, F3.
  rewrite corner_value by apply elem_int16.
  rewrite elem_table_at by lia.
  replace (idx + 0 + Z.of_nat c) with (idx + Z.of_nat c) by lia. reflexivity.
Qed.

(** The pixel (0, 0, 0) on the 2x2x2 table whose elements are all 8000. *)
Lemma grid_node_first_pixel_witness :
  exists im',
    ImagingColorLUT3D_linear 3 2 2 2 (flat_table 8000) out_1x1
      (Other one_black_pixel) = Some (RetImOut, im')
    /\ forall c, (c < 3)%nat ->
         image_byte im' 0 0 c
         = sat_u8 (Z.shiftr
             (table_at (flat_table 8000)
                (3 * table_index3D (cell 2 (u8 0)) (cell 2 (u8 0)) (cell 2 (u8 0))
                                   2 (2 * 2) + Z.of_nat c)
              + PRECISION_ROUNDING - 3) PRECISION_BITS).
Proof.
  apply (grid_node_first_pixel 2 2 2 (flat_table 8000) out_1x1
           (Other one_black_pixel) 0%nat (9 :: 9 :: 9 :: 9 :: repeat 0 16));
    try reflexivity; vm_compute; try reflexivity; lia.
Defined.

(** C1 as stated fails: on the 2x2x2 table whose elements are all 32, the
    pixel (0, 0, 0) has weight 0 along the three axes and lies on node
    (0, 0, 0), whose stored value rounds to 1; the output pixel is 0. *)
Lemma grid_node_not_exact :
  frac (coord 2 0) = 0
  /\ exists im',
       ImagingColorLUT3D_linear 3 2 2 2 (flat_table 32) out_1x1
         (Other one_black_pixel) = Some (RetImOut, im')
       /\ image_byte im' 0 0 0
          <> clip8 (table_at (flat_table 32)
                      (3 * table_index3D (cell 2 0) (cell 2 0) (cell 2 0) 2 (2 * 2)
                       + 0)).
Proof.
  split; [reflexivity|]. eexists. split; [vm_compute; reflexivity|].
  vm_compute. discriminate.
Qed.

(** ** C5: the fourth byte of an output pixel *)

(** X21.  As the source stands, the store of a pixel (line 185) writes the
    four bytes of a 32-bit word whose high byte is 0: for every call with
    [table_channels = 3] that passes the checks and whose loads and stores
    stay in their buffers, the fourth byte of every output pixel is 0 after
    the call, whatever it was before. *)
Theorem fourth_band_zeroed size1D size2D size3D table imOut imIn :
  valid_call 3 imOut imIn = true ->
  buffers_ok imOut imIn = true ->
  table_ok 3 size1D size2D size3D table = true ->
  exists im',
    ImagingColorLUT3D_linear 3 size1D size2D size3D table imOut imIn
    = Some (RetImOut, im')
    /\ forall x y,
         (y < Z.to_nat (ysize imOut))%nat -> 0 <= x < xsize imOut ->
         image_byte im' x y 3 = 0.
Proof.
  intros Hv Hb Ht.
  destruct (call_pixels size1D size2D size3D table imOut imIn Hv Hb Ht)
    as (im' & E & Px).
  exists im'. split; [exact E|]. intros x y Hy Hx.
  pose proof Hb as Hb'. unfold buffers_ok in Hb'. apply andb_prop in Hb'.
  destruct Hb' as [Hout _].
  destruct (rows_ok_spec _ _ _ _ Hout y Hy) as (ro & Ero & _).
  rewrite (Px y ro x 3%nat Hy Ero Hx) by lia.
  unfold row_pixel, ref_pixel. cbn [nthz nth]. rewrite ref_rounded_3. reflexivity.
Qed.

(** A 4-band image of one pixel. *)
Lemma fourth_band_zeroed_witness :
  exists im',
    ImagingColorLUT3D_linear 3 2 2 2 identity_table rgba_out_1x1
      (Other rgba_in_1x1) = Some (RetImOut, im')
    /\ forall x y, (y < 1)%nat -> 0 <= x < 1 -> image_byte im' x y 3 = 0.
Proof.
  apply (fourth_band_zeroed 2 2 2 identity_table rgba_out_1x1 (Other rgba_in_1x1));
    reflexivity.
Defined.

(** C5, the code at a failing input.  The output image and the input image
    have 4 bands, as the check of lines 113-116 asks for when the table has
    3 channels.  The fourth byte of the output pixel is 77 before the call
    and that of the input pixel is 40; after the call it is 0. *)
Theorem fourth_band_not_kept :
  exists im',
    ImagingColorLUT3D_linear 3 2 2 2 identity_table rgba_out_1x1
      (Other rgba_in_1x1) = Some (RetImOut, im')
    /\ bands rgba_out_1x1 = 4 /\ bands rgba_in_1x1 = 4
    /\ image_pixel rgba_in_1x1 0 0 = [10; 20; 30; 40]
    /\ image_pixel rgba_out_1x1 0 0 = [1; 2; 3; 77]
    /\ image_byte im' 0 0 3 = 0.
Proof. eexists. split; [vm_compute; reflexivity|]. repeat split. Qed.

(** ** C4: four table channels *)

Lemma set_image_same im : set_image im (image im) = im.
Proof. destruct im. reflexivity. Qed.

(** X22.  As the source stands, the four-channel block is commented out:
    for every call with [table_channels = 4] that passes the checks and
    whose loads stay in their buffers, no pixel is written and the output
    image is returned as it was. *)
Theorem four_channels_write_nothing size1D size2D size3D table imOut imIn :
  valid_call 4 imOut imIn = true ->
  buffers_ok imOut imIn = true ->
  ImagingColorLUT3D_linear 4 size1D size2D size3D table imOut imIn
  = Some (RetImOut, imOut).
Proof.
  intros Hv Hb.
  destruct (call_spec 4 size1D size2D size3D table imOut imIn Hv Hb)
    as (rows' & E & L & Out & In'); [discriminate|].
  rewrite E. do 2 f_equal. rewrite <- (set_image_same imOut) at 2. f_equal.
  apply nth_error_ext. intros y.
  destruct (Nat.ltb_spec y (Z.to_nat (ysize imOut))) as [Hy|Hy]; [|auto].
  unfold buffers_ok in Hb. apply andb_prop in Hb. destruct Hb as [Hout _].
  destruct (rows_ok_spec _ _ _ _ Hout y Hy) as (ro & Ero & _).
  rewrite (In' y ro Hy Ero), Ero. reflexivity.
Qed.

(** A 4-band image of one pixel and a four-channel table. *)
Lemma four_channels_write_nothing_witness :
  ImagingColorLUT3D_linear 4 2 2 2 white_table4 rgba_out_1x1 (Other rgba_in_1x1)
  = Some (RetImOut, rgba_out_1x1).
Proof.
  apply (four_channels_write_nothing 2 2 2 white_table4 rgba_out_1x1
           (Other rgba_in_1x1)); reflexivity.
Defined.

(** C4, the code at a failing input.  With a four-channel table whose
    elements are all [255 << PRECISION_BITS], the four-channel blend of
    lines 188-205 gives (255, 255, 255, 255) for the pixel; the call returns
    the output image with the pixel (1, 2, 3, 77) it had before. *)
Theorem four_channels_not_interpolated :
  exists im',
    ImagingColorLUT3D_linear 4 2 2 2 white_table4 rgba_out_1x1 (Other rgba_in_1x1)
    = Some (RetImOut, im')
    /\ scalar_lut4 white_table4
         (row_idx 4 2 2 2 (nth 0 (image rgba_in_1x1) []))
         2 (2 * 2)
         (frac (e0 (row_index 2 2 2 (nth 0 (image rgba_in_1x1) []))))
         (frac (e1 (row_index 2 2 2 (nth 0 (image rgba_in_1x1) []))))
         (frac (e2 (row_index 2 2 2 (nth 0 (image rgba_in_1x1) []))))
       = [255; 255; 255; 255]
    /\ image_pixel rgba_out_1x1 0 0 = [1; 2; 3; 77]
    /\ image_pixel im' 0 0 = [1; 2; 3; 77].
Proof.
  eexists. split; [vm_compute; reflexivity|].
  split; [vm_compute; reflexivity|]. split; reflexivity.
Qed.

(** ** C2: the two errors *)

Lemma valid_call_spec tc imOut imIn :
  valid_call tc imOut imIn = true
  <-> ~ invalid_argument tc /\ ~ mode_mismatch tc imOut imIn.
Proof.
  unfold valid_call, invalid_argument, mode_mismatch. cbv zeta.
  rewrite !andb_true_iff, orb_true_iff, !pixel_type_eqb_spec, !Z.leb_le.
  destruct (type (the_input imOut imIn)), (type imOut);
    split; intros H; intuition (try congruence; try lia).
Qed.

Lemma call_cases tc size1D size2D size3D table imOut imIn :
  (invalid_argument tc
   /\ ImagingColorLUT3D_linear tc size1D size2D size3D table imOut imIn
      = Some (RetNull ValueError, imOut))
  \/ (~ invalid_argument tc /\ mode_mismatch tc imOut imIn
      /\ ImagingColorLUT3D_linear tc size1D size2D size3D table imOut imIn
         = Some (RetNull ModeError, imOut))
  \/ (valid_call tc imOut imIn = true
      /\ ImagingColorLUT3D_linear tc size1D size2D size3D table imOut imIn
         = (rows <- for_y tc size1D size2D size3D table imIn (xsize imOut)
                      (Z.to_nat (ysize imOut)) 0 (image imOut) ;;
            Some (RetImOut, set_image imOut rows))).
Proof.
  destruct (valid_call tc imOut imIn) eqn:V.
  - right. right. split; [reflexivity|]. apply valid_call_runs. exact V.
  - assert (N : ~ (~ invalid_argument tc /\ ~ mode_mismatch tc imOut imIn))
      by (rewrite <- valid_call_spec; congruence).
    unfold ImagingColorLUT3D_linear, invalid_argument, mode_mismatch in *.
    cbv zeta in *. set (im := the_input imOut imIn) in *.
    destruct (Z.ltb_spec tc 3); [left; split; [lia|reflexivity]|].
    destruct (Z.gtb_spec tc 4); [left; split; [lia|reflexivity]|].
    right. left. cbn [orb].
    destruct (pixel_type_eqb (type im) IMAGING_TYPE_UINT8) eqn:T1; cbn [negb orb];
      [apply pixel_type_eqb_spec in T1
      |split; [lia|]; split; [|reflexivity]; left; intros C;
       apply pixel_type_eqb_spec in C; congruence].
    destruct (pixel_type_eqb (type imOut) IMAGING_TYPE_UINT8) eqn:T2; cbn [negb orb];
      [apply pixel_type_eqb_spec in T2
      |split; [lia|]; split; [|reflexivity]; right; left; intros C;
       apply pixel_type_eqb_spec in C; congruence].
    destruct (Z.ltb_spec (bands im) 3); cbn [orb];
      [split; [lia|]; split; [tauto|reflexivity]|].
    destruct (Z.ltb_spec (bands imOut) tc);
      [split; [lia|]; split; [tauto|reflexivity]|].
    destruct (Z.gtb_spec (bands imOut) tc), (Z.gtb_spec (bands imOut) (bands im));
      cbn [andb]; try (exfalso; apply N; split; [lia|]; intros C;
                        repeat destruct C as [C|C]; try contradiction; lia).
    split; [lia|]. split; [|reflexivity]. do 4 right. lia.
Qed.

(** C2, amended.  The call fails with the value error (InvalidArgument)
    if and only if [table_channels] is outside {3,4}.  It fails with the mode
    error (ModeMismatch) if and only if [table_channels] is in {3,4} and a
    pixel type is not 8-bit-unsigned, or the input has fewer than 3 bands, or
    the output has fewer than [table_channels] bands, or the output has more
    bands than [table_channels] and than the input.  On every failing call
    the output image is unmodified.  On every passing call whose loads and
    stores stay inside their buffers the output image is returned, with the
    same number of rows. *)
Theorem error_behaviour tc size1D size2D size3D table imOut imIn :
  (ImagingColorLUT3D_linear tc size1D size2D size3D table imOut imIn
   = Some (RetNull ValueError, imOut) <-> invalid_argument tc)
  /\ (ImagingColorLUT3D_linear tc size1D size2D size3D table imOut imIn
      = Some (RetNull ModeError, imOut)
      <-> ~ invalid_argument tc /\ mode_mismatch tc imOut imIn)
  /\ (forall e im',
        ImagingColorLUT3D_linear tc size1D size2D size3D table imOut imIn
        = Some (RetNull e, im') -> im' = imOut)
  /\ (~ invalid_argument tc -> ~ mode_mismatch tc imOut imIn ->
      buffers_ok imOut imIn = true ->
      (tc = 3 -> table_ok 3 size1D size2D size3D table = true) ->
      exists rows,
        ImagingColorLUT3D_linear tc size1D size2D size3D table imOut imIn
        = Some (RetImOut, set_image imOut rows)
        /\ length rows = length (image imOut)).
Proof.
  destruct (call_cases tc size1D size2D size3D table imOut imIn)
    as [(I & E)|[(I & M & E)|(V & E)]].
  - rewrite E. split; [|split; [|split]].
    + tauto.
    + split; [congruence | tauto].
    + congruence.
    + tauto.
  - rewrite E. split; [|split; [|split]].
    + split; [congruence | tauto].
    + tauto.
    + congruence.
    + tauto.
  - pose proof (proj1 (valid_call_spec tc imOut imIn) V) as (I & M).
    assert (NoNull : forall e im',
              ImagingColorLUT3D_linear tc size1D size2D size3D table imOut imIn
              <> Some (RetNull e, im')).
    { intros e im'. rewrite E.
      destruct (for_y tc size1D size2D size3D table imIn (xsize imOut)
                  (Z.to_nat (ysize imOut)) 0 (image imOut)); cbn [bind]; congruence. }
    split; [|split; [|split]].
    + split; [intros C; exfalso; apply (NoNull _ _ C) | tauto].
    + split; [intros C; exfalso; apply (NoNull _ _ C) | tauto].
    + intros e im' C. exfalso. apply (NoNull _ _ C).
    + intros _ _ Hb Ht.
      destruct (call_spec tc size1D size2D size3D table imOut imIn V Hb Ht)
        as (rows & Er & L & _). exists rows. split; assumption.
Qed.

(** A passing call on a 2x1 image. *)
Lemma error_behaviour_witness :
  exists rows,
    ImagingColorLUT3D_linear 3 2 2 2 identity_table out_2x1 (Other black_then_white)
    = Some (RetImOut, set_image out_2x1 rows)
    /\ length rows = length (image out_2x1).
Proof.
  apply (proj2 (proj2 (proj2 (error_behaviour 3 2 2 2 identity_table out_2x1
                                 (Other black_then_white))))).
  - unfold invalid_argument. lia.
  - apply (proj2 (proj1 (valid_call_spec 3 out_2x1 (Other black_then_white))
                    eq_refl)).
  - reflexivity.
  - reflexivity.
Defined.

(** C2 as stated fails: with [table_channels = 2] and an input image that is
    not 8-bit-unsigned, the mode-mismatch condition of the claim holds, and
    the call fails with the value error, not with the mode error. *)
Lemma mode_error_needs_valid_channels :
  mode_mismatch 2 out_1x1 (Other int32_1x1)
  /\ ImagingColorLUT3D_linear 2 2 2 2 identity_table out_1x1 (Other int32_1x1)
     = Some (RetNull ValueError, out_1x1)
  /\ ImagingColorLUT3D_linear 2 2 2 2 identity_table out_1x1 (Other int32_1x1)
     <> Some (RetNull ModeError, out_1x1).
Proof.
  split; [left; discriminate|]. split; [reflexivity|]. discriminate.
Qed.

(** ** C10: the load one pixel ahead *)

Lemma slice_bounds buf off n l :
  slice buf off n = Some l -> 0 <= off /\ off + Z.of_nat n <= Z.of_nat (length buf).
Proof.
  unfold slice.
  destruct (Z.leb_spec 0 off); [|discriminate].
  destruct (Z.leb_spec (off + Z.of_nat n) (Z.of_nat (length buf))); [|discriminate].
  intros _. split; assumption.
Qed.

Lemma store_u32_length buf x v buf' :
  store_u32 buf x v = Some buf' -> length buf' = length buf.
Proof.
  intros E. assert (S : exists l, slice buf (4 * x) 4 = Some l).
  { unfold store_u32 in E. destruct (slice buf (4 * x) 4); [eauto|discriminate]. }
  destruct S as (l & S). apply slice_bounds in S.
  rewrite store_u32_put in E by lia.
  assert (buf' = put buf x (lane_bytes (u32 v))) by congruence. subst buf'.
  apply put_length; [lia | lia | reflexivity].
Qed.

Lemma pixel_length tc size1D size2D size3D table rowIn idx index x rowOut r :
  pixel tc size1D size2D size3D table rowIn idx index x rowOut = Some r ->
  length r = length rowOut.
Proof.
  unfold pixel.
  destruct (load_si128 _ _); cbn [bind]; [|discriminate].
  destruct (tc =? 3); [|congruence].
  destruct (lut3 _ _ _ _ _); cbn [bind]; [|discriminate].
  apply store_u32_length.
Qed.

Lemma pixel_faults tc size1D size2D size3D table rowIn idx index x rowOut :
  Z.of_nat (length (match rowIn with Some r => r | None => rowOut end))
    < x * 4 + 4 + 16 ->
  pixel tc size1D size2D size3D table rowIn idx index x rowOut = None.
Proof.
  intros H. unfold pixel. rewrite load_si128_none by lia. reflexivity.
Qed.

Lemma for_x_faults tc size1D size2D size3D table rowIn idx index n :
  forall x rowOut,
    Z.of_nat (length (match rowIn with Some r => r | None => rowOut end))
      < 4 * (x + Z.of_nat (S n)) + 16 ->
    for_x tc size1D size2D size3D table rowIn idx index (S n) x rowOut = None.
Proof.
  induction n as [|n IH]; intros x rowOut H.
  - cbn [for_x]. rewrite pixel_faults by lia. reflexivity.
  - change (for_x tc size1D size2D size3D table rowIn idx index (S (S n)) x rowOut)
      with (rowOut' <- pixel tc size1D size2D size3D table rowIn idx index x rowOut ;;
            for_x tc size1D size2D size3D table rowIn idx index (S n) (x + 1) rowOut').
    destruct (pixel tc size1D size2D size3D table rowIn idx index x rowOut)
      as [r|] eqn:E; cbn [bind]; [|reflexivity].
    apply IH. apply pixel_length in E.
    destruct rowIn; [lia|]. rewrite E. lia.
Qed.

Lemma row_faults tc size1D size2D size3D table rowIn width rowOut :
  0 < width ->
  Z.of_nat (length (match rowIn with Some r => r | None => rowOut end))
    < 4 * width + 16 ->
  row tc size1D size2D size3D table rowIn width rowOut = None.
Proof.
  intros Hw H. unfold row. destruct (load_si128 _ 0); cbn [bind]; [|reflexivity].
  destruct (Z.to_nat width) as [|n] eqn:En; [lia|].
  apply for_x_faults. lia.
Qed.

Lemma pixel_runs tc size1D size2D size3D table rowIn idx index x rowOut :
  0 <= x ->
  (tc = 3 -> lut3 size1D size2D table idx index <> None
             /\ 4 * x + 4 <= Z.of_nat (length rowOut)) ->
  x * 4 + 4 + 16
    <= Z.of_nat (length (match rowIn with Some r => r | None => rowOut end)) ->
  pixel tc size1D size2D size3D table rowIn idx index x rowOut <> None.
Proof.
  intros Hx Hr Hin. unfold pixel.
  destruct (load_si128_some (match rowIn with Some r => r | None => rowOut end)
              (x * 4 + 4)) as (v & -> & _); [lia|lia|].
  cbn [bind]. destruct (Z.eqb_spec tc 3) as [E|E]; [|discriminate].
  destruct (Hr E) as [Hl Ho].
  destruct (lut3 size1D size2D table idx index) as [r|]; [|contradiction].
  cbn [bind]. rewrite store_u32_put by lia. discriminate.
Qed.

Lemma for_y_rows_run tc size1D size2D size3D table imIn width n :
  forall y rows rows',
    for_y tc size1D size2D size3D table imIn width n y rows = Some rows' ->
    forall y', (y <= y' < y + n)%nat ->
    exists ri ro,
      input_row imIn y' = Some ri /\ nth_error rows y' = Some ro
      /\ row tc size1D size2D size3D table ri width ro <> None.
Proof.
  induction n as [|n IH]; intros y rows rows' E y' Hy'; [lia|].
  cbn [for_y] in E.
  destruct (input_row imIn y) as [ri|] eqn:Ei; cbn [bind] in E; [|discriminate].
  destruct (nth_error rows y) as [ro|] eqn:Er; cbn [bind] in E; [|discriminate].
  destruct (row tc size1D size2D size3D table ri width ro) as [ro'|] eqn:Erow;
    cbn [bind] in E; [|discriminate].
  destruct (Nat.eq_dec y' y) as [->|Hne].
  - exists ri, ro. rewrite Erow. repeat split; trivial. discriminate.
  - destruct (IH (S y) _ _ E y') as (ri' & ro'' & A & B & C); [lia|].
    exists ri', ro''. split; [exact A|]. split; [|exact C].
    rewrite nth_error_set_row_other in B; trivial.
    apply nth_error_Some. congruence.
Qed.

Lemma rows_ok_intro slack width height :
  forall rows,
    (forall y, (y < height)%nat ->
       exists r, nth_error rows y = Some r
                 /\ 4 * Z.max 0 width + slack <= Z.of_nat (length r)) ->
    rows_ok slack width height rows = true.
Proof.
  unfold rows_ok. induction height as [|h IH]; intros rows H; [reflexivity|].
  destruct (H 0%nat) as (r & E & B); [lia|].
  destruct rows as [|r0 rs]; [discriminate|].
  cbn [nth_error] in E. injection E as ->.
  assert (Q : forall y, (y < h)%nat ->
            exists r', nth_error rs y = Some r'
                       /\ 4 * Z.max 0 width + slack <= Z.of_nat (length r')).
  { intros y Hy. apply (H (S y)). lia. }
  specialize (IH rs Q). apply andb_prop in IH. destruct IH as [I1 I2].
  cbn [firstn forallb length]. apply andb_true_intro. split.
  - apply Nat.leb_le. apply Nat.leb_le in I1. lia.
  - apply andb_true_intro. split; [apply Z.leb_le; exact B | exact I2].
Qed.

(** C10.  The turn of the loop for pixel [x] loads 16 bytes of the input row
    at [&rowIn[x*4 + 4]]: when the rest of the turn stays in its buffers, the
    turn stays in its buffers exactly when the bytes up to [x*4 + 4 + 15] are
    in the input row.  For the last pixel, [x = xsize - 1], the load starts
    at byte [4 * xsize], after the last pixel of the row, so a row with at
    least one pixel is processed without leaving its buffers exactly when
    16 bytes can be read after its pixels, and so is a call.  Every call
    that passes the checks on an image with at least one pixel leaves the
    buffer when its first input row holds fewer than those bytes.  The
    value that the load brings is not used: a turn gives the same result
    for any two input rows that hold the 16 bytes. *)
Theorem prefetch_reads_past_row tc size1D size2D size3D table :
  (forall rowIn idx index x rowOut,
     0 <= x ->
     (tc = 3 -> lut3 size1D size2D table idx index <> None
                /\ 4 * x + 4 <= Z.of_nat (length rowOut)) ->
     (pixel tc size1D size2D size3D table rowIn idx index x rowOut <> None
      <-> x * 4 + 4 + 16
          <= Z.of_nat (length (match rowIn with Some r => r | None => rowOut end))))
  /\ (forall rowIn width rowOut,
        0 < width ->
        (tc = 3 -> table_ok 3 size1D size2D size3D table = true) ->
        4 * width <= Z.of_nat (length rowOut) ->
        (width - 1) * 4 + 4 = 4 * width
        /\ (row tc size1D size2D size3D table rowIn width rowOut <> None
            <-> 4 * width + 16
                <= Z.of_nat (length (match rowIn with
                                     | Some r => r | None => rowOut end))))
  /\ (forall imOut imIn,
        valid_call tc imOut imIn = true ->
        (tc = 3 -> table_ok 3 size1D size2D size3D table = true) ->
        0 < xsize imOut ->
        rows_ok 0 (xsize imOut) (Z.to_nat (ysize imOut)) (image imOut) = true ->
        (ImagingColorLUT3D_linear tc size1D size2D size3D table imOut imIn <> None
         <-> rows_ok 16 (xsize imOut) (Z.to_nat (ysize imOut))
                     (image (the_input imOut imIn)) = true))
  /\ (forall imOut imIn,
        valid_call tc imOut imIn = true ->
        0 < xsize imOut -> 0 < ysize imOut ->
        (forall r, nth_error (image (the_input imOut imIn)) 0 = Some r ->
                   Z.of_nat (length r) < 4 * xsize imOut + 16) ->
        ImagingColorLUT3D_linear tc size1D size2D size3D table imOut imIn = None)
  /\ (forall r r' idx index x rowOut,
        0 <= x ->
        x * 4 + 4 + 16 <= Z.of_nat (length r) ->
        x * 4 + 4 + 16 <= Z.of_nat (length r') ->
        pixel tc size1D size2D size3D table (Some r) idx index x rowOut
        = pixel tc size1D size2D size3D table (Some r') idx index x rowOut).
Proof.
  split; [|split; [|split; [|split]]].
  - intros rowIn idx index x rowOut Hx Hr. split.
    + intros Hp.
      destruct (Z_lt_le_dec
                  (Z.of_nat (length (match rowIn with
                                     | Some r => r | None => rowOut end)))
                  (x * 4 + 4 + 16)) as [Hs|Hs]; [|exact Hs].
      exfalso. apply Hp. apply pixel_faults. exact Hs.
    + apply pixel_runs; assumption.
  - intros rowIn width rowOut Hw Ht Hout. split; [lia|]. split.
    + intros Hp.
      destruct (Z_lt_le_dec
                  (Z.of_nat (length (match rowIn with
                                     | Some r => r | None => rowOut end)))
                  (4 * width + 16)) as [Hs|Hs]; [|exact Hs].
      exfalso. apply Hp. apply row_faults; assumption.
    + intros Hin. rewrite row_spec; [discriminate | exact Ht | lia | lia].
  - intros imOut imIn Hv Ht Hx Hout. split.
    + intros Hc. rewrite valid_call_runs in Hc by exact Hv.
      destruct (for_y tc size1D size2D size3D table imIn (xsize imOut)
                  (Z.to_nat (ysize imOut)) 0 (image imOut)) as [rows'|] eqn:E;
        [|contradiction].
      apply rows_ok_intro. intros y Hy.
      destruct (for_y_rows_run _ _ _ _ _ _ _ _ _ _ _ E y) as (ri & ro & A & B & C);
        [lia|].
      assert (L : 4 * xsize imOut + 16
                  <= Z.of_nat (length (match ri with
                                       | Some r => r | None => ro end))).
      { destruct (Z_lt_le_dec
                    (Z.of_nat (length (match ri with
                                       | Some r => r | None => ro end)))
                    (4 * xsize imOut + 16)) as [Hs|Hs]; [|exact Hs].
        exfalso. apply C. apply row_faults; assumption. }
      destruct imIn as [|im]; cbn [input_row the_input] in *.
      * injection A as <-. exists ro. split; [exact B | lia].
      * destruct (nth_error (image im) y) as [r|]; cbn [bind] in A;
          [|discriminate].
        injection A as <-. exists r. split; [reflexivity | lia].
    + intros Hin.
      assert (Hb : buffers_ok imOut imIn = true).
      { unfold buffers_ok. rewrite Hout, Hin. reflexivity. }
      destruct (call_spec tc size1D size2D size3D table imOut imIn Hv Hb Ht)
        as (rows' & -> & _). discriminate.
  - intros imOut imIn Hv Hx Hy Hr. rewrite valid_call_runs by assumption.
    destruct (Z.to_nat (ysize imOut)) as [|n] eqn:En; [lia|].
    cbn [for_y].
    destruct imIn as [|im]; cbn [input_row the_input bind] in *.
    + destruct (nth_error (image imOut) 0) as [ro|] eqn:Ero; cbn [bind];
        [|reflexivity].
      rewrite row_faults; trivial. apply Hr. reflexivity.
    + destruct (nth_error (image im) 0) as [ri|] eqn:Eri; cbn [bind];
        [|reflexivity].
      destruct (nth_error (image imOut) 0) as [ro|] eqn:Ero; cbn [bind];
        [|reflexivity].
      rewrite row_faults; trivial. apply Hr. reflexivity.
  - intros r r' idx index x rowOut Hx Hr Hr'. unfold pixel.
    destruct (load_si128_some r (x * 4 + 4)) as (v & -> & _); [lia|lia|].
    destruct (load_si128_some r' (x * 4 + 4)) as (v' & -> & _); [lia|lia|].
    reflexivity.
Qed.

(** A 4x1 input image whose row holds 12 bytes after its 4 pixels: the line
    123 load and the turns for [x = 0, 1, 2] have their 16 bytes, the turn
    for the last pixel does not. *)
Lemma prefetch_reads_past_row_witness :
  pixel 3 2 2 2 identity_table (Some (four_pixels ++ repeat 0 12)) 0 black 2
        (repeat 9 16) <> None
  /\ pixel 3 2 2 2 identity_table (Some (four_pixels ++ repeat 0 12)) 0 black 3
           (repeat 9 16) = None
  /\ ImagingColorLUT3D_linear 3 2 2 2 identity_table out_4x1 (Other slack12_4x1)
     = None.
Proof.
  pose proof (prefetch_reads_past_row 3 2 2 2 identity_table) as (P & _ & C & _).
  assert (L : forall x, 0 <= x < 4 ->
            3 = 3 -> lut3 2 2 identity_table 0 black <> None
                     /\ 4 * x + 4 <= Z.of_nat (length (repeat 9 16))).
  { intros x Hx _. split; [vm_compute; discriminate|].
    change (Z.of_nat (length (repeat 9 16))) with 16. lia. }
  split; [|split].
  - apply (proj2 (P (Some (four_pixels ++ repeat 0 12)) 0 black 2 (repeat 9 16)
                      ltac:(lia) (L 2 ltac:(lia)))).
    vm_compute. discriminate.
  - destruct (pixel 3 2 2 2 identity_table (Some (four_pixels ++ repeat 0 12))
                0 black 3 (repeat 9 16)) as [r|] eqn:E; [|reflexivity].
    exfalso.
    assert (Q : 3 * 4 + 4 + 16
                <= Z.of_nat (length (four_pixels ++ repeat 0 12))).
    { apply (proj1 (P (Some (four_pixels ++ repeat 0 12)) 0 black 3 (repeat 9 16)
                        ltac:(lia) (L 3 ltac:(lia)))).
      rewrite E. discriminate. }
    vm_compute in Q. apply Q. reflexivity.
  - destruct (ImagingColorLUT3D_linear 3 2 2 2 identity_table out_4x1
                (Other slack12_4x1)) as [r|] eqn:E; [|reflexivity].
    exfalso.
    assert (Q : rows_ok 16 (xsize out_4x1) (Z.to_nat (ysize out_4x1))
                  (image (the_input out_4x1 (Other slack12_4x1))) = true).
    { apply (proj1 (C out_4x1 (Other slack12_4x1) eq_refl (fun _ => eq_refl)
                        ltac:(simpl; lia) eq_refl)).
      rewrite E. discriminate. }
    vm_compute in Q. discriminate.
Defined.

(** The last 16-byte load of a pixel of the top cell reaches two elements
    past the last node of the table: with a table buffer of exactly
    [3 * 2 * 2 * 2] elements the call fails. *)
Example table_load_needs_two_more_elements :
  ImagingColorLUT3D_linear 3 2 2 2 (repeat 0 24) out_1x1 (Other one_black_pixel)
  = None.
Proof. vm_compute. reflexivity. Qed.

(** ** C6: the identity table *)

(** C6, the code at a failing input.  With the 2x2x2 identity table and the
    input row (0, 0, 0), (255, 255, 255), the output pixel at column 1 is
    (0, 0, 0): it is the value computed for column 0, 255 levels away from
    its input. *)
Theorem identity_table_second_pixel :
  exists im',
    ImagingColorLUT3D_linear 3 2 2 2 identity_table out_2x1 (Other black_then_white)
    = Some (RetImOut, im')
    /\ image_pixel black_then_white 1 0 = [255; 255; 255; 255]
    /\ image_pixel im' 0 0 = [0; 0; 0; 0]
    /\ image_pixel im' 1 0 = [0; 0; 0; 0].
Proof. eexists. split; [vm_compute; reflexivity|]. repeat split. Qed.

(** ** C9: two calls that agree on a pixel *)

(** C9, the code at a failing input.  Two input rows that hold the same
    pixel (255, 255, 255) at column 1 and differ at column 0 give different
    output pixels at column 1. *)
Theorem second_pixel_depends_on_first :
  exists im1 im2,
    ImagingColorLUT3D_linear 3 2 2 2 identity_table out_2x1 (Other black_then_white)
    = Some (RetImOut, im1)
    /\ ImagingColorLUT3D_linear 3 2 2 2 identity_table out_2x1
         (Other white_then_white) = Some (RetImOut, im2)
    /\ image_pixel black_then_white 1 0 = image_pixel white_then_white 1 0
    /\ image_pixel im1 1 0 = [0; 0; 0; 0]
    /\ image_pixel im2 1 0 = [255; 255; 255; 0].
Proof.
  eexists. eexists. split; [vm_compute; reflexivity|].
  split; [vm_compute; reflexivity|]. repeat split.
Qed.

(** * Further properties *)

(** ** The scalar helpers *)

Lemma s32_fits a : - 2 ^ 31 <= a < 2 ^ 31 -> s32 a = a.
Proof.
  intros H. unfold s32. cbv zeta.
  destruct (Z.ltb_spec (a mod 2 ^ 32) (2 ^ 31)); Z.div_mod_to_equations; lia.
Qed.

(** X1.  On a grid whose number of nodes [size1D * size2D * size3D] fits an
    [int], the [int] arithmetic of line 53 (and of line 87 for
    [size1D_2D]) does not overflow: with every product and sum wrapped to
    32 bits the result is the value of [table_index3D].  It numbers the
    nodes without gaps or clashes: the flat index of a node lies in
    [0, size1D * size2D * size3D) and the node is recovered from it by
    division. *)
Theorem table_index3D_round_trip size1D size2D size3D i j k :
  0 <= i < size1D -> 0 <= j < size2D -> 0 <= k < size3D ->
  size1D * size2D * size3D < 2 ^ 31 ->
  s32 (size1D * size2D) = size1D * size2D
  /\ s32 (s32 (i + s32 (j * size1D)) + s32 (k * s32 (size1D * size2D)))
     = table_index3D i j k size1D (size1D * size2D)
  /\ 0 <= table_index3D i j k size1D (size1D * size2D) < size1D * size2D * size3D
  /\ node_of_index (table_index3D i j k size1D (size1D * size2D)) size1D size2D
     = (i, j, k).
Proof.
  intros Hi Hj Hk Hn. unfold table_index3D, node_of_index.
  assert (E1 : (i + j * size1D + k * (size1D * size2D)) mod size1D = i).
  { replace (i + j * size1D + k * (size1D * size2D))
      with (i + (j + k * size2D) * size1D) by lia.
    rewrite Z_mod_plus_full. apply Z.mod_small. lia. }
  assert (E2 : (i + j * size1D + k * (size1D * size2D)) / size1D = j + k * size2D).
  { replace (i + j * size1D + k * (size1D * size2D))
      with (i + (j + k * size2D) * size1D) by lia.
    rewrite Z_div_plus_full by lia. rewrite Z.div_small by lia. lia. }
  assert (E3 : (i + j * size1D + k * (size1D * size2D)) / (size1D * size2D) = k).
  { replace (i + j * size1D + k * (size1D * size2D))
      with (i + j * size1D + k * (size1D * size2D)) by lia.
    rewrite Z_div_plus_full by nia. rewrite Z.div_small by nia. lia. }
  assert (B1 : 0 <= j * size1D <= (size2D - 1) * size1D) by nia.
  assert (B2 : 0 <= k * (size1D * size2D) <= (size3D - 1) * (size1D * size2D))
    by nia.
  assert (B3 : 0 < size1D * size2D <= size1D * size2D * size3D) by nia.
  split; [apply s32_fits; lia|]. split.
  - rewrite (s32_fits (size1D * size2D)) by lia.
    rewrite (s32_fits (j * size1D)) by lia.
    rewrite (s32_fits (k * (size1D * size2D))) by lia.
    rewrite (s32_fits (i + j * size1D)) by lia.
    apply s32_fits. lia.
  - split; [lia|]. rewrite E1, E2, E3.
    rewrite Z_mod_plus_full, Z.mod_small by lia. reflexivity.
Qed.

Lemma table_index3D_round_trip_witness :
  s32 (65 * 65) = 65 * 65
  /\ s32 (s32 (64 + s32 (3 * 65)) + s32 (7 * s32 (65 * 65)))
     = table_index3D 64 3 7 65 (65 * 65)
  /\ 0 <= table_index3D 64 3 7 65 (65 * 65) < 65 * 65 * 65
  /\ node_of_index (table_index3D 64 3 7 65 (65 * 65)) 65 65 = (64, 3, 7).
Proof. apply (table_index3D_round_trip 65 65 65 64 3 7); lia. Defined.

Lemma interpolate1_between a b shift :
  int16 a -> int16 b -> 0 <= shift < 2 ^ 15 ->
  Z.min a b <= interpolate1 a b shift <= Z.max a b.
Proof.
  unfold int16. intros Ha Hb Hs. unfold interpolate1.
  change (Z.shiftl 1 SHIFT_BITS) with (2 ^ 15). change SHIFT_BITS with 15.
  rewrite Z.shiftr_div_pow2 by lia.
  assert (B : Z.min a b * 2 ^ 15 <= a * (2 ^ 15 - shift) + b * shift
              <= Z.max a b * 2 ^ 15) by nia.
  assert (Z.min a b <= (a * (2 ^ 15 - shift) + b * shift) / 2 ^ 15 <= Z.max a b)
    by (Z.div_mod_to_equations; lia).
  rewrite s16_small; lia.
Qed.

Lemma interpolate1_exact a b shift :
  int16 a -> interpolate1 a b 0 = a /\ interpolate1 a a shift = a.
Proof.
  unfold int16. intros Ha. unfold interpolate1.
  change (Z.shiftl 1 SHIFT_BITS) with (2 ^ 15). change SHIFT_BITS with 15.
  rewrite !Z.shiftr_div_pow2 by lia.
  replace (a * (2 ^ 15 - 0) + b * 0) with (a * 2 ^ 15) by lia.
  replace (a * (2 ^ 15 - shift) + a * shift) with (a * 2 ^ 15) by lia.
  rewrite Z_div_mult by lia. rewrite s16_small by lia. auto.
Qed.

(** X2.  For INT16 vectors and a shift in [0, 2^15), each component of
    [interpolate3] lies between the two components it blends: the blend
    never overshoots, and its store into an INT16 does not wrap. *)
Theorem interpolate3_between a b shift i :
  (forall c, int16 (nthz a c) /\ int16 (nthz b c)) ->
  0 <= shift < 2 ^ 15 -> (i < 3)%nat ->
  length (interpolate3 a b shift) = 3%nat
  /\ Z.min (nthz a i) (nthz b i) <= nthz (interpolate3 a b shift) i
     <= Z.max (nthz a i) (nthz b i).
Proof.
  intros H Hs Hi. split; [reflexivity|].
  destruct i as [|[|[|i]]]; try lia; unfold interpolate3;
    apply interpolate1_between; trivial; apply H.
Qed.

Lemma interpolate3_between_witness :
  Z.min 100 (-7) <= nthz (interpolate3 [100; 0; 5] [-7; 0; 9] 12345) 0
  <= Z.max 100 (-7).
Proof.
  apply (interpolate3_between [100; 0; 5] [-7; 0; 9] 12345 0).
  - intros [|[|[|c]]]; cbn; unfold int16; try lia. destruct c; cbn; lia.
  - lia.
  - lia.
Defined.

(** X3.  [interpolate3] returns its first vector when the shift is 0, and
    returns the common vector when the two vectors are equal, whatever the
    shift. *)
Theorem interpolate3_exact a0 a1 a2 b shift :
  int16 a0 -> int16 a1 -> int16 a2 ->
  interpolate3 [a0; a1; a2] b 0 = [a0; a1; a2]
  /\ interpolate3 [a0; a1; a2] [a0; a1; a2] shift = [a0; a1; a2].
Proof.
  intros H0 H1 H2. unfold interpolate3, nthz. cbn [nth].
  rewrite (proj1 (interpolate1_exact a0 (nth 0 b 0) shift H0)),
          (proj1 (interpolate1_exact a1 (nth 1 b 0) shift H1)),
          (proj1 (interpolate1_exact a2 (nth 2 b 0) shift H2)).
  rewrite (proj2 (interpolate1_exact a0 0 shift H0)),
          (proj2 (interpolate1_exact a1 0 shift H1)),
          (proj2 (interpolate1_exact a2 0 shift H2)).
  auto.
Qed.

Lemma interpolate3_exact_witness :
  interpolate3 [16320; 0; -5] [1; 2; 3] 0 = [16320; 0; -5]
  /\ interpolate3 [16320; 0; -5] [16320; 0; -5] 777 = [16320; 0; -5].
Proof. apply (interpolate3_exact 16320 0 (-5) [1; 2; 3] 777); unfold int16; lia. Defined.

(** X4.  [interpolate4] has the same two properties on four components:
    each component lies between the two it blends, the first vector is
    returned at shift 0 and a common vector is returned unchanged; its
    first three components are those of [interpolate3]. *)
Theorem interpolate4_between_exact a0 a1 a2 a3 b shift i :
  int16 a0 -> int16 a1 -> int16 a2 -> int16 a3 ->
  (forall c, int16 (nthz b c)) -> 0 <= shift < 2 ^ 15 -> (i < 4)%nat ->
  Z.min (nthz [a0; a1; a2; a3] i) (nthz b i)
    <= nthz (interpolate4 [a0; a1; a2; a3] b shift) i
    <= Z.max (nthz [a0; a1; a2; a3] i) (nthz b i)
  /\ interpolate4 [a0; a1; a2; a3] b 0 = [a0; a1; a2; a3]
  /\ interpolate4 [a0; a1; a2; a3] [a0; a1; a2; a3] shift = [a0; a1; a2; a3]
  /\ firstn 3 (interpolate4 [a0; a1; a2; a3] b shift)
     = interpolate3 [a0; a1; a2; a3] b shift.
Proof.
  intros H0 H1 H2 H3 Hb Hs Hi. split; [|split; [|split]].
  - destruct i as [|[|[|[|i]]]]; try lia; unfold interpolate4, nthz; cbn [nth];
      apply interpolate1_between; trivial; apply Hb.
  - unfold interpolate4, nthz. cbn [nth].
    rewrite (proj1 (interpolate1_exact a0 (nth 0 b 0) shift H0)),
            (proj1 (interpolate1_exact a1 (nth 1 b 0) shift H1)),
            (proj1 (interpolate1_exact a2 (nth 2 b 0) shift H2)),
            (proj1 (interpolate1_exact a3 (nth 3 b 0) shift H3)).
    reflexivity.
  - unfold interpolate4, nthz. cbn [nth].
    rewrite (proj2 (interpolate1_exact a0 0 shift H0)),
            (proj2 (interpolate1_exact a1 0 shift H1)),
            (proj2 (interpolate1_exact a2 0 shift H2)),
            (proj2 (interpolate1_exact a3 0 shift H3)).
    reflexivity.
  - reflexivity.
Qed.

Lemma interpolate4_between_exact_witness :
  interpolate4 [1; 2; 3; 4] [5; 6; 7; 8] 0 = [1; 2; 3; 4].
Proof.
  apply (interpolate4_between_exact 1 2 3 4 [5; 6; 7; 8] 0 0);
    unfold int16; try lia.
  intros [|[|[|[|c]]]]; cbn; try lia. destruct c; cbn; lia.
Defined.



(** X6.  [clip8] undoes the scaling by [2^PRECISION_BITS] and rounds to the
    nearest level: for a level [v] in [0,255] and an offset [d] in
    [-PRECISION_ROUNDING, PRECISION_ROUNDING), [clip8 ((v << PRECISION_BITS) + d)]
    is [v]. *)
Theorem clip8_rounds_to_nearest v d :
  0 <= v <= 255 -> - PRECISION_ROUNDING <= d < PRECISION_ROUNDING ->
  clip8 (Z.shiftl v PRECISION_BITS + d) = v.
Proof.
  change PRECISION_ROUNDING with 32. intros Hv Hd.
  unfold clip8, clip8_lookups, sat_u8.
  change PRECISION_ROUNDING with 32. change PRECISION_BITS with 6.
  rewrite Z.shiftl_mul_pow2, Z.shiftr_div_pow2 by lia.
  assert ((v * 2 ^ 6 + d + 32) / 2 ^ 6 = v) by (Z.div_mod_to_equations; lia).
  lia.
Qed.

Lemma clip8_rounds_to_nearest_witness : clip8 (Z.shiftl 255 PRECISION_BITS + 31) = 255.
Proof. apply (clip8_rounds_to_nearest 255 31); cbn; lia. Defined.

(** ** The scale and the weights *)

Lemma cell_ends_table :
  forallb (fun s => (cell s 0 =? 0) && (cell s 255 =? s - 2)) sizes_2_65 = true.
Proof. vm_compute. reflexivity. Qed.

Lemma cell_ends size :
  valid_size size -> cell size 0 = 0 /\ cell size 255 = size - 2.
Proof.
  intros H. pose proof cell_ends_table as T. rewrite forallb_forall in T.
  specialize (T size (valid_size_In size H)).
  rewrite andb_true_iff, !Z.eqb_eq in T. exact T.
Qed.

(** X7.  For every grid size in [2,65] the scale computed in double
    precision (lines 88-91) is exactly the integer quotient
    [(size - 1) * 2^SCALE_BITS / 255].  The cell index grows with the
    channel value, is 0 for the value 0 and reaches [size - 2], the last
    cell, for the value 255. *)
Theorem scale_exact_cells_tight size :
  valid_size size ->
  scale_of size = (size - 1) * 2 ^ SCALE_BITS / 255
  /\ cell size 0 = 0 /\ cell size 255 = size - 2
  /\ forall p q, 0 <= p <= q -> cell size p <= cell size q.
Proof.
  intros H. destruct (scale_of_closed size H) as (E & P & _).
  destruct (cell_ends size H) as (C0 & C1).
  split; [exact E|]. split; [exact C0|]. split; [exact C1|].
  intros p q Hpq. unfold cell, coord. change SCALE_BITS with 18.
  rewrite !Z.shiftr_div_pow2 by lia. apply Z.div_le_mono; [lia|nia].
Qed.

Lemma scale_exact_cells_tight_witness :
  scale_of 33 = (33 - 1) * 2 ^ SCALE_BITS / 255 /\ cell 33 255 = 33 - 2.
Proof.
  destruct (scale_exact_cells_tight 33) as (E & _ & C & _);
    [unfold valid_size; lia|].
  split; [exact E | exact C].
Defined.

Lemma lane_words_word_lane a b : lane_words (word_lane a b) = [u16 a; u16 b].
Proof.
  unfold lane_words. rewrite shiftr16_word_lane. f_equal.
  - unfold word_lane, u16. rewrite Z.mul_comm, Z_mod_plus_full. apply Z.mod_mod. lia.
  - f_equal. unfold u16. apply Z.mod_mod. lia.
Qed.

(** X8.  Whatever the index register, each 32-bit lane of the weights
    (lines 135-143) holds the weight [frac] of the upper node in its high
    16 bits and [2^SHIFT_BITS - 1 - frac] in its low 16 bits: the two
    weights of an axis are non-negative, fit a signed 16-bit lane and add
    up to [2^SHIFT_BITS - 1]. *)
Theorem weights_halves index :
  words (weights index)
  = flat_map (fun x => [Z.shiftl 1 SHIFT_BITS - 1 - frac x; frac x]) (lanes index)
  /\ forall x, 0 <= frac x < Z.shiftl 1 SHIFT_BITS.
Proof.
  split; [|exact frac_range].
  rewrite weights_spec. unfold words, lanes. cbn [flat_map e0 e1 e2 e3 app].
  unfold wlane. rewrite !lane_words_word_lane. cbn [app].
  change (Z.shiftl 1 SHIFT_BITS) with (2 ^ 15).
  pose proof (frac_range (e0 index)). pose proof (frac_range (e1 index)).
  pose proof (frac_range (e2 index)). pose proof (frac_range (e3 index)).
  unfold u16. rewrite !Z.mod_small by lia. reflexivity.
Qed.

(** ** The same image as input and output *)

Lemma load_si128_success buf buf' off :
  length buf' = length buf ->
  (exists v, load_si128 buf off = Some v) ->
  exists v', load_si128 buf' off = Some v'.
Proof.
  intros L (v & E). unfold load_si128 in *.
  destruct (slice buf off 16) as [l|] eqn:S; [|discriminate].
  apply slice_bounds in S. rewrite slice_some by lia. cbn [bind]. eauto.
Qed.

Lemma pixel_input_length tc size1D size2D size3D table r1 r2 idx index x rowOut :
  length (match r1 with Some r => r | None => rowOut end)
  = length (match r2 with Some r => r | None => rowOut end) ->
  pixel tc size1D size2D size3D table r1 idx index x rowOut
  = pixel tc size1D size2D size3D table r2 idx index x rowOut.
Proof.
  intros L. unfold pixel.
  set (b1 := match r1 with Some r => r | None => rowOut end) in *.
  set (b2 := match r2 with Some r => r | None => rowOut end) in *.
  destruct (load_si128 b1 (x * 4 + 4)) as [v1|] eqn:E1.
  - destruct (load_si128_success b1 b2 (x * 4 + 4) (eq_sym L) (ex_intro _ v1 E1))
      as (v2 & ->). reflexivity.
  - destruct (load_si128 b2 (x * 4 + 4)) as [v2|] eqn:E2; [|reflexivity].
    destruct (load_si128_success b2 b1 (x * 4 + 4) L (ex_intro _ v2 E2))
      as (v1 & E). congruence.
Qed.

Lemma for_x_input_length tc size1D size2D size3D table r idx index n :
  forall x rowOut,
    length r = length rowOut ->
    for_x tc size1D size2D size3D table None idx index n x rowOut
    = for_x tc size1D size2D size3D table (Some r) idx index n x rowOut.
Proof.
  induction n as [|n IH]; intros x rowOut L; [reflexivity|].
  cbn [for_x].
  rewrite (pixel_input_length tc size1D size2D size3D table None (Some r))
    by (symmetry; exact L).
  destruct (pixel tc size1D size2D size3D table (Some r) idx index x rowOut)
    as [ro'|] eqn:E; cbn [bind]; [|reflexivity].
  apply IH. apply pixel_length in E. congruence.
Qed.

Lemma row_same_buffer tc size1D size2D size3D table width rowOut :
  row tc size1D size2D size3D table None width rowOut
  = row tc size1D size2D size3D table (Some rowOut) width rowOut.
Proof.
  unfold row. destruct (load_si128 rowOut 0); cbn [bind]; [|reflexivity].
  apply for_x_input_length. reflexivity.
Qed.

Lemma for_y_same_image tc size1D size2D size3D table im width n :
  forall y rows,
    (forall y', (y <= y')%nat -> nth_error rows y' = nth_error (image im) y') ->
    for_y tc size1D size2D size3D table SameAsOut width n y rows
    = for_y tc size1D size2D size3D table (Other im) width n y rows.
Proof.
  induction n as [|n IH]; intros y rows H; [reflexivity|].
  cbn [for_y input_row bind]. rewrite <- (H y) by lia.
  destruct (nth_error rows y) as [ro|] eqn:E; cbn [bind]; [|reflexivity].
  rewrite row_same_buffer.
  destruct (row tc size1D size2D size3D table (Some ro) width ro) as [ro'|];
    cbn [bind]; [|reflexivity].
  apply IH. intros y' Hy'. rewrite <- H by lia.
  apply nth_error_set_row_other; [|lia].
  apply nth_error_Some. congruence.
Qed.

(** X9.  The two images may be the same object: a call whose input is the
    output image itself gives the same result (error, fault or output
    image) as a call whose input is a separate copy of the output image as
    it was before the call. *)
Theorem in_place_same_result tc size1D size2D size3D table imOut :
  ImagingColorLUT3D_linear tc size1D size2D size3D table imOut SameAsOut
  = ImagingColorLUT3D_linear tc size1D size2D size3D table imOut (Other imOut).
Proof.
  unfold ImagingColorLUT3D_linear. cbn [the_input].
  rewrite (for_y_same_image tc size1D size2D size3D table imOut); reflexivity.
Qed.

(** ** What a call leaves untouched *)

Lemma fill_length px n : forall x r,
  0 <= x -> 4 * (x + Z.of_nat n) <= Z.of_nat (length r) -> length px = 4%nat ->
  length (fill px n x r) = length r.
Proof.
  induction n as [|n IH]; intros x r Hx Hlen Hpx; [reflexivity|].
  cbn [fill]. rewrite IH; rewrite ?put_length; lia.
Qed.

Lemma nthz_fill_beyond px n r i :
  4 * Z.of_nat n <= Z.of_nat (length r) -> length px = 4%nat ->
  4 * Z.of_nat n <= Z.of_nat i ->
  nthz (fill px n 0 r) i = nthz r i.
Proof.
  intros Hlen Hpx Hi.
  pose proof (row_byte_fill_out px n 0 r (Z.of_nat i / 4) (Z.to_nat (Z.of_nat i mod 4)))
    as E.
  unfold row_byte in E.
  replace (Z.to_nat (4 * (Z.of_nat i / 4)) + Z.to_nat (Z.of_nat i mod 4))%nat
    with i in E by (Z.div_mod_to_equations; lia).
  apply E; try lia; Z.div_mod_to_equations; lia.
Qed.

Lemma nth_of_nth_error (l l' : list (list Z)) y :
  nth_error l y = nth_error l' y -> nth y l [] = nth y l' [].
Proof.
  intros E. destruct (nth_error l y) as [r|] eqn:E1.
  - rewrite (nth_error_nth _ _ [] E1). symmetry. apply nth_error_nth. congruence.
  - rewrite (nth_overflow l) by (apply nth_error_None; exact E1).
    symmetry. apply nth_overflow. apply nth_error_None. congruence.
Qed.

(** X10.  A call that passes the checks and stays inside its buffers returns
    the output image with the same type, bands and size, the same number of
    rows and the same row lengths.  It writes only the [xsize] pixels of the
    first [ysize] rows: every byte after those pixels in a row, and every
    row from [ysize] on, is as before the call. *)
Theorem call_frame tc size1D size2D size3D table imOut imIn :
  valid_call tc imOut imIn = true ->
  buffers_ok imOut imIn = true ->
  (tc = 3 -> table_ok 3 size1D size2D size3D table = true) ->
  exists im',
    ImagingColorLUT3D_linear tc size1D size2D size3D table imOut imIn
    = Some (RetImOut, im')
    /\ (type im', bands im', xsize im', ysize im')
       = (type imOut, bands imOut, xsize imOut, ysize imOut)
    /\ length (image im') = length (image imOut)
    /\ (forall y, length (nth y (image im') []) = length (nth y (image imOut) []))
    /\ (forall y i,
          (Z.to_nat (ysize imOut) <= y)%nat \/ 4 * xsize imOut <= Z.of_nat i ->
          nthz (nth y (image im') []) i = nthz (nth y (image imOut) []) i).
Proof.
  intros Hv Hb Ht.
  destruct (call_spec tc size1D size2D size3D table imOut imIn Hv Hb Ht)
    as (rows' & E & L & Out & In').
  exists (set_image imOut rows'). split; [exact E|]. split; [reflexivity|].
  split; [exact L|]. cbn [set_image image].
  unfold buffers_ok in Hb. apply andb_prop in Hb. destruct Hb as [Hout _].
  pose proof (rows_ok_spec _ _ _ _ Hout) as Ro.
  assert (Row : forall y, (y < Z.to_nat (ysize imOut))%nat ->
            exists ro, nth y (image imOut) [] = ro
              /\ 4 * Z.max 0 (xsize imOut) <= Z.of_nat (length ro)
              /\ nth y rows' []
                 = row_after tc size1D size2D size3D table (in_row imIn y ro)
                             (xsize imOut) ro).
  { intros y Hy. destruct (Ro y Hy) as (ro & Ero & Lo). exists ro.
    split; [apply nth_error_nth; exact Ero|]. split; [lia|].
    apply nth_error_nth. apply In'; assumption. }
  split.
  - intros y. destruct (Nat.ltb_spec y (Z.to_nat (ysize imOut))) as [Hy|Hy].
    + destruct (Row y Hy) as (ro & <- & Lo & ->). unfold row_after.
      destruct (tc =? 3); [|reflexivity].
      apply fill_length; [lia | lia | reflexivity].
    + rewrite (nth_of_nth_error rows' (image imOut) y (Out y Hy)). reflexivity.
  - intros y i H. destruct (Nat.ltb_spec y (Z.to_nat (ysize imOut))) as [Hy|Hy].
    + destruct H as [H|H]; [lia|].
      destruct (Row y Hy) as (ro & <- & Lo & ->). unfold row_after.
      destruct (tc =? 3); [|reflexivity].
      apply nthz_fill_beyond; [lia | reflexivity | lia].
    + rewrite (nth_of_nth_error rows' (image imOut) y (Out y Hy)). reflexivity.
Qed.

Lemma call_frame_witness :
  exists im',
    ImagingColorLUT3D_linear 3 2 2 2 identity_table out_2x1 (Other black_then_white)
    = Some (RetImOut, im')
    /\ length (image im') = length (image out_2x1).
Proof.
  destruct (call_frame 3 2 2 2 identity_table out_2x1 (Other black_then_white))
    as (im' & E & _ & L & _); try reflexivity.
  exists im'. split; [exact E | exact L].
Defined.

(** ** The pixels that a call writes *)

Lemma row_pixel_bytes size1D size2D size3D table r r' :
  valid_size size1D -> valid_size size2D -> valid_size size3D ->
  (forall d, (d < 3)%nat -> u8 (row_byte r 0 d) = u8 (row_byte r' 0 d)) ->
  row_pixel size1D size2D size3D table r = row_pixel size1D size2D size3D table r'.
Proof.
  intros H1 H2 H3 E. unfold row_pixel.
  rewrite !row_idx_cells, !row_index_lanes by assumption.
  rewrite !E by lia. reflexivity.
Qed.

(** X11.  On a call with [table_channels = 3] that passes the checks and
    stays inside its buffers, the output pixel at column 0 of each row is the
    nested blend of the eight nodes around the first pixel of the input row:
    its three channels are the scalar formula with lower weight
    [(1 << SHIFT_BITS) - 1 - shift], taken at the node and the weights of
    that pixel, and its fourth byte is 0. *)
Theorem first_column_is_trilinear size1D size2D size3D table imOut imIn y ro :
  valid_call 3 imOut imIn = true ->
  buffers_ok imOut imIn = true ->
  table_ok 3 size1D size2D size3D table = true ->
  (y < Z.to_nat (ysize imOut))%nat -> 0 < xsize imOut ->
  nth_error (image imOut) y = Some ro ->
  let p d := u8 (row_byte (in_row imIn y ro) 0 d) in
  exists im',
    ImagingColorLUT3D_linear 3 size1D size2D size3D table imOut imIn
    = Some (RetImOut, im')
    /\ image_pixel im' 0 y
       = scalar_lut3_biased table
           (3 * table_index3D (cell size1D (p 0%nat)) (cell size2D (p 1%nat))
                              (cell size3D (p 2%nat)) size1D (size1D * size2D))
           size1D (size1D * size2D)
           (frac (coord size1D (p 0%nat))) (frac (coord size2D (p 1%nat)))
           (frac (coord size3D (p 2%nat)))
         ++ [0].
Proof.
  intros Hv Hb Ht Hy Hx Ero p.
  destruct (call_pixels size1D size2D size3D table imOut imIn Hv Hb Ht)
    as (im' & E & Px).
  exists im'. split; [exact E|].
  destruct (table_ok_spec _ _ _ _ _ Ht) as (H1 & H2 & H3 & Hlen).
  pose proof (row_index_lanes size1D size2D size3D (in_row imIn y ro) H1 H2 H3) as Ei.
  pose proof (row_idx_cells 3 size1D size2D size3D (in_row imIn y ro) H1 H2 H3) as Ex.
  fold (p 0%nat) in Ei, Ex. fold (p 1%nat) in Ei, Ex. fold (p 2%nat) in Ei, Ex.
  pose proof (cell_index_bounds size1D size2D size3D _ _ _ H1 H2 H3
                (u8_le (row_byte (in_row imIn y ro) 0 0))
                (u8_le (row_byte (in_row imIn y ro) 0 1))
                (u8_le (row_byte (in_row imIn y ro) 0 2))) as B.
  fold (p 0%nat) in B. fold (p 1%nat) in B. fold (p 2%nat) in B.
  rewrite <- Ex.
  pose proof (ref_pixel_scalar table size1D size2D
                (row_idx 3 size1D size2D size3D (in_row imIn y ro))
                (row_index size1D size2D size3D (in_row imIn y ro))) as S.
  rewrite Ei in S at 2 3 4. cbn [e0 e1 e2] in S.
  rewrite <- S by (unfold valid_size in *; lia).
  unfold image_pixel. cbn [seq map].
  rewrite !(Px y ro 0 _ Hy Ero) by lia.
  unfold row_pixel, ref_pixel. cbn [nthz nth firstn app].
  rewrite ref_rounded_3. reflexivity.
Qed.

Lemma first_column_is_trilinear_witness :
  exists im',
    ImagingColorLUT3D_linear 3 2 2 2 identity_table rgba_out_1x1
      (Other rgba_in_1x1) = Some (RetImOut, im')
    /\ image_pixel im' 0 0
       = scalar_lut3_biased identity_table
           (3 * table_index3D (cell 2 (u8 10)) (cell 2 (u8 20)) (cell 2 (u8 30))
                              2 (2 * 2))
           2 (2 * 2) (frac (coord 2 (u8 10))) (frac (coord 2 (u8 20)))
           (frac (coord 2 (u8 30)))
         ++ [0].
Proof.
  apply (first_column_is_trilinear 2 2 2 identity_table rgba_out_1x1
           (Other rgba_in_1x1) 0%nat (1 :: 2 :: 3 :: 77 :: repeat 0 16));
    try reflexivity. vm_compute. lia.
Defined.

(** X12.  As the source stands, the loop over [x] does not advance the
    index: on a call with [table_channels = 3] that passes the checks and
    stays inside its buffers, every pixel of an output row equals the pixel
    at column 0 of that row. *)
Theorem row_pixels_all_equal size1D size2D size3D table imOut imIn :
  valid_call 3 imOut imIn = true ->
  buffers_ok imOut imIn = true ->
  table_ok 3 size1D size2D size3D table = true ->
  exists im',
    ImagingColorLUT3D_linear 3 size1D size2D size3D table imOut imIn
    = Some (RetImOut, im')
    /\ forall x y,
         (y < Z.to_nat (ysize imOut))%nat -> 0 <= x < xsize imOut ->
         image_pixel im' x y = image_pixel im' 0 y.
Proof.
  intros Hv Hb Ht.
  destruct (call_pixels size1D size2D size3D table imOut imIn Hv Hb Ht)
    as (im' & E & Px).
  exists im'. split; [exact E|]. intros x y Hy Hx.
  pose proof Hb as Hb'. unfold buffers_ok in Hb'. apply andb_prop in Hb'.
  destruct Hb' as [Hout _].
  destruct (rows_ok_spec _ _ _ _ Hout y Hy) as (ro & Ero & _).
  unfold image_pixel. cbn [seq map].
  rewrite !(Px y ro x _ Hy Ero), !(Px y ro 0 _ Hy Ero) by lia. reflexivity.
Qed.

Lemma row_pixels_all_equal_witness :
  exists im',
    ImagingColorLUT3D_linear 3 2 2 2 identity_table out_2x1 (Other black_then_white)
    = Some (RetImOut, im')
    /\ image_pixel im' 1 0 = image_pixel im' 0 0.
Proof.
  destruct (row_pixels_all_equal 2 2 2 identity_table out_2x1
              (Other black_then_white)) as (im' & E & P); try reflexivity.
  exists im'. split; [exact E|]. apply P; [vm_compute; lia | cbn; lia].
Defined.

(** X13.  The result of a call depends on the input image only through the
    first three bytes of each of its rows: two calls on the same output
    image and table, both passing the checks and staying inside their
    buffers, whose input rows start with the same three channel values,
    return the same image. *)
Theorem result_depends_on_row_starts tc size1D size2D size3D table imOut imIn1 imIn2 :
  valid_call tc imOut imIn1 = true -> valid_call tc imOut imIn2 = true ->
  buffers_ok imOut imIn1 = true -> buffers_ok imOut imIn2 = true ->
  (tc = 3 -> table_ok 3 size1D size2D size3D table = true) ->
  (forall y ro d,
     (y < Z.to_nat (ysize imOut))%nat -> nth_error (image imOut) y = Some ro ->
     (d < 3)%nat ->
     u8 (row_byte (in_row imIn1 y ro) 0 d) = u8 (row_byte (in_row imIn2 y ro) 0 d)) ->
  ImagingColorLUT3D_linear tc size1D size2D size3D table imOut imIn1
  = ImagingColorLUT3D_linear tc size1D size2D size3D table imOut imIn2.
Proof.
  intros Hv1 Hv2 Hb1 Hb2 Ht Hp.
  destruct (call_spec tc size1D size2D size3D table imOut imIn1 Hv1 Hb1 Ht)
    as (rows1 & E1 & L1 & Out1 & In1).
  destruct (call_spec tc size1D size2D size3D table imOut imIn2 Hv2 Hb2 Ht)
    as (rows2 & E2 & L2 & Out2 & In2).
  rewrite E1, E2. do 3 f_equal. apply nth_error_ext. intros y.
  destruct (Nat.ltb_spec y (Z.to_nat (ysize imOut))) as [Hy|Hy].
  - unfold buffers_ok in Hb1. apply andb_prop in Hb1. destruct Hb1 as [Hout _].
    destruct (rows_ok_spec _ _ _ _ Hout y Hy) as (ro & Ero & _).
    rewrite (In1 y ro Hy Ero), (In2 y ro Hy Ero). f_equal. unfold row_after.
    destruct (Z.eqb_spec tc 3) as [T|T]; [|reflexivity].
    destruct (table_ok_spec _ _ _ _ _ (Ht T)) as (H1 & H2 & H3 & _).
    rewrite (row_pixel_bytes size1D size2D size3D table
               (in_row imIn1 y ro) (in_row imIn2 y ro)); trivial.
    intros d Hd. apply Hp; assumption.
  - rewrite Out1, Out2 by assumption. reflexivity.
Qed.

Lemma result_depends_on_row_starts_witness :
  ImagingColorLUT3D_linear 3 2 2 2 identity_table out_2x1 (Other black_then_white)
  = ImagingColorLUT3D_linear 3 2 2 2 identity_table out_2x1
      (Other (image_of 3 2 [[0; 0; 0; 7; 1; 2; 3; 4]])).
Proof.
  apply (result_depends_on_row_starts 3 2 2 2 identity_table out_2x1
           (Other black_then_white)
           (Other (image_of 3 2 [[0; 0; 0; 7; 1; 2; 3; 4]]))); try reflexivity.
  intros y ro d Hy _ Hd. assert (y = 0%nat) by (cbn in Hy; lia). subst y.
  destruct d as [|[|[|d]]]; try lia; reflexivity.
Defined.

(** ** A table with a single value *)

Lemma firstn_forallb_nth (P : Z -> bool) n (table : list Z) i :
  forallb P (firstn (Z.to_nat n) table) = true ->
  n <= Z.of_nat (length table) -> 0 <= i < n ->
  P (nthz table (Z.to_nat i)) = true.
Proof.
  intros H Hn Hi. rewrite forallb_forall in H. apply H.
  unfold nthz.
  replace (nth (Z.to_nat i) table 0)
    with (nth (Z.to_nat i) (firstn (Z.to_nat n) table) 0).
  - apply nth_In. rewrite length_firstn. lia.
  - rewrite nth_firstn.
    destruct (Nat.ltb_spec (Z.to_nat i) (Z.to_nat n)); [reflexivity|lia].
Qed.

Lemma lerp_same a f : lerp a a f = lerp a a 0.
Proof. unfold lerp. f_equal. lia. Qed.

(** The eight nodes around a pixel, channel by channel, lie in the grid. *)
Lemma elems_in_grid (P : Z -> Prop) table size1D size2D size3D rowIn :
  valid_size size1D -> valid_size size2D -> valid_size size3D ->
  (forall i, 0 <= i < 3 * (size1D * size2D * size3D) ->
     P (s16 (nthz table (Z.to_nat i)))) ->
  forall o c, 0 <= o <= size1D * size2D * 3 + size1D * 3 + 3 -> (c < 3)%nat ->
    P (elem table (row_idx 3 size1D size2D size3D rowIn + o) c).
Proof.
  intros H1 H2 H3 Hp o c Ho Hc.
  pose proof (row_idx_cells 3 size1D size2D size3D rowIn H1 H2 H3) as Ex.
  pose proof (cell_index_bounds size1D size2D size3D _ _ _ H1 H2 H3
                (u8_le (row_byte rowIn 0 0)) (u8_le (row_byte rowIn 0 1))
                (u8_le (row_byte rowIn 0 2))) as B.
  set (base := table_index3D _ _ _ _ _) in *.
  unfold elem, chan3. destruct (Nat.ltb_spec c 3); [|lia].
  replace (Z.to_nat (row_idx 3 size1D size2D size3D rowIn + o) + c)%nat
    with (Z.to_nat (row_idx 3 size1D size2D size3D rowIn + o + Z.of_nat c)) by lia.
  apply Hp. unfold valid_size in *. lia.
Qed.

(** X14.  When every element of the grid has the same INT16 value [t], a
    call with [table_channels = 3] that passes the checks and stays inside
    its buffers fills the three channels of every output pixel with
    [(t + PRECISION_ROUNDING - 3) >> PRECISION_BITS] saturated to [0,255],
    whatever the input pixels. *)
Theorem constant_table_constant_image t size1D size2D size3D table imOut imIn :
  valid_call 3 imOut imIn = true ->
  buffers_ok imOut imIn = true ->
  table_ok 3 size1D size2D size3D table = true ->
  int16 t ->
  constant_table t (3 * (size1D * size2D * size3D)) table = true ->
  exists im',
    ImagingColorLUT3D_linear 3 size1D size2D size3D table imOut imIn
    = Some (RetImOut, im')
    /\ forall x y c,
         (y < Z.to_nat (ysize imOut))%nat -> 0 <= x < xsize imOut -> (c < 3)%nat ->
         image_byte im' x y c
         = sat_u8 (Z.shiftr (t + PRECISION_ROUNDING - 3) PRECISION_BITS).
Proof.
  intros Hv Hb Ht Hi Hc.
  destruct (call_pixels size1D size2D size3D table imOut imIn Hv Hb Ht)
    as (im' & E & Px).
  exists im'. split; [exact E|]. intros x y c Hy Hx Hc3.
  pose proof Hb as Hb'. unfold buffers_ok in Hb'. apply andb_prop in Hb'.
  destruct Hb' as [Hout _].
  destruct (rows_ok_spec _ _ _ _ Hout y Hy) as (ro & Ero & _).
  rewrite (Px y ro x c Hy Ero Hx) by lia.
  destruct (table_ok_spec _ _ _ _ _ Ht) as (H1 & H2 & H3 & Hlen).
  assert (El : forall o c, 0 <= o <= size1D * size2D * 3 + size1D * 3 + 3 ->
             (c < 3)%nat ->
             elem table (row_idx 3 size1D size2D size3D (in_row imIn y ro) + o) c = t).
  { apply (elems_in_grid (fun v => v = t)); trivial. intros i Hi'.
    pose proof (firstn_forallb_nth (Z.eqb t) _ table i Hc ltac:(lia) Hi') as Q.
    apply Z.eqb_eq in Q. rewrite <- Q. apply s16_small. exact Hi. }
  unfold row_pixel.
  set (idx := row_idx 3 size1D size2D size3D (in_row imIn y ro)) in *.
  set (index := row_index size1D size2D size3D (in_row imIn y ro)) in *.
  assert (S1 : 0 <= size1D) by (unfold valid_size in *; lia).
  assert (S2 : 0 <= size2D) by (unfold valid_size in *; lia).
  assert (S12 : 0 <= size1D * size2D) by nia.
  assert (Hsel : nthz (ref_pixel table size1D size2D idx index) c
                 = sat_u8 (ref_rounded table size1D size2D idx index c)).
  { destruct c as [|[|[|c]]]; try lia; reflexivity. }
  rewrite Hsel.
  unfold ref_rounded, ref_blend3, ref_left, ref_right, ref_leftleft,
    ref_leftright, ref_rightleft, ref_rightright.
  replace (idx + 0 + 3) with (idx + 3) by lia.
  replace (idx + size1D * size2D * 3 + size1D * 3 + 3)
    with (idx + (size1D * size2D * 3 + size1D * 3 + 3)) by lia.
  replace (idx + size1D * size2D * 3 + size1D * 3)
    with (idx + (size1D * size2D * 3 + size1D * 3)) by lia.
  replace (idx + size1D * size2D * 3 + 3)
    with (idx + (size1D * size2D * 3 + 3)) by lia.
  replace (idx + size1D * size2D * 3) with (idx + (size1D * size2D * 3)) by lia.
  replace (idx + size1D * 3 + 3) with (idx + (size1D * 3 + 3)) by lia.
  replace (idx + size1D * 3) with (idx + (size1D * 3)) by lia.
  rewrite !El by lia.
  rewrite (lerp_same t (f1 index)), (lerp_same (lerp t t 0) (f2 index)).
  replace (lerp (lerp t t 0) (lerp t t 0) 0 * (2 ^ 15 - 1 - f3 index)
           + lerp (lerp t t 0) (lerp t t 0) 0 * f3 index)
    with (lerp (lerp t t 0) (lerp t t 0) 0 * (2 ^ 15 - 1 - 0)
          + lerp (lerp t t 0) (lerp t t 0) 0 * 0) by lia.
  exact (corner_value t t (lerp t t 0) (lerp (lerp t t 0) (lerp t t 0) 0) Hi).
Qed.

Lemma constant_table_constant_image_witness :
  exists im',
    ImagingColorLUT3D_linear 3 2 2 2 (flat_table 8000) out_2x1
      (Other black_then_white) = Some (RetImOut, im')
    /\ forall x y c,
         (y < 1)%nat -> 0 <= x < 2 -> (c < 3)%nat ->
         image_byte im' x y c
         = sat_u8 (Z.shiftr (8000 + PRECISION_ROUNDING - 3) PRECISION_BITS).
Proof.
  apply (constant_table_constant_image 8000 2 2 2 (flat_table 8000) out_2x1
           (Other black_then_white)); try reflexivity. unfold int16. lia.
Defined.

(** ** The output stays within the values of the table *)

Lemma lerp_bounds lo hi a b f :
  0 <= lo <= 2 ^ 15 -> lo <= a <= hi -> lo <= b <= hi -> 0 <= f < 2 ^ 15 ->
  Z.max 0 (lo - 1) <= lerp a b f <= hi.
Proof.
  intros Hlo Ha Hb Hf. rewrite lerp_eq.
  assert (lo * (2 ^ 15 - 1) <= a * (2 ^ 15 - 1 - f) + b * f <= hi * (2 ^ 15 - 1))
    by nia.
  Z.div_mod_to_equations. lia.
Qed.

Lemma rounded_bounds lo hi acc :
  0 <= lo < 2 ^ 15 ->
  Z.max 0 (lo - 2) * (2 ^ 15 - 1) <= acc <= hi * (2 ^ 15 - 1) ->
  sat_u8 (Z.shiftr (lo + PRECISION_ROUNDING - 3) PRECISION_BITS)
  <= sat_u8 (Z.shiftr (Z.shiftl PRECISION_ROUNDING SHIFT_BITS + acc)
                      (PRECISION_BITS + SHIFT_BITS))
  <= sat_u8 (Z.shiftr (hi + PRECISION_ROUNDING) PRECISION_BITS).
Proof.
  intros Hlo H.
  change (Z.shiftl PRECISION_ROUNDING SHIFT_BITS) with (2 ^ 20).
  change (PRECISION_BITS + SHIFT_BITS) with 21.
  change PRECISION_ROUNDING with 32. change PRECISION_BITS with 6.
  rewrite !Z.shiftr_div_pow2 by lia.
  assert (A : (lo - 2) * (2 ^ 15 - 1) <= acc) by lia.
  assert (A0 : 0 <= acc) by lia.
  destruct H as [_ H].
  assert ((lo + 32 - 3) / 2 ^ 6 <= (2 ^ 20 + acc) / 2 ^ 21 <= (hi + 32) / 2 ^ 6)
    by (split; Z.div_mod_to_equations; lia).
  unfold sat_u8. lia.
Qed.

(** X15.  The interpolation does not leave the range of the table: when the
    elements of the grid lie in [lo, hi] with [0 <= lo], a call with
    [table_channels = 3] that passes the checks and stays inside its buffers
    gives every channel of every output pixel a value between
    [(lo + PRECISION_ROUNDING - 3) >> PRECISION_BITS] and
    [(hi + PRECISION_ROUNDING) >> PRECISION_BITS], both saturated to
    [0,255]. *)
Theorem output_within_table_range lo hi size1D size2D size3D table imOut imIn :
  valid_call 3 imOut imIn = true ->
  buffers_ok imOut imIn = true ->
  table_ok 3 size1D size2D size3D table = true ->
  0 <= lo -> hi < 2 ^ 15 ->
  stored_between lo hi (3 * (size1D * size2D * size3D)) table = true ->
  exists im',
    ImagingColorLUT3D_linear 3 size1D size2D size3D table imOut imIn
    = Some (RetImOut, im')
    /\ forall x y c,
         (y < Z.to_nat (ysize imOut))%nat -> 0 <= x < xsize imOut -> (c < 3)%nat ->
         sat_u8 (Z.shiftr (lo + PRECISION_ROUNDING - 3) PRECISION_BITS)
         <= image_byte im' x y c
         <= sat_u8 (Z.shiftr (hi + PRECISION_ROUNDING) PRECISION_BITS).
Proof.
  intros Hv Hb Ht Hlo Hhi Hs.
  destruct (call_pixels size1D size2D size3D table imOut imIn Hv Hb Ht)
    as (im' & E & Px).
  exists im'. split; [exact E|]. intros x y c Hy Hx Hc3.
  pose proof Hb as Hb'. unfold buffers_ok in Hb'. apply andb_prop in Hb'.
  destruct Hb' as [Hout _].
  destruct (rows_ok_spec _ _ _ _ Hout y Hy) as (ro & Ero & _).
  rewrite (Px y ro x c Hy Ero Hx) by lia.
  destruct (table_ok_spec _ _ _ _ _ Ht) as (H1 & H2 & H3 & Hlen).
  assert (El : forall o c, 0 <= o <= size1D * size2D * 3 + size1D * 3 + 3 ->
             (c < 3)%nat ->
             lo <= elem table (row_idx 3 size1D size2D size3D (in_row imIn y ro) + o) c
             <= hi).
  { apply (elems_in_grid (fun v => lo <= v <= hi)); trivial. intros i Hi'.
    pose proof (firstn_forallb_nth _ _ table i Hs ltac:(lia) Hi') as Q.
    cbv beta in Q. rewrite andb_true_iff, !Z.leb_le in Q.
    rewrite s16_small; lia. }
  unfold row_pixel.
  set (idx := row_idx 3 size1D size2D size3D (in_row imIn y ro)) in *.
  set (index := row_index size1D size2D size3D (in_row imIn y ro)) in *.
  assert (S1 : 0 <= size1D) by (unfold valid_size in *; lia).
  assert (S2 : 0 <= size2D) by (unfold valid_size in *; lia).
  assert (S12 : 0 <= size1D * size2D) by nia.
  assert (Hsel : nthz (ref_pixel table size1D size2D idx index) c
                 = sat_u8 (ref_rounded table size1D size2D idx index c)).
  { destruct c as [|[|[|c]]]; try lia; reflexivity. }
  rewrite Hsel.
  pose proof (frac_range (e0 index)) as F1.
  pose proof (frac_range (e1 index)) as F2.
  pose proof (frac_range (e2 index)) as F3.
  assert (Hlh : lo <= hi) by (specialize (El 0 0%nat ltac:(lia) ltac:(lia)); lia).
  assert (Hlo' : 0 <= lo <= 2 ^ 15) by lia.
  assert (LL : Z.max 0 (lo - 1) <= ref_leftleft table idx index c <= hi).
  { apply lerp_bounds; trivial.
    - apply El; lia.
    - replace (idx + 0 + 3) with (idx + 3) by lia. apply El; lia. }
  assert (LR : Z.max 0 (lo - 1) <= ref_leftright table size1D idx index c <= hi).
  { apply lerp_bounds; trivial.
    - replace (idx + size1D * 3) with (idx + (size1D * 3)) by lia. apply El; lia.
    - replace (idx + size1D * 3 + 3) with (idx + (size1D * 3 + 3)) by lia.
      apply El; lia. }
  assert (RL : Z.max 0 (lo - 1)
               <= ref_rightleft table size1D size2D idx index c <= hi).
  { apply lerp_bounds; trivial.
    - replace (idx + size1D * size2D * 3) with (idx + (size1D * size2D * 3)) by lia.
      apply El; lia.
    - replace (idx + size1D * size2D * 3 + 3)
        with (idx + (size1D * size2D * 3 + 3)) by lia.
      apply El; lia. }
  assert (RR : Z.max 0 (lo - 1)
               <= ref_rightright table size1D size2D idx index c <= hi).
  { apply lerp_bounds; trivial.
    - replace (idx + size1D * size2D * 3 + size1D * 3)
        with (idx + (size1D * size2D * 3 + size1D * 3)) by lia.
      apply El; lia.
    - replace (idx + size1D * size2D * 3 + size1D * 3 + 3)
        with (idx + (size1D * size2D * 3 + size1D * 3 + 3)) by lia.
      apply El; lia. }
  assert (L : Z.max 0 (lo - 2) <= ref_left table size1D idx index c <= hi).
  { pose proof (lerp_bounds (Z.max 0 (lo - 1)) hi _ _ (f2 index)
                  ltac:(lia) LL LR F2) as Q.
    fold (ref_left table size1D idx index c) in Q. lia. }
  assert (R : Z.max 0 (lo - 2) <= ref_right table size1D size2D idx index c <= hi).
  { pose proof (lerp_bounds (Z.max 0 (lo - 1)) hi _ _ (f2 index)
                  ltac:(lia) RL RR F2) as Q.
    fold (ref_right table size1D size2D idx index c) in Q. lia. }
  apply rounded_bounds; [lia|].
  unfold ref_blend3, f3.
  set (l := ref_left table size1D idx index c) in *.
  set (r := ref_right table size1D size2D idx index c) in *.
  nia.
Qed.

Lemma output_within_table_range_witness :
  exists im',
    ImagingColorLUT3D_linear 3 2 2 2 identity_table out_2x1
      (Other black_then_white) = Some (RetImOut, im')
    /\ forall x y c,
         (y < 1)%nat -> 0 <= x < 2 -> (c < 3)%nat ->
         sat_u8 (Z.shiftr (0 + PRECISION_ROUNDING - 3) PRECISION_BITS)
         <= image_byte im' x y c
         <= sat_u8 (Z.shiftr (16320 + PRECISION_ROUNDING) PRECISION_BITS).
Proof.
  apply (output_within_table_range 0 16320 2 2 2 identity_table out_2x1
           (Other black_then_white)); try reflexivity; lia.
Defined.

(** ** Calls that touch no pixel, and loads that leave their buffer *)

(** X16.  When [imOut] has no rows to work on ([ysize <= 0]) a call that
    passes the checks returns [imOut] as it was, whatever the sizes, the
    table, [xsize] and the row buffers are: the body of the loop over [y],
    with all its loads, is never entered. *)
Theorem no_rows_nothing_touched tc size1D size2D size3D table imOut imIn :
  valid_call tc imOut imIn = true ->
  ysize imOut <= 0 ->
  ImagingColorLUT3D_linear tc size1D size2D size3D table imOut imIn
  = Some (RetImOut, imOut).
Proof.
  intros Hv Hy. rewrite valid_call_runs by exact Hv.
  replace (Z.to_nat (ysize imOut)) with 0%nat by lia.
  cbn [for_y bind]. now rewrite set_image_same.
Qed.

Lemma no_rows_nothing_touched_witness :
  ImagingColorLUT3D_linear 3 2 2 2 [] no_rows SameAsOut = Some (RetImOut, no_rows).
Proof.
  apply (no_rows_nothing_touched 3 2 2 2 [] no_rows SameAsOut);
    [reflexivity | simpl; lia].
Defined.

(** X17.  The load of line 123 reads 16 bytes at [&rowIn[0]] before the loop
    over [x] starts.  A call that passes the checks and has a row to work on
    leaves the buffer when the first input row holds fewer than 16 bytes,
    for every [xsize] (also 0) and both values of [table_channels]. *)
Theorem first_load_needs_16_bytes tc size1D size2D size3D table imOut imIn ro :
  valid_call tc imOut imIn = true ->
  0 < ysize imOut ->
  nth_error (image imOut) 0 = Some ro ->
  Z.of_nat (length (in_row imIn 0 ro)) < 16 ->
  ImagingColorLUT3D_linear tc size1D size2D size3D table imOut imIn = None.
Proof.
  intros Hv Hy Hro Hlen. rewrite valid_call_runs by exact Hv.
  destruct (Z.to_nat (ysize imOut)) as [|n] eqn:En; [lia|].
  cbn [for_y]. destruct imIn as [|im]; cbn [input_row in_row] in *.
  - cbn [bind]. rewrite Hro. cbn [bind]. unfold row.
    rewrite load_si128_none by lia. reflexivity.
  - destruct (image im) as [|r rs] eqn:Ei; cbn [nth_error nth] in *.
    + reflexivity.
    + cbn [bind]. rewrite Hro. cbn [bind]. unfold row.
      rewrite load_si128_none by lia. reflexivity.
Qed.

Lemma first_load_needs_16_bytes_witness :
  ImagingColorLUT3D_linear 3 2 2 2 identity_table exact_3x1 SameAsOut = None.
Proof.
  apply (first_load_needs_16_bytes 3 2 2 2 identity_table exact_3x1 SameAsOut
           [1; 2; 3; 255; 4; 5; 6; 255; 7; 8; 9; 255]);
    [reflexivity | simpl; lia | reflexivity | simpl; lia].
Defined.

Lemma lut3_fourth_load size1D size2D table idx index :
  _mm_loadu_si128 table (idx + size1D * size2D * 3 + size1D * 3) = None ->
  lut3 size1D size2D table idx index = None.
Proof.
  intros H. unfold lut3, size1D_2D.
  destruct (_mm_loadu_si128 table (idx + 0)); cbn [bind]; [|reflexivity].
  destruct (_mm_loadu_si128 table (idx + size1D * 3)); cbn [bind]; [|reflexivity].
  destruct (_mm_loadu_si128 table (idx + size1D * size2D * 3));
    cbn [bind]; [|reflexivity].
  rewrite H. reflexivity.
Qed.

Lemma pixel_lut3_none size1D size2D size3D table rowIn idx index x rowOut :
  lut3 size1D size2D table idx index = None ->
  pixel 3 size1D size2D size3D table rowIn idx index x rowOut = None.
Proof.
  intros L. unfold pixel.
  destruct (load_si128 _ _); cbn [bind]; [|reflexivity].
  change (3 =? 3) with true. cbv iota. rewrite L. reflexivity.
Qed.

Lemma row_index_eq size1D size2D size3D rd :
  scaled size1D size2D size3D (of_bytes (firstn 16 rd))
  = row_index size1D size2D size3D rd.
Proof. reflexivity. Qed.

Lemma row_idx_eq tc size1D size2D size3D rd :
  table_offset tc size1D size2D (row_index size1D size2D size3D rd)
  = row_idx tc size1D size2D size3D rd.
Proof. reflexivity. Qed.

Lemma top_cell_load size1D size2D size3D table rd :
  valid_size size1D -> valid_size size2D -> valid_size size3D ->
  (forall c, (c < 3)%nat -> row_byte rd 0 c = 255) ->
  Z.of_nat (length table) < 3 * (size1D * size2D * size3D) + 2 ->
  lut3 size1D size2D table (row_idx 3 size1D size2D size3D rd)
       (row_index size1D size2D size3D rd) = None.
Proof.
  intros H1 H2 H3 Hp Hlen. apply lut3_fourth_load.
  rewrite (row_idx_cells 3 size1D size2D size3D rd H1 H2 H3).
  rewrite (Hp 0%nat), (Hp 1%nat), (Hp 2%nat) by lia. change (u8 255) with 255.
  destruct (cell_ends size1D H1) as [_ ->].
  destruct (cell_ends size2D H2) as [_ ->].
  destruct (cell_ends size3D H3) as [_ ->].
  unfold table_index3D, _mm_loadu_si128.
  rewrite slice_none; [reflexivity|]. change (Z.of_nat 8) with 8. lia.
Qed.

Lemma for_x_first_faults tc size1D size2D size3D table rowIn idx index n x rowOut :
  pixel tc size1D size2D size3D table rowIn idx index x rowOut = None ->
  for_x tc size1D size2D size3D table rowIn idx index (S n) x rowOut = None.
Proof. intros E. cbn [for_x]. rewrite E. reflexivity. Qed.

Lemma row_top_cell_faults size1D size2D size3D table rowIn width ro :
  valid_size size1D -> valid_size size2D -> valid_size size3D ->
  0 < width ->
  (forall c, (c < 3)%nat ->
     row_byte (match rowIn with Some r => r | None => ro end) 0 c = 255) ->
  Z.of_nat (length table) < 3 * (size1D * size2D * size3D) + 2 ->
  row 3 size1D size2D size3D table rowIn width ro = None.
Proof.
  intros H1 H2 H3 Hw Hp Hlen. unfold row.
  set (rd := match rowIn with Some r => r | None => ro end) in *.
  destruct (Z_lt_le_dec (Z.of_nat (length rd)) 16) as [Hs|Hs].
  { rewrite load_si128_none by lia. reflexivity. }
  destruct (load_si128_some rd 0) as (v & -> & Ev); [lia|lia|].
  cbn [bind]. change (skipn (Z.to_nat 0) rd) with rd in Ev. subst v.
  destruct (Z.to_nat width) as [|n] eqn:En; [lia|].
  rewrite (row_index_eq size1D size2D size3D rd).
  rewrite (row_idx_eq 3 size1D size2D size3D rd).
  apply for_x_first_faults. apply pixel_lut3_none.
  exact (top_cell_load size1D size2D size3D table rd H1 H2 H3 Hp Hlen).
Qed.

(** X18.  The fourth table load of the three-channel block (line 166) reads
    eight elements and, from the last cell, ends two elements past the
    [3 * size1D * size2D * size3D] elements of the grid.  So for every grid
    with sizes in [2,65], a call on an image with at least one pixel whose
    first row starts with the pixel (255, 255, 255) leaves its buffers when
    the table holds fewer than [3 * size1D * size2D * size3D + 2]
    elements. *)
Theorem top_cell_reads_past_table size1D size2D size3D table imOut imIn ro :
  valid_call 3 imOut imIn = true ->
  valid_size size1D -> valid_size size2D -> valid_size size3D ->
  0 < xsize imOut -> 0 < ysize imOut ->
  nth_error (image imOut) 0 = Some ro ->
  (forall c, (c < 3)%nat -> row_byte (in_row imIn 0 ro) 0 c = 255) ->
  Z.of_nat (length table) < 3 * (size1D * size2D * size3D) + 2 ->
  ImagingColorLUT3D_linear 3 size1D size2D size3D table imOut imIn = None.
Proof.
  intros Hv H1 H2 H3 Hx Hy Hro Hp Hlen. rewrite valid_call_runs by exact Hv.
  destruct (Z.to_nat (ysize imOut)) as [|n] eqn:En; [lia|].
  cbn [for_y]. destruct imIn as [|im]; cbn [input_row in_row] in *.
  - cbn [bind]. rewrite Hro. cbn [bind].
    rewrite row_top_cell_faults; trivial.
  - destruct (image im) as [|r rs] eqn:Ei; cbn [nth_error nth] in *.
    + reflexivity.
    + cbn [bind]. rewrite Hro. cbn [bind].
      rewrite row_top_cell_faults; trivial.
Qed.

Lemma top_cell_reads_past_table_witness :
  ImagingColorLUT3D_linear 3 3 3 3 (repeat 0 81) out_1x1 (Other white_1x1)
  = None.
Proof.
  apply (top_cell_reads_past_table 3 3 3 (repeat 0 81) out_1x1 (Other white_1x1)
           ([9; 9; 9; 9] ++ repeat 0 16));
    try reflexivity; try (unfold valid_size; lia); try (simpl; lia).
  intros [|[|[|c]]] Hc; try reflexivity; lia.
Defined.

(** ** The vector computation of the table offset *)

(** X19.  For grid sizes in [2,65] the offset that lines 122-127 compute
    with [_mm_mullo_epi32], [_mm_srli_epi32], [_mm_madd_epi16] and the two
    [_mm_hadd_epi32] is [table_channels] times [table_index3D] of the three
    cell indices of the first pixel in the register: the 16-bit products of
    [_mm_madd_epi16] do not overflow.  The node index is not negative, and
    the farthest of the eight nodes of its cell, at
    [size1D * size2D + size1D + 1] nodes from it, is still a node of the
    grid. *)
Theorem simd_offset_is_table_index3D tc size1D size2D size3D v :
  valid_size size1D -> valid_size size2D -> valid_size size3D ->
  table_offset tc size1D size2D (scaled size1D size2D size3D v)
  = tc * table_index3D (cell size1D (u8 (e0 v)))
                       (cell size2D (u8 (Z.shiftr (e0 v) 8)))
                       (cell size3D (u8 (Z.shiftr (e0 v) 16)))
                       size1D (size1D * size2D)
  /\ 0 <= table_index3D (cell size1D (u8 (e0 v)))
                        (cell size2D (u8 (Z.shiftr (e0 v) 8)))
                        (cell size3D (u8 (Z.shiftr (e0 v) 16)))
                        size1D (size1D * size2D)
       <= size1D * size2D * size3D - (size1D * size2D + size1D + 2).
Proof.
  intros H1 H2 H3. split; [apply row_idx_spec; assumption|].
  pose proof (cell_index_bounds size1D size2D size3D _ _ _ H1 H2 H3
                (u8_le (e0 v)) (u8_le (Z.shiftr (e0 v) 8))
                (u8_le (Z.shiftr (e0 v) 16))) as B.
  lia.
Qed.

Lemma simd_offset_is_table_index3D_witness :
  table_offset 3 3 4 (scaled 3 4 5 (of_bytes [255; 128; 0; 255]))
  = 3 * table_index3D (cell 3 (u8 (e0 (of_bytes [255; 128; 0; 255]))))
                      (cell 4 (u8 (Z.shiftr (e0 (of_bytes [255; 128; 0; 255])) 8)))
                      (cell 5 (u8 (Z.shiftr (e0 (of_bytes [255; 128; 0; 255])) 16)))
                      3 (3 * 4)
  /\ 0 <= table_index3D (cell 3 (u8 (e0 (of_bytes [255; 128; 0; 255]))))
                        (cell 4 (u8 (Z.shiftr (e0 (of_bytes [255; 128; 0; 255])) 8)))
                        (cell 5 (u8 (Z.shiftr (e0 (of_bytes [255; 128; 0; 255])) 16)))
                        3 (3 * 4)
       <= 3 * 4 * 5 - (3 * 4 + 3 + 2).
Proof.
  apply (simd_offset_is_table_index3D 3 3 4 5 (of_bytes [255; 128; 0; 255]));
    unfold valid_size; lia.
Defined.
